(** * voxel: integer geometry, paletted voxel images, blitting and the
    [.vox] chunk decoder

    A shallow embedding of the Go packages [voxel] (geom.go and the image
    file) and [voxel/vox] (vox.go), and the properties of the written
    specification checked against it.

    Conventions of the embedding:
    - Go's [int] is taken to be 64 bits wide (as on amd64 and arm64) and is
      represented by [Z]; every arithmetic operation of the source writes its
      wrap-around out through [GoInt.wrap].  Comparisons and assignments need
      no wrapping.
    - [uint32] is [Z] reduced modulo [2^32] by [GoInt.u32]; [uint8] and the
      bytes of the stream are [Byte.byte].
    - a run-time panic (index out of range, [make] with a negative length) is
      an explicit outcome, never silently ignored. *)

From Stdlib Require Import ZArith Lia Bool String Sorted.
From Stdlib.Strings Require Import Byte.
From stdpp Require Import base option list.

Local Open Scope Z_scope.

(** ** Go integers *)

Definition int : Type := Z.

Module GoInt.

(** Two's-complement reduction to the 64-bit signed range. *)
Definition wrap (z : Z) : int := (z + 2 ^ 63) mod 2 ^ 64 - 2 ^ 63.

Definition in_range (z : Z) : Prop := - 2 ^ 63 <= z < 2 ^ 63.

Definition add (a b : int) : int := wrap (a + b).
Definition sub (a b : int) : int := wrap (a - b).
Definition mul (a b : int) : int := wrap (a * b).
(** [x++] *)
Definition incr (a : int) : int := add a 1.

(** [uint32] arithmetic. *)
Definition u32 (z : Z) : Z := z mod 2 ^ 32.

(** [a / b] and [a % b] for [b <> 0]: Go truncates towards zero, and the
    remainder takes the sign of the dividend.  ([minint / -1] wraps.) *)
Definition quo (a b : int) : int := wrap (Z.quot a b).
Definition rem (a b : int) : int := Z.rem a b.

End GoInt.

(** ** geom.go: points *)

Module Point.

Record t : Type := mk { X : int; Y : int; Z : int }.

Definition Add (p q : t) : t :=
  mk (GoInt.add (X p) (X q)) (GoInt.add (Y p) (Y q)) (GoInt.add (Z p) (Z q)).

Definition Sub (p q : t) : t :=
  mk (GoInt.sub (X p) (X q)) (GoInt.sub (Y p) (Y q)) (GoInt.sub (Z p) (Z q)).

Definition Mul (p : t) (k : int) : t :=
  mk (GoInt.mul (X p) k) (GoInt.mul (Y p) k) (GoInt.mul (Z p) k).

Definition Eq (p q : t) : bool :=
  (X p =? X q) && (Y p =? Y q) && (Z p =? Z q).

(** Integer division by zero is a run-time panic: [None]. *)
Definition Div (p : t) (k : int) : option t :=
  if k =? 0 then None
  else Some (mk (GoInt.quo (X p) k) (GoInt.quo (Y p) k) (GoInt.quo (Z p) k)).

Definition in_range (p : t) : Prop :=
  GoInt.in_range (X p) /\ GoInt.in_range (Y p) /\ GoInt.in_range (Z p).

End Point.

(** [var ZP Point] *)
Definition ZP : Point.t := Point.mk 0 0 0.

Definition Pt (x y z : int) : Point.t := Point.mk x y z.

(** ** geom.go: boxes *)

Module Box.

Record t : Type := mk { Min : Point.t; Max : Point.t }.

Definition Dx (b : t) : int := GoInt.sub (Point.X (Max b)) (Point.X (Min b)).
Definition Dy (b : t) : int := GoInt.sub (Point.Y (Max b)) (Point.Y (Min b)).
Definition Dz (b : t) : int := GoInt.sub (Point.Z (Max b)) (Point.Z (Min b)).

Definition Size (b : t) : Point.t :=
  Point.mk
    (GoInt.sub (Point.X (Max b)) (Point.X (Min b)))
    (GoInt.sub (Point.Y (Max b)) (Point.Y (Min b)))
    (GoInt.sub (Point.Z (Max b)) (Point.Z (Min b))).

(** [var ZB Box] *)
Definition ZB : t := mk ZP ZP.

(** The receiver is a copy; each [if] overwrites one field of it. *)
Definition Intersect (b s : t) : t :=
  let minx := if Point.X (Min b) <? Point.X (Min s) then Point.X (Min s) else Point.X (Min b) in
  let miny := if Point.Y (Min b) <? Point.Y (Min s) then Point.Y (Min s) else Point.Y (Min b) in
  let minz := if Point.Z (Min b) <? Point.Z (Min s) then Point.Z (Min s) else Point.Z (Min b) in
  let maxx := if Point.X (Max b) >? Point.X (Max s) then Point.X (Max s) else Point.X (Max b) in
  let maxy := if Point.Y (Max b) >? Point.Y (Max s) then Point.Y (Max s) else Point.Y (Max b) in
  let maxz := if Point.Z (Max b) >? Point.Z (Max s) then Point.Z (Max s) else Point.Z (Max b) in
  if (minx >? maxx) || (miny >? maxy) || (minz >? maxz)
  then ZB
  else mk (Point.mk minx miny minz) (Point.mk maxx maxy maxz).

Definition Empty (b : t) : bool :=
  (Point.X (Min b) >=? Point.X (Max b))
  || (Point.Y (Min b) >=? Point.Y (Max b))
  || (Point.Z (Min b) >=? Point.Z (Max b)).

Definition Overlaps (b s : t) : bool :=
  negb (Empty b) && negb (Empty s)
  && (Point.X (Min b) <? Point.X (Max s)) && (Point.X (Min s) <? Point.X (Max b))
  && (Point.Y (Min b) <? Point.Y (Max s)) && (Point.Y (Min s) <? Point.Y (Max b))
  && (Point.Z (Min b) <? Point.Z (Max s)) && (Point.Z (Min s) <? Point.Z (Max b)).

Definition In (b s : t) : bool :=
  if Empty b then true
  else
    (Point.X (Min s) <=? Point.X (Min b)) && (Point.X (Max b) <=? Point.X (Max s))
    && (Point.Y (Min s) <=? Point.Y (Min b)) && (Point.Y (Max b) <=? Point.Y (Max s))
    && (Point.Z (Min s) <=? Point.Z (Min b)) && (Point.Z (Max b) <=? Point.Z (Max s)).

Definition in_range (b : t) : Prop :=
  Point.in_range (Min b) /\ Point.in_range (Max b).

Definition Add (b : t) (p : Point.t) : t :=
  mk (Point.mk (GoInt.add (Point.X (Min b)) (Point.X p))
               (GoInt.add (Point.Y (Min b)) (Point.Y p))
               (GoInt.add (Point.Z (Min b)) (Point.Z p)))
     (Point.mk (GoInt.add (Point.X (Max b)) (Point.X p))
               (GoInt.add (Point.Y (Max b)) (Point.Y p))
               (GoInt.add (Point.Z (Max b)) (Point.Z p))).

Definition Sub (b : t) (p : Point.t) : t :=
  mk (Point.mk (GoInt.sub (Point.X (Min b)) (Point.X p))
               (GoInt.sub (Point.Y (Min b)) (Point.Y p))
               (GoInt.sub (Point.Z (Min b)) (Point.Z p)))
     (Point.mk (GoInt.sub (Point.X (Max b)) (Point.X p))
               (GoInt.sub (Point.Y (Max b)) (Point.Y p))
               (GoInt.sub (Point.Z (Max b)) (Point.Z p))).

(** One axis of [Inset]: the new [Min] and [Max] of that axis. *)
Definition inset_axis (lo hi n : int) : int * int :=
  if GoInt.sub hi lo <? GoInt.mul 2 n then
    let mid := GoInt.quo (GoInt.add lo hi) 2 in (mid, mid)
  else (GoInt.add lo n, GoInt.sub hi n).

Definition Inset (b : t) (n : int) : t :=
  let '(x0, x1) := inset_axis (Point.X (Min b)) (Point.X (Max b)) n in
  let '(y0, y1) := inset_axis (Point.Y (Min b)) (Point.Y (Max b)) n in
  let '(z0, z1) := inset_axis (Point.Z (Min b)) (Point.Z (Max b)) n in
  mk (Point.mk x0 y0 z0) (Point.mk x1 y1 z1).

Definition Union (b s : t) : t :=
  if Empty b then s
  else if Empty s then b
  else
    let minx := if Point.X (Min b) >? Point.X (Min s) then Point.X (Min s) else Point.X (Min b) in
    let miny := if Point.Y (Min b) >? Point.Y (Min s) then Point.Y (Min s) else Point.Y (Min b) in
    let minz := if Point.Z (Min b) >? Point.Z (Min s) then Point.Z (Min s) else Point.Z (Min b) in
    let maxx := if Point.X (Max b) <? Point.X (Max s) then Point.X (Max s) else Point.X (Max b) in
    let maxy := if Point.Y (Max b) <? Point.Y (Max s) then Point.Y (Max s) else Point.Y (Max b) in
    let maxz := if Point.Z (Max b) <? Point.Z (Max s) then Point.Z (Max s) else Point.Z (Max b) in
    mk (Point.mk minx miny minz) (Point.mk maxx maxy maxz).

(** [b == s || b.Empty() && s.Empty()] *)
Definition Eq (b s : t) : bool :=
  (Point.Eq (Min b) (Min s) && Point.Eq (Max b) (Max s)) || (Empty b && Empty s).

Definition Canon (b : t) : t :=
  let '(x0, x1) :=
    if Point.X (Max b) <? Point.X (Min b) then (Point.X (Max b), Point.X (Min b))
    else (Point.X (Min b), Point.X (Max b)) in
  let '(y0, y1) :=
    if Point.Y (Max b) <? Point.Y (Min b) then (Point.Y (Max b), Point.Y (Min b))
    else (Point.Y (Min b), Point.Y (Max b)) in
  let '(z0, z1) :=
    if Point.Z (Max b) <? Point.Z (Min b) then (Point.Z (Max b), Point.Z (Min b))
    else (Point.Z (Min b), Point.Z (Max b)) in
  mk (Point.mk x0 y0 z0) (Point.mk x1 y1 z1).

End Box.

(** [In] of a point in a box (method [Point.In]). *)
Definition Point_In (p : Point.t) (b : Box.t) : bool :=
  (Point.X (Box.Min b) <=? Point.X p) && (Point.X p <? Point.X (Box.Max b))
  && (Point.Y (Box.Min b) <=? Point.Y p) && (Point.Y p <? Point.Y (Box.Max b))
  && (Point.Z (Box.Min b) <=? Point.Z p) && (Point.Z p <? Point.Z (Box.Max b)).

(** One axis of [Point.Mod]: translate into the box, reduce, fix the sign
    of the remainder. *)
Definition mod_axis (v lo extent : int) : int :=
  let r := GoInt.rem (GoInt.sub v lo) extent in
  if r <? 0 then GoInt.add r extent else r.

(** [p.Mod(b)]: wrap the point into the box.  A remainder by a zero extent is
    a run-time panic: [None]. *)
Definition Point_Mod (p : Point.t) (b : Box.t) : option Point.t :=
  let w := Box.Dx b in
  let h := Box.Dy b in
  let d := Box.Dz b in
  if (w =? 0) || (h =? 0) || (d =? 0) then None
  else
    Some (Point.Add
            (Point.mk (mod_axis (Point.X p) (Point.X (Box.Min b)) w)
                      (mod_axis (Point.Y p) (Point.Y (Box.Min b)) h)
                      (mod_axis (Point.Z p) (Point.Z (Box.Min b)) d))
            (Box.Min b)).

(** The constructor [Bx]: each pair is swapped when given in descending
    order. *)
Definition Bx (x0 y0 z0 x1 y1 z1 : int) : Box.t :=
  let '(x0, x1) := if x0 >? x1 then (x1, x0) else (x0, x1) in
  let '(y0, y1) := if y0 >? y1 then (y1, y0) else (y0, y1) in
  let '(z0, z1) := if z0 >? z1 then (z1, z0) else (z0, z1) in
  Box.mk (Point.mk x0 y0 z0) (Point.mk x1 y1 z1).

(** ** The voxel image file: [Image], [Blit], [Paletted] *)

Module color.

(** [color.RGBA]: four [uint8] fields. *)
Record RGBA : Type := mkRGBA { R : byte; G : byte; B : byte; A : byte }.

(** [color.Palette] is a slice of colours; the decoder and the default table
    only ever store [color.RGBA] values in it. *)
Definition Palette : Type := list RGBA.

End color.

(** The interface [Image] of package [voxel].  An implementation lives in a
    store [W] of objects, so that [dst] and [src] may denote the same object;
    [None] is a panic of the method. *)
Record Image (W : Type) : Type := mkImage {
  Bounds : W -> Box.t;
  Set_ : int -> int -> int -> byte -> W -> option W;
  Get : int -> int -> int -> W -> option byte
}.
Arguments Bounds {W}.
Arguments Set_ {W}.
Arguments Get {W}.

Section Blit.

Context {W : Type}.

(** [for i, s := lo, s0; i < hi; i++ { body; s++ }].  The loop is unrolled at
    most [fuel] times; [Blit] passes the trip count [hi - lo]. *)
Fixpoint for_lt (fuel : nat) (hi : int) (body : int -> int -> W -> option W)
    (i s : int) (w : W) : option W :=
  match fuel with
  | O => Some w
  | S fuel' =>
      if i <? hi then
        match body i s w with
        | Some w' => for_lt fuel' hi body (GoInt.incr i) (GoInt.incr s) w'
        | None => None
        end
      else Some w
  end.

Definition trip (lo hi : int) : nat := Z.to_nat (hi - lo).

(** The per-voxel action of [Blit]: [dst.Set(x, y, z, src.Get(sx, sy, sz))]. *)
Definition copy_voxel (dst src : Image W) (d s : Point.t) (w : W) : option W :=
  match Get src (Point.X s) (Point.Y s) (Point.Z s) w with
  | Some v => Set_ dst (Point.X d) (Point.Y d) (Point.Z d) v w
  | None => None
  end.

(** The three nested loops shared by [Blit] and [BlitOp]. *)
Definition blit_loops (op : Point.t -> Point.t -> W -> option W)
    (b sr : Box.t) (w : W) : option W :=
  for_lt (trip (Point.Z (Box.Min b)) (Point.Z (Box.Max b))) (Point.Z (Box.Max b))
    (fun z sz =>
       for_lt (trip (Point.Y (Box.Min b)) (Point.Y (Box.Max b))) (Point.Y (Box.Max b))
         (fun y sy =>
            for_lt (trip (Point.X (Box.Min b)) (Point.X (Box.Max b))) (Point.X (Box.Max b))
              (fun x sx => op (Pt x y z) (Pt sx sy sz))
              (Point.X (Box.Min b)) (Point.X (Box.Min sr)))
         (Point.Y (Box.Min b)) (Point.Y (Box.Min sr)))
    (Point.Z (Box.Min b)) (Point.Z (Box.Min sr)) w.

(** The clipped source region, the destination footprint and the iteration
    box, as [Blit] computes them in its first three lines. *)
Definition clip_sr (src : Image W) (sr : Box.t) (w : W) : Box.t :=
  Box.Intersect sr (Bounds src w).

Definition footprint (src : Image W) (dp : Point.t) (sr : Box.t) (w : W) : Box.t :=
  Box.mk dp (Point.Add (Box.Size (clip_sr src sr w)) dp).

Definition clip_dr (dst src : Image W) (dp : Point.t) (sr : Box.t) (w : W) : Box.t :=
  Box.Intersect (Bounds dst w) (footprint src dp sr w).

Definition BlitOp (dst src : Image W) (dp : Point.t) (sr : Box.t)
    (op : Image W -> Image W -> Point.t -> Point.t -> W -> option W) (w : W) : option W :=
  let sr := clip_sr src sr w in
  let dr := Box.mk dp (Point.Add (Box.Size sr) dp) in
  let b := Box.Intersect (Bounds dst w) dr in
  blit_loops (op dst src) b sr w.

Definition Blit (dst src : Image W) (dp : Point.t) (sr : Box.t) (w : W) : option W :=
  let sr := clip_sr src sr w in
  let dr := Box.mk dp (Point.Add (Box.Size sr) dp) in
  let b := Box.Intersect (Bounds dst w) dr in
  blit_loops (copy_voxel dst src) b sr w.

(** *** The walk of [Blit] as the specification words it

    The cells of the iteration box [b] in ascending Z, then Y, then X order,
    each paired with the source cell at the same displacement from
    [sr.Min]. *)
Definition Blit_cells (b sr : Box.t) : list (Point.t * Point.t) :=
  flat_map (fun k =>
    flat_map (fun j =>
      map (fun i =>
             (Pt (Point.X (Box.Min b) + Z.of_nat i)
                 (Point.Y (Box.Min b) + Z.of_nat j)
                 (Point.Z (Box.Min b) + Z.of_nat k),
              Pt (Point.X (Box.Min sr) + Z.of_nat i)
                 (Point.Y (Box.Min sr) + Z.of_nat j)
                 (Point.Z (Box.Min sr) + Z.of_nat k)))
          (seq 0 (trip (Point.X (Box.Min b)) (Point.X (Box.Max b)))))
      (seq 0 (trip (Point.Y (Box.Min b)) (Point.Y (Box.Max b)))))
    (seq 0 (trip (Point.Z (Box.Min b)) (Point.Z (Box.Max b)))).

(** Apply an action to the listed cells, in list order, stopping at the
    first panic. *)
Fixpoint visit_all (op : Point.t -> Point.t -> W -> option W)
    (cells : list (Point.t * Point.t)) (w : W) : option W :=
  match cells with
  | [] => Some w
  | (d, s) :: cells' =>
      match op d s w with
      | Some w' => visit_all op cells' w'
      | None => None
      end
  end.

(** A sequence of actions run in order, stopping at the first panic. *)
Fixpoint run_all (fs : list (W -> option W)) (w : W) : option W :=
  match fs with
  | [] => Some w
  | f :: fs' => match f w with Some w' => run_all fs' w' | None => None end
  end.

End Blit.

(** Ascending Z-major, then Y, then X order on cells. *)
Definition zyx_lt (p q : Point.t) : Prop :=
  Point.Z p < Point.Z q
  \/ (Point.Z p = Point.Z q
      /\ (Point.Y p < Point.Y q \/ (Point.Y p = Point.Y q /\ Point.X p < Point.X q))).


(** ** [Paletted] *)

Module Paletted.

Record t : Type := mk {
  bounds : Box.t;
  Transformer : int -> int -> int -> int * int * int;
  Palette : color.Palette;
  Data : list byte
}.

Definition noTransform (x y z : int) : int * int * int := (x, y, z).

Definition Bounds (p : t) : Box.t := bounds p.

(** [make([]uint8, sz)] panics on a negative length.  (An allocation too
    large for the machine is outside the model.) *)
Definition SetBounds (b : Box.t) (p : t) : option t :=
  let '(x, y, z) :=
    Transformer p (Point.X (Box.Max b)) (Point.Y (Box.Max b)) (Point.Z (Box.Max b)) in
  let sz :=
    GoInt.mul (GoInt.mul (Point.X (Box.Max b)) (Point.Y (Box.Max b))) (Point.Z (Box.Max b)) in
  if sz <? 0 then None
  else Some (mk (Box.mk ZP (Pt x y z)) (Transformer p) (Palette p)
               (replicate (Z.to_nat sz) x00)).


Definition SetPalette (pal : color.Palette) (p : t) : t :=
  mk (bounds p) (Transformer p) pal (Data p).

Definition Offset (p : t) (x y z : int) : int :=
  GoInt.add
    (GoInt.add
       (GoInt.mul (GoInt.mul z (Point.X (Box.Max (bounds p)))) (Point.Y (Box.Max (bounds p))))
       (GoInt.mul y (Point.X (Box.Max (bounds p)))))
    x.

(** [p.Data[i]] for an [int] index: [None] is the index-out-of-range panic. *)
Definition index (data : list byte) (i : int) : option byte :=
  if i <? 0 then None else data !! Z.to_nat i.

(** [p.Data[i] = v]. *)
Definition store (data : list byte) (i : int) (v : byte) : option (list byte) :=
  if (0 <=? i) && (i <? Z.of_nat (length data)) then Some (<[Z.to_nat i := v]> data)
  else None.

Definition Set_ (x y z : int) (idx : byte) (p : t) : option t :=
  let '(x, y, z) := Transformer p x y z in
  match store (Data p) (Offset p x y z) idx with
  | Some data => Some (mk (bounds p) (Transformer p) (Palette p) data)
  | None => None
  end.

Definition Get (x y z : int) (p : t) : option byte :=
  index (Data p) (Offset p x y z).

(** [p.Palette[p.Get(x, y, z)]] *)
Definition GetColor (x y z : int) (p : t) : option color.RGBA :=
  match Get x y z p with
  | Some i => Palette p !! N.to_nat (Byte.to_N i)
  | None => None
  end.

End Paletted.

(** A [*Paletted] as an [Image]: the pointer is an address in a store of
    [Paletted] objects, so two pointers may alias. *)
Definition PalettedAt (a : nat) : Image (list Paletted.t) :=
  mkImage (list Paletted.t)
    (fun w => match w !! a with Some p => Paletted.Bounds p | None => Box.ZB end)
    (fun x y z v w =>
       match w !! a with
       | Some p =>
           match Paletted.Set_ x y z v p with
           | Some p' => Some (<[a := p']> w)
           | None => None
           end
       | None => None
       end)
    (fun x y z w =>
       match w !! a with
       | Some p => Paletted.Get x y z p
       | None => None
       end).

(** ** Package [vox]: the chunk decoder (vox.go) *)

Module vox.

Definition voxMagic : string := "VOX ".
Definition voxVersion : Z := 150.

Definition mainChunkID : string := "MAIN".
Definition sizeShunkID : string := "SIZE".
Definition voxelChunkID : string := "XYZI".
Definition paletteChunkID : string := "RGBA".

(** The two errors [io.ReadFull] and a [Read] at the end of a finite stream
    produce. *)
Inductive ioerr : Type := EOF | ErrUnexpectedEOF.

Record Error : Type := mkError { err : string; inner : option ioerr }.

Definition ErrInvalidFile : Error := mkError "invalid file" None.
Definition ErrInvalidVersion : Error := mkError "invalid version" None.
Definition ErrInvalidChunk : Error := mkError "invalid chunk" None.
Definition ErrInvalidMainChunk : Error := mkError "invalid main chunk" None.

(** [e.with(inner)] *)
Definition with_ (e : Error) (i : ioerr) : Error := mkError (err e) (Some i).

(** The sink interface [vox.Image]; [None] is a panic of the method. *)
Record Image (S : Type) : Type := mkImage {
  SetBounds : Box.t -> S -> option S;
  SetPalette : color.Palette -> S -> option S;
  Set_ : int -> int -> int -> byte -> S -> option S
}.
Arguments SetBounds {S}.
Arguments SetPalette {S}.
Arguments Set_ {S}.

Record voxHeader : Type := mkVoxHeader { Magic : list byte; Version : list byte }.

Record chunkHeader : Type := mkChunkHeader {
  Id : list byte;
  DataSize : Z;
  ChildrenSize : Z
}.

Definition uint8 (b : byte) : Z := Z.of_N (Byte.to_N b).

(** [binary.LittleEndian.Uint32] *)
Definition uint32_le (bs : list byte) : Z :=
  foldr (fun b acc => uint8 b + 256 * acc) 0 bs.

(** Field layout of the fixed-size values [binary.Read] fills in. *)
Definition decode_voxHeader (bs : list byte) : voxHeader :=
  mkVoxHeader (take 4 bs) (take 4 (drop 4 bs)).

Definition decode_chunkHeader (bs : list byte) : chunkHeader :=
  mkChunkHeader (take 4 bs) (uint32_le (take 4 (drop 4 bs))) (uint32_le (take 4 (drop 8 bs))).

Definition decode_RGBA (bs : list byte) : color.RGBA :=
  color.mkRGBA (nth 0 bs x00) (nth 1 bs x00) (nth 2 bs x00) (nth 3 bs x00).

(** [string(id[:]) == tag] *)
Definition tag_is (id : list byte) (tag : string) : bool :=
  String.eqb (string_of_list_byte id) tag.

(** The byte with a given value below 256. *)
Definition byte_of_N (n : N) : byte :=
  match Byte.of_N n with Some b => b | None => x00 end.

Definition rgba (r g b a : N) : color.RGBA :=
  color.mkRGBA (byte_of_N r) (byte_of_N g) (byte_of_N b) (byte_of_N a).

Definition defaultPalette : color.Palette := [
  rgba 255 255 255 255; rgba 255 255 204 255; rgba 255 255 153 255; rgba 255 255 102 255;
  rgba 255 255 51 255; rgba 255 255 0 255; rgba 255 204 255 255; rgba 255 204 204 255;
  rgba 255 204 153 255; rgba 255 204 102 255; rgba 255 204 51 255; rgba 255 204 0 255;
  rgba 255 153 255 255; rgba 255 153 204 255; rgba 255 153 153 255; rgba 255 153 102 255;
  rgba 255 153 51 255; rgba 255 153 0 255; rgba 255 102 255 255; rgba 255 102 204 255;
  rgba 255 102 153 255; rgba 255 102 102 255; rgba 255 102 51 255; rgba 255 102 0 255;
  rgba 255 51 255 255; rgba 255 51 204 255; rgba 255 51 153 255; rgba 255 51 102 255;
  rgba 255 51 51 255; rgba 255 51 0 255; rgba 255 0 255 255; rgba 255 0 204 255;
  rgba 255 0 153 255; rgba 255 0 102 255; rgba 255 0 51 255; rgba 255 0 0 255;
  rgba 204 255 255 255; rgba 204 255 204 255; rgba 204 255 153 255; rgba 204 255 102 255;
  rgba 204 255 51 255; rgba 204 255 0 255; rgba 204 204 255 255; rgba 204 204 204 255;
  rgba 204 204 153 255; rgba 204 204 102 255; rgba 204 204 51 255; rgba 204 204 0 255;
  rgba 204 153 255 255; rgba 204 153 204 255; rgba 204 153 153 255; rgba 204 153 102 255;
  rgba 204 153 51 255; rgba 204 153 0 255; rgba 204 102 255 255; rgba 204 102 204 255;
  rgba 204 102 153 255; rgba 204 102 102 255; rgba 204 102 51 255; rgba 204 102 0 255;
  rgba 204 51 255 255; rgba 204 51 204 255; rgba 204 51 153 255; rgba 204 51 102 255;
  rgba 204 51 51 255; rgba 204 51 0 255; rgba 204 0 255 255; rgba 204 0 204 255;
  rgba 204 0 153 255; rgba 204 0 102 255; rgba 204 0 51 255; rgba 204 0 0 255;
  rgba 153 255 255 255; rgba 153 255 204 255; rgba 153 255 153 255; rgba 153 255 102 255;
  rgba 153 255 51 255; rgba 153 255 0 255; rgba 153 204 255 255; rgba 153 204 204 255;
  rgba 153 204 153 255; rgba 153 204 102 255; rgba 153 204 51 255; rgba 153 204 0 255;
  rgba 153 153 255 255; rgba 153 153 204 255; rgba 153 153 153 255; rgba 153 153 102 255;
  rgba 153 153 51 255; rgba 153 153 0 255; rgba 153 102 255 255; rgba 153 102 204 255;
  rgba 153 102 153 255; rgba 153 102 102 255; rgba 153 102 51 255; rgba 153 102 0 255;
  rgba 153 51 255 255; rgba 153 51 204 255; rgba 153 51 153 255; rgba 153 51 102 255;
  rgba 153 51 51 255; rgba 153 51 0 255; rgba 153 0 255 255; rgba 153 0 204 255;
  rgba 153 0 153 255; rgba 153 0 102 255; rgba 153 0 51 255; rgba 153 0 0 255;
  rgba 102 255 255 255; rgba 102 255 204 255; rgba 102 255 153 255; rgba 102 255 102 255;
  rgba 102 255 51 255; rgba 102 255 0 255; rgba 102 204 255 255; rgba 102 204 204 255;
  rgba 102 204 153 255; rgba 102 204 102 255; rgba 102 204 51 255; rgba 102 204 0 255;
  rgba 102 153 255 255; rgba 102 153 204 255; rgba 102 153 153 255; rgba 102 153 102 255;
  rgba 102 153 51 255; rgba 102 153 0 255; rgba 102 102 255 255; rgba 102 102 204 255;
  rgba 102 102 153 255; rgba 102 102 102 255; rgba 102 102 51 255; rgba 102 102 0 255;
  rgba 102 51 255 255; rgba 102 51 204 255; rgba 102 51 153 255; rgba 102 51 102 255;
  rgba 102 51 51 255; rgba 102 51 0 255; rgba 102 0 255 255; rgba 102 0 204 255;
  rgba 102 0 153 255; rgba 102 0 102 255; rgba 102 0 51 255; rgba 102 0 0 255;
  rgba 51 255 255 255; rgba 51 255 204 255; rgba 51 255 153 255; rgba 51 255 102 255;
  rgba 51 255 51 255; rgba 51 255 0 255; rgba 51 204 255 255; rgba 51 204 204 255;
  rgba 51 204 153 255; rgba 51 204 102 255; rgba 51 204 51 255; rgba 51 204 0 255;
  rgba 51 153 255 255; rgba 51 153 204 255; rgba 51 153 153 255; rgba 51 153 102 255;
  rgba 51 153 51 255; rgba 51 153 0 255; rgba 51 102 255 255; rgba 51 102 204 255;
  rgba 51 102 153 255; rgba 51 102 102 255; rgba 51 102 51 255; rgba 51 102 0 255;
  rgba 51 51 255 255; rgba 51 51 204 255; rgba 51 51 153 255; rgba 51 51 102 255;
  rgba 51 51 51 255; rgba 51 51 0 255; rgba 51 0 255 255; rgba 51 0 204 255;
  rgba 51 0 153 255; rgba 51 0 102 255; rgba 51 0 51 255; rgba 51 0 0 255;
  rgba 0 255 255 255; rgba 0 255 204 255; rgba 0 255 153 255; rgba 0 255 102 255;
  rgba 0 255 51 255; rgba 0 255 0 255; rgba 0 204 255 255; rgba 0 204 204 255;
  rgba 0 204 153 255; rgba 0 204 102 255; rgba 0 204 51 255; rgba 0 204 0 255;
  rgba 0 153 255 255; rgba 0 153 204 255; rgba 0 153 153 255; rgba 0 153 102 255;
  rgba 0 153 51 255; rgba 0 153 0 255; rgba 0 102 255 255; rgba 0 102 204 255;
  rgba 0 102 153 255; rgba 0 102 102 255; rgba 0 102 51 255; rgba 0 102 0 255;
  rgba 0 51 255 255; rgba 0 51 204 255; rgba 0 51 153 255; rgba 0 51 102 255;
  rgba 0 51 51 255; rgba 0 51 0 255; rgba 0 0 255 255; rgba 0 0 204 255;
  rgba 0 0 153 255; rgba 0 0 102 255; rgba 0 0 51 255; rgba 238 0 0 255;
  rgba 221 0 0 255; rgba 187 0 0 255; rgba 170 0 0 255; rgba 136 0 0 255;
  rgba 119 0 0 255; rgba 85 0 0 255; rgba 68 0 0 255; rgba 34 0 0 255;
  rgba 17 0 0 255; rgba 0 238 0 255; rgba 0 221 0 255; rgba 0 187 0 255;
  rgba 0 170 0 255; rgba 0 136 0 255; rgba 0 119 0 255; rgba 0 85 0 255;
  rgba 0 68 0 255; rgba 0 34 0 255; rgba 0 17 0 255; rgba 0 0 238 255;
  rgba 0 0 221 255; rgba 0 0 187 255; rgba 0 0 170 255; rgba 0 0 136 255;
  rgba 0 0 119 255; rgba 0 0 85 255; rgba 0 0 68 255; rgba 0 0 34 255;
  rgba 0 0 17 255; rgba 238 238 238 255; rgba 221 221 221 255; rgba 187 187 187 255;
  rgba 170 170 170 255; rgba 136 136 136 255; rgba 119 119 119 255; rgba 85 85 85 255;
  rgba 68 68 68 255; rgba 34 34 34 255; rgba 17 17 17 255; rgba 0 0 0 255].

Section Decoder.

Context {S : Type} (sink : Image S).

(** The decoder's view of the world: what is left of the input stream (a
    finite stream read like a [bytes.Reader]) and the sink. *)
Record State : Type := mkState { reader : list byte; img : S }.

(** How a piece of [Decode] can end: it goes on with a value, [Decode]
    returns an error, a sink method panics, or the loop budget of the
    embedding is used up. *)
Inductive Res (A : Type) : Type :=
  | Val (a : A) (st : State)
  | Return (e : Error) (st : State)
  | Panic
  | OutOfFuel.
Arguments Val {A}.
Arguments Return {A}.
Arguments Panic {A}.
Arguments OutOfFuel {A}.

Definition M (A : Type) : Type := State -> Res A.

Definition ret {A : Type} (a : A) : M A := fun st => Val a st.

Definition bind {A B : Type} (m : M A) (k : A -> M B) : M B :=
  fun st =>
    match m st with
    | Val a st' => k a st'
    | Return e st' => Return e st'
    | Panic => Panic
    | OutOfFuel => OutOfFuel
    end.

Definition return_ {A : Type} (e : Error) : M A := fun st => Return e st.

Definition out_of_fuel {A : Type} : M A := fun _ => OutOfFuel.

(** A call of a sink method. *)
Definition call (f : S -> option S) : M unit :=
  fun st =>
    match f (img st) with
    | Some img' => Val tt (mkState (reader st) img')
    | None => Panic
    end.

(** [binary.Read] of a fixed-size value of [n > 0] bytes: [io.ReadFull]
    gives [EOF] when nothing is left and [ErrUnexpectedEOF] when the stream
    ends within the value; the stream is drained in both cases. *)
Definition binary_Read (n : nat) : M (ioerr + list byte) :=
  fun st =>
    let r := reader st in
    if (n <=? length r)%nat then Val (inr (take n r)) (mkState (drop n r) (img st))
    else Val (inl (match r with [] => EOF | _ => ErrUnexpectedEOF end)) (mkState [] (img st)).

(** [if err := binary.Read(...); err != nil { return e.with(err) }] *)
Definition binary_Read_or (n : nat) (e : Error) : M (list byte) :=
  bind (binary_Read n) (fun r =>
    match r with
    | inl io => return_ (with_ e io)
    | inr bs => ret bs
    end).

(** [reader.Read(make([]byte, sz))] on a [bytes.Reader]: at the end of the
    stream it reports [EOF]; otherwise it hands over up to [sz] bytes with no
    error, even when fewer than [sz] are left.  Only the error is looked at. *)
Definition reader_Read (sz : Z) : M (option ioerr) :=
  fun st =>
    match reader st with
    | [] => Val (Some EOF) st
    | r =>
        let rest := if Z.of_nat (length r) <=? sz then [] else drop (Z.to_nat sz) r in
        Val None (mkState rest (img st))
    end.

Notation "x <- m ;; k" := (bind m (fun x => k))
  (at level 100, m at next level, right associativity).
Notation "m ;;; k" := (bind m (fun _ => k))
  (at level 100, right associativity).

(** [for i := range palette { ... palette[i] = c }] over the [n] entries
    still to fill. *)
Fixpoint read_palette (n : nat) (palette : color.Palette) : M color.Palette :=
  match n with
  | O => ret palette
  | Datatypes.S n' =>
      bs <- binary_Read_or 4 ErrInvalidChunk ;;
      read_palette n' (palette ++ [decode_RGBA bs])
  end.

(** [for i := uint32(0); i < numVoxels; i++ { ... }] *)
Fixpoint read_voxels (fuel : nat) (i numVoxels : Z) : M unit :=
  if i <? numVoxels then
    match fuel with
    | O => out_of_fuel
    | Datatypes.S fuel' =>
        voxel <- binary_Read_or 4 ErrInvalidChunk ;;
        call (Set_ sink (uint8 (nth 0 voxel x00)) (uint8 (nth 1 voxel x00))
                (uint8 (nth 2 voxel x00)) (nth 3 voxel x00)) ;;;
        read_voxels fuel' (i + 1) numVoxels
    end
  else ret tt.

(** One turn of the [for numBytes < childrenSize] loop: read a child header
    and dispatch on its tag.  The result is the new [numBytes] and
    [hasPalette]. *)
Definition child (fuel : nat) (numBytes : Z) (hasPalette : bool) : M (Z * bool) :=
  bs <- binary_Read_or 12 ErrInvalidFile ;;
  let header := decode_chunkHeader bs in
  let numBytes := GoInt.u32 (numBytes + 12) in
  if tag_is (Id header) sizeShunkID then
    size <- binary_Read_or 12 ErrInvalidChunk ;;
    let numBytes := GoInt.u32 (numBytes + 12) in
    call (SetBounds sink
            (Bx 0 0 0 (uint32_le (take 4 size)) (uint32_le (take 4 (drop 4 size)))
               (uint32_le (take 4 (drop 8 size))))) ;;;
    ret (numBytes, hasPalette)
  else if tag_is (Id header) paletteChunkID then
    palette <- read_palette 256 [] ;;
    let hasPalette := true in
    let numBytes := GoInt.u32 (numBytes + 16 * 256) in
    call (SetPalette sink palette) ;;;
    ret (numBytes, hasPalette)
  else if tag_is (Id header) voxelChunkID then
    bs <- binary_Read_or 4 ErrInvalidChunk ;;
    let numVoxels := uint32_le bs in
    let numBytes := GoInt.u32 (numBytes + 4) in
    read_voxels fuel 0 numVoxels ;;;
    let numBytes := GoInt.u32 (numBytes + GoInt.u32 (4 * numVoxels)) in
    ret (numBytes, hasPalette)
  else
    let sz := GoInt.u32 (DataSize header + ChildrenSize header) in
    r <- reader_Read sz ;;
    match r with
    | Some io => return_ (with_ ErrInvalidFile io)
    | None => ret (GoInt.u32 (numBytes + sz), hasPalette)
    end.

(** [for numBytes < childrenSize { ... }]; the value is [hasPalette] at the
    exit of the loop. *)
Fixpoint ConsumingChildren (fuel : nat) (childrenSize numBytes : Z) (hasPalette : bool)
    : M bool :=
  if numBytes <? childrenSize then
    match fuel with
    | O => out_of_fuel
    | Datatypes.S fuel' =>
        nh <- child fuel' numBytes hasPalette ;;
        ConsumingChildren fuel' childrenSize (fst nh) (snd nh)
    end
  else ret hasPalette.

Definition Decode_fuel (fuel : nat) : M unit :=
  bs <- binary_Read_or 8 ErrInvalidFile ;;
  let fileHeader := decode_voxHeader bs in
  if negb (tag_is (Magic fileHeader) voxMagic) then return_ ErrInvalidFile
  else if negb (uint8 (nth 0 (Version fileHeader) x00) =? voxVersion) then
    return_ ErrInvalidVersion
  else
    bs <- binary_Read_or 12 ErrInvalidMainChunk ;;
    let header := decode_chunkHeader bs in
    if negb (tag_is (Id header) mainChunkID) then return_ ErrInvalidMainChunk
    else
      let childrenSize := ChildrenSize header in
      hasPalette <- ConsumingChildren fuel childrenSize 0 false ;;
      (if negb hasPalette then call (SetPalette sink defaultPalette) else ret tt) ;;;
      ret tt.

(** [Decode(reader, img)].  Every turn of either loop takes bytes from the
    stream, so a budget of one more than the length of the stream is never
    used up (see [Decode_terminates]). *)
Definition Decode (r : list byte) (i : S) : Res unit :=
  Decode_fuel (Datatypes.S (length r)) (mkState r i).

(** The tags of the child headers [Decode] dispatches on, in stream order:
    a ghost run of the loop that keeps the tags and nothing else. *)
Fixpoint tags_seen (fuel : nat) (childrenSize numBytes : Z) (hasPalette : bool)
    (st : State) : list string :=
  if numBytes <? childrenSize then
    match fuel with
    | O => []
    | Datatypes.S fuel' =>
        match binary_Read 12 st with
        | Val (inr bs) _ =>
            string_of_list_byte (Id (decode_chunkHeader bs))
              :: match child fuel' numBytes hasPalette st with
                 | Val nh st' => tags_seen fuel' childrenSize (fst nh) (snd nh) st'
                 | _ => []
                 end
        | _ => []
        end
    end
  else [].

End Decoder.

Arguments Val {S A}.
Arguments Return {S A}.
Arguments Panic {S A}.
Arguments OutOfFuel {S A}.

(** The child tags [Decode] meets on a stream whose two headers are in
    order (none otherwise). *)
Definition chunks_encountered {S : Type} (sink : Image S) (r : list byte) (i : S)
    : list string :=
  let main := decode_chunkHeader (take 12 (drop 8 r)) in
  tags_seen sink (Datatypes.S (length r)) (ChildrenSize main) 0 false
    (mkState (drop 20 r) i).

(** *** Two sinks *)

(** A [*voxel.Paletted] as the sink. *)
Definition PalettedSink : Image Paletted.t :=
  mkImage Paletted.t
    Paletted.SetBounds
    (fun pal p => Some (Paletted.SetPalette pal p))
    Paletted.Set_.

(** A test double that records the calls it receives, in order. *)
Inductive Call : Type :=
  | CallSetBounds (b : Box.t)
  | CallSetPalette (pal : color.Palette)
  | CallSet (x y z : int) (idx : byte).

Definition Recorder : Image (list Call) :=
  mkImage (list Call)
    (fun b log => Some (log ++ [CallSetBounds b]))
    (fun pal log => Some (log ++ [CallSetPalette pal]))
    (fun x y z idx log => Some (log ++ [CallSet x y z idx])).

Definition is_SetPalette (c : Call) : bool :=
  match c with CallSetPalette _ => true | _ => false end.

(** *** Building streams (the layout of the format, for stating properties) *)

Definition le32 (n : Z) : list byte :=
  let u8 k := byte_of_N (Z.to_N ((n / 256 ^ k) mod 256)) in
  [u8 0; u8 1; u8 2; u8 3].

Definition file_header : list byte :=
  list_byte_of_string voxMagic ++ le32 voxVersion.

Definition chunk_header (tag : string) (dataSize childrenSize : Z) : list byte :=
  list_byte_of_string tag ++ le32 dataSize ++ le32 childrenSize.

Definition encode_RGBA (c : color.RGBA) : list byte :=
  [color.R c; color.G c; color.B c; color.A c].

Definition SIZE_chunk (x y z : Z) : list byte :=
  chunk_header sizeShunkID 12 0 ++ le32 x ++ le32 y ++ le32 z.

Definition RGBA_chunk (table : color.Palette) : list byte :=
  chunk_header paletteChunkID 1024 0 ++ flat_map encode_RGBA table.

Definition XYZI_chunk (voxels : list (byte * byte * byte * byte)) : list byte :=
  chunk_header voxelChunkID (4 + 4 * Z.of_nat (length voxels)) 0
    ++ le32 (Z.of_nat (length voxels))
    ++ flat_map (fun v => match v with (x, y, z, i) => [x; y; z; i] end) voxels.

(** What the voxel records of an [XYZI] chunk do to a sink, in file order. *)
Fixpoint set_voxels {S : Type} (sink : Image S) (voxels : list (byte * byte * byte * byte))
    (i : S) : option S :=
  match voxels with
  | [] => Some i
  | (x, y, z, idx) :: voxels' =>
      match Set_ sink (uint8 x) (uint8 y) (uint8 z) idx i with
      | Some i' => set_voxels sink voxels' i'
      | None => None
      end
  end.

(** A whole file: the two headers and the child chunks, the [MAIN] header
    declaring the children's total encoded size. *)
Definition vox_file (children : list (list byte)) : list byte :=
  file_header ++ chunk_header mainChunkID 0 (Z.of_nat (length (concat children)))
    ++ concat children.

End vox.

(** ** Sample objects used to exercise the definitions *)

(** An all-zero 2x2x2 image and one holding 1..8, with the identity
    transform, as [NewPaletted] lays them out. *)
Definition blank_222 : Paletted.t :=
  Paletted.mk (Box.mk ZP (Pt 2 2 2)) Paletted.noTransform []
    [x00; x00; x00; x00; x00; x00; x00; x00].

Definition counted_222 : Paletted.t :=
  Paletted.mk (Box.mk ZP (Pt 2 2 2)) Paletted.noTransform []
    [x01; x02; x03; x04; x05; x06; x07; x08].

(** A store with a destination at address 0 and a source at address 1. *)
Definition two_images : list Paletted.t := [blank_222; counted_222].

(** A transform that swaps the X and Y axes. *)
Definition swapXY (x y z : int) : int * int * int := (y, x, z).

(** A 2x2x1 image with the axis swap installed, as [SetBounds] makes it. *)
Definition swapped_image : option Paletted.t :=
  Paletted.SetBounds (Bx 0 0 0 2 2 1) (Paletted.mk Box.ZB swapXY [] []).

(** The two voxel records [(0,0,0,5)] and [(1,1,1,9)]. *)
Definition two_voxels : list (byte * byte * byte * byte) :=
  [(x00, x00, x00, x05); (x01, x01, x01, x09)].

(** What the round trip promises of the decoded image: bounds
    [Bx(0,0,0,2,2,2)], the supplied palette, index 5 at [(0,0,0)], index 9 at
    [(1,1,1)], and 0 in every other cell within the bounds. *)
Definition decoded_as_promised (table : color.Palette) (p : Paletted.t) : Prop :=
  Paletted.Bounds p = Bx 0 0 0 2 2 2
  /\ Paletted.Palette p = table
  /\ Paletted.Get 0 0 0 p = Some x05
  /\ Paletted.Get 1 1 1 p = Some x09
  /\ (forall x y z,
        Point_In (Pt x y z) (Bx 0 0 0 2 2 2) = true ->
        (x, y, z) <> (0, 0, 0) -> (x, y, z) <> (1, 1, 1) ->
        Paletted.Get x y z p = Some x00).

(** The image the round trip is to produce. *)
Definition decoded_222 (table : color.Palette) : Paletted.t :=
  Paletted.mk (Box.mk ZP (Pt 2 2 2)) Paletted.noTransform table
    [x05; x00; x00; x00; x00; x00; x00; x09].

(** A recording sink's log holding no [SetPalette] call. *)
Definition no_SetPalette (calls : list vox.Call) : Prop :=
  List.Forall (fun c => vox.is_SetPalette c = false) calls.

(** ** Well-formed images *)

(** A [Paletted] as [NewPaletted] makes it for extents [W], [H], [D]: bounds
    anchored at the origin, the identity transform, and one byte per cell. *)
Definition Paletted_wf (p : Paletted.t) (W H D : Z) : Prop :=
  Paletted.bounds p = Box.mk ZP (Pt W H D)
  /\ Paletted.Transformer p = Paletted.noTransform
  /\ 0 <= W /\ 0 <= H /\ 0 <= D
  /\ W * H * D < 2 ^ 63
  /\ Z.of_nat (length (Paletted.Data p)) = W * H * D.

(** The cell [(x, y, z)] lies within extents [W], [H], [D]. *)
Definition in_extents (W H D x y z : Z) : Prop :=
  0 <= x < W /\ 0 <= y < H /\ 0 <= z < D.

(** ** Replaying a log of sink calls *)

(** The call [c] made on a sink. *)
Definition apply_call {S : Type} (sink : vox.Image S) (c : vox.Call) (i : S) : option S :=
  match c with
  | vox.CallSetBounds b => vox.SetBounds sink b i
  | vox.CallSetPalette pal => vox.SetPalette sink pal i
  | vox.CallSet x y z idx => vox.Set_ sink x y z idx i
  end.

(** The calls of a log made on a sink one after the other; [None] if one of
    them panics. *)
Fixpoint replay {S : Type} (sink : vox.Image S) (calls : list vox.Call) (i : S) : option S :=
  match calls with
  | [] => Some i
  | c :: calls' =>
      match apply_call sink c i with
      | Some i' => replay sink calls' i'
      | None => None
      end
  end.

(** The [Set] call a voxel record stands for. *)
Definition voxel_call (v : byte * byte * byte * byte) : vox.Call :=
  match v with
  | (x, y, z, idx) => vox.CallSet (vox.uint8 x) (vox.uint8 y) (vox.uint8 z) idx
  end.

(** The four bytes of a voxel record. *)
Definition voxel_bytes (v : byte * byte * byte * byte) : list byte :=
  match v with (x, y, z, idx) => [x; y; z; idx] end.
(** * Properties *)

(** ** Wrap-around arithmetic *)

Lemma wrap_in_range z : GoInt.in_range (GoInt.wrap z).
Proof. unfold GoInt.in_range, GoInt.wrap. pose proof (Z.mod_pos_bound (z + 2 ^ 63) (2 ^ 64)). lia. Qed.

Lemma wrap_id z : GoInt.in_range z -> GoInt.wrap z = z.
Proof. unfold GoInt.in_range, GoInt.wrap. intros H. rewrite Z.mod_small; lia. Qed.

Lemma wrap_eqm z : GoInt.wrap z mod 2 ^ 64 = z mod 2 ^ 64.
Proof.
  unfold GoInt.wrap.
  rewrite Zminus_mod, Z.mod_mod by lia.
  rewrite <- Zminus_mod. f_equal. lia.
Qed.

Lemma wrap_congr a b : a mod 2 ^ 64 = b mod 2 ^ 64 -> GoInt.wrap a = GoInt.wrap b.
Proof.
  intros H. unfold GoInt.wrap.
  rewrite (Zplus_mod a), (Zplus_mod b), H. reflexivity.
Qed.

Lemma wrap_add_l a b : GoInt.wrap (GoInt.wrap a + b) = GoInt.wrap (a + b).
Proof.
  apply wrap_congr. rewrite Zplus_mod, wrap_eqm, <- Zplus_mod. reflexivity.
Qed.


(** ** Properties of the geometry *)

Lemma ite_max (a b : Z) : (if a <? b then b else a) = Z.max a b.
Proof. destruct (Z.ltb_spec a b); lia. Qed.

Lemma ite_min (a b : Z) : (if a >? b then b else a) = Z.min a b.
Proof. destruct (Z.gtb_spec a b); lia. Qed.

(** The clamped box of [Intersect], before the test for an inverted axis. *)
Lemma Intersect_eq (b s : Box.t) :
  Box.Intersect b s =
    let minx := Z.max (Point.X (Box.Min b)) (Point.X (Box.Min s)) in
    let miny := Z.max (Point.Y (Box.Min b)) (Point.Y (Box.Min s)) in
    let minz := Z.max (Point.Z (Box.Min b)) (Point.Z (Box.Min s)) in
    let maxx := Z.min (Point.X (Box.Max b)) (Point.X (Box.Max s)) in
    let maxy := Z.min (Point.Y (Box.Max b)) (Point.Y (Box.Max s)) in
    let maxz := Z.min (Point.Z (Box.Max b)) (Point.Z (Box.Max s)) in
    if (minx >? maxx) || (miny >? maxy) || (minz >? maxz)
    then Box.ZB
    else Box.mk (Point.mk minx miny minz) (Point.mk maxx maxy maxz).
Proof. unfold Box.Intersect. rewrite !ite_max, !ite_min. reflexivity. Qed.

Ltac bool_to_Z :=
  rewrite ?negb_true_iff, ?negb_false_iff, ?andb_true_iff, ?andb_false_iff,
    ?orb_true_iff, ?orb_false_iff, ?Z.geb_le, ?Z.leb_le, ?Z.ltb_lt, ?Z.gtb_gt,
    ?Z.gtb_ltb, ?Z.geb_leb, ?Z.ltb_ge, ?Z.leb_gt in *.

(** The intersection lies within both operands, whether or not it is empty. *)
Lemma Intersect_In_both (b s : Box.t) :
  Box.In (Box.Intersect b s) b = true /\ Box.In (Box.Intersect b s) s = true.
Proof.
  rewrite Intersect_eq; cbv zeta.
  destruct b as [[bx0 by0 bz0] [bx1 by1 bz1]], s as [[sx0 sy0 sz0] [sx1 sy1 sz1]].
  cbn [Box.Min Box.Max Point.X Point.Y Point.Z].
  match goal with |- context [if ?c then Box.ZB else _] => destruct c eqn:Hc end.
  - split; reflexivity.
  - unfold Box.In.
    match goal with |- context [Box.Empty ?x] => destruct (Box.Empty x) eqn:He end;
      [split; reflexivity |].
    cbn [Box.Min Box.Max Point.X Point.Y Point.Z].
    bool_to_Z. lia.
Qed.

(** [Empty] of an intersection is exactly the failure of [Overlaps]. *)
Lemma Intersect_Empty_Overlaps (b s : Box.t) :
  Box.Empty (Box.Intersect b s) = negb (Box.Overlaps b s).
Proof.
  rewrite Intersect_eq; cbv zeta.
  destruct b as [[bx0 by0 bz0] [bx1 by1 bz1]], s as [[sx0 sy0 sz0] [sx1 sy1 sz1]].
  unfold Box.Overlaps, Box.Empty.
  cbn [Box.Min Box.Max Point.X Point.Y Point.Z].
  match goal with |- context [if ?c then Box.ZB else _] => destruct c eqn:Hc end;
    cbn [Box.Min Box.Max Box.ZB ZP Point.X Point.Y Point.Z];
    apply Bool.eq_iff_eq_true; bool_to_Z; lia.
Qed.

(** C8: for all boxes [b] and [s] whose intersection is non-empty,
    [b.Intersect(s).In(b)] and [b.Intersect(s).In(s)] both hold: the
    intersection is a sub-box of both operands. *)
Theorem Intersect_In_operands (b s : Box.t) :
  Box.Empty (Box.Intersect b s) = false ->
  Box.In (Box.Intersect b s) b = true /\ Box.In (Box.Intersect b s) s = true.
Proof. intros _. apply Intersect_In_both. Qed.

Lemma Intersect_In_operands_witness :
  Box.Empty (Box.Intersect (Bx 0 0 0 4 4 4) (Bx 2 1 3 9 9 9)) = false
  /\ Box.In (Box.Intersect (Bx 0 0 0 4 4 4) (Bx 2 1 3 9 9 9)) (Bx 0 0 0 4 4 4) = true
  /\ Box.In (Box.Intersect (Bx 0 0 0 4 4 4) (Bx 2 1 3 9 9 9)) (Bx 2 1 3 9 9 9) = true.
Proof.
  split; [reflexivity |].
  apply (Intersect_In_operands (Bx 0 0 0 4 4 4) (Bx 2 1 3 9 9 9)). reflexivity.
Defined.

(** C9: for all six integer arguments the box returned by [Bx] is canonical:
    [Min.X <= Max.X], [Min.Y <= Max.Y] and [Min.Z <= Max.Z], in whichever
    order each coordinate pair is supplied. *)
Theorem Bx_canonical (x0 y0 z0 x1 y1 z1 : int) :
  Point.X (Box.Min (Bx x0 y0 z0 x1 y1 z1)) <= Point.X (Box.Max (Bx x0 y0 z0 x1 y1 z1))
  /\ Point.Y (Box.Min (Bx x0 y0 z0 x1 y1 z1)) <= Point.Y (Box.Max (Bx x0 y0 z0 x1 y1 z1))
  /\ Point.Z (Box.Min (Bx x0 y0 z0 x1 y1 z1)) <= Point.Z (Box.Max (Bx x0 y0 z0 x1 y1 z1)).
Proof.
  unfold Bx.
  destruct (x0 >? x1) eqn:Hx, (y0 >? y1) eqn:Hy, (z0 >? z1) eqn:Hz; simpl; lia.
Qed.

(** ** The walk of [Blit] *)

Section BlitFacts.

Context {W : Type}.

Lemma run_all_ext {A : Type} (f g : A -> W -> option W) (l : list A) (w : W) :
  (forall a w', In a l -> f a w' = g a w') ->
  run_all (map f l) w = run_all (map g l) w.
Proof.
  revert w. induction l as [|a l IH]; intros w Hfg; [reflexivity |].
  simpl. rewrite (Hfg a w) by (left; reflexivity).
  destruct (g a w); [|reflexivity].
  apply IH. intros a' w' Ha'. apply Hfg. right; exact Ha'.
Qed.

Lemma visit_all_app (op : Point.t -> Point.t -> W -> option W) l1 l2 (w : W) :
  visit_all op (l1 ++ l2) w =
    match visit_all op l1 w with Some w' => visit_all op l2 w' | None => None end.
Proof.
  revert w. induction l1 as [|[d s] l1 IH]; intros w; [reflexivity |].
  simpl. destruct (op d s w); [apply IH | reflexivity].
Qed.

Lemma visit_all_flat_map {A : Type} (op : Point.t -> Point.t -> W -> option W)
    (f : A -> list (Point.t * Point.t)) (l : list A) (w : W) :
  visit_all op (flat_map f l) w = run_all (map (fun a => visit_all op (f a)) l) w.
Proof.
  revert w. induction l as [|a l IH]; intros w; [reflexivity |].
  simpl. rewrite visit_all_app. destruct (visit_all op (f a) w); [apply IH | reflexivity].
Qed.

Lemma visit_all_map {A : Type} (op : Point.t -> Point.t -> W -> option W)
    (d s : A -> Point.t) (l : list A) (w : W) :
  visit_all op (map (fun a => (d a, s a)) l) w = run_all (map (fun a => op (d a) (s a)) l) w.
Proof.
  revert w. induction l as [|a l IH]; intros w; [reflexivity |].
  simpl. destruct (op (d a) (s a) w); [apply IH | reflexivity].
Qed.

(** A counted loop whose cursors stay within the 64-bit range runs its body
    on [i, i+1, ...] and [s, s+1, ...]. *)
Lemma for_lt_run (n : nat) (hi : int) (body : int -> int -> W -> option W)
    (i s : int) (w : W) :
  hi = i + Z.of_nat n ->
  GoInt.in_range i -> hi < 2 ^ 63 ->
  GoInt.in_range s -> s + Z.of_nat n <= 2 ^ 63 ->
  for_lt n hi body i s w =
    run_all (map (fun k => body (i + Z.of_nat k) (s + Z.of_nat k)) (seq 0 n)) w.
Proof.
  revert i s w. induction n as [|n IH]; intros i s w Hhi Hi Hmax Hs Hsn; [reflexivity |].
  cbn [for_lt seq map run_all].
  destruct (Z.ltb_spec i hi) as [_|Hge]; [|lia].
  rewrite !Z.add_0_r.
  destruct (body i s w) as [w'|]; [|reflexivity].
  unfold GoInt.in_range in *.
  assert (Ei : GoInt.incr i = i + 1).
  { unfold GoInt.incr, GoInt.add. apply wrap_id. unfold GoInt.in_range. lia. }
  destruct n as [|n'].
  { reflexivity. }
  assert (Es : GoInt.incr s = s + 1).
  { unfold GoInt.incr, GoInt.add. apply wrap_id. unfold GoInt.in_range. lia. }
  rewrite Ei, Es.
  rewrite IH by lia.
  rewrite <- seq_shift, map_map.
  apply run_all_ext. intros k w'' _.
  f_equal; lia.
Qed.

(** A loop whose body changes nothing changes nothing. *)
Lemma for_lt_skip (n : nat) (hi : int) (body : int -> int -> W -> option W)
    (i s : int) (w : W) :
  (forall i' s' w', body i' s' w' = Some w') ->
  for_lt n hi body i s w = Some w.
Proof.
  intros Hbody. revert i s. induction n as [|n IH]; intros i s; [reflexivity |].
  simpl. destruct (i <? hi); [|reflexivity].
  rewrite Hbody. apply IH.
Qed.

End BlitFacts.

(** ** [Paletted]: where [Set] writes and where [Get] reads *)

Lemma index_store_eq (data data' : list byte) (i : int) (v : byte) :
  Paletted.store data i v = Some data' -> Paletted.index data' i = Some v.
Proof.
  unfold Paletted.store, Paletted.index.
  destruct (Z.leb_spec 0 i), (Z.ltb_spec i (Z.of_nat (length data))); simpl; try discriminate.
  intros [= <-].
  destruct (Z.ltb_spec i 0); [lia |].
  apply list_lookup_insert_eq. lia.
Qed.

Lemma index_store_ne (data data' : list byte) (i j : int) (v : byte) :
  Paletted.store data i v = Some data' -> j <> i ->
  Paletted.index data' j = Paletted.index data j.
Proof.
  unfold Paletted.store, Paletted.index.
  destruct (Z.leb_spec 0 i), (Z.ltb_spec i (Z.of_nat (length data))); simpl; try discriminate.
  intros [= <-] Hne.
  destruct (Z.ltb_spec j 0); [reflexivity |].
  apply list_lookup_insert_ne. lia.
Qed.

Lemma length_store (data data' : list byte) (i : int) (v : byte) :
  Paletted.store data i v = Some data' -> length data' = length data.
Proof.
  unfold Paletted.store.
  destruct ((0 <=? i) && (i <? Z.of_nat (length data))); [|discriminate].
  intros [= <-]. apply length_insert.
Qed.

(** C3 (as the code has it): [Set(x,y,z,i)] applies the image's
    [Transformer] and writes [i] at [Offset(T(x,y,z))], leaving every other
    cell, the bounds, the palette and the transform as they were; [Get]
    applies no transform: [Get(x,y,z)] reads the cell at [Offset(x,y,z)], so
    the value [Set] wrote at [(x,y,z)] is read back by [Get] at
    [T(x,y,z)]. *)
Theorem Set_transforms_Get_reads_raw (p p' : Paletted.t) (x y z : int) (i : byte) :
  Paletted.Set_ x y z i p = Some p' ->
  let t := Paletted.Transformer p x y z in
  let off := Paletted.Offset p (fst (fst t)) (snd (fst t)) (snd t) in
  Paletted.index (Paletted.Data p') off = Some i
  /\ (forall j, j <> off ->
        Paletted.index (Paletted.Data p') j = Paletted.index (Paletted.Data p) j)
  /\ length (Paletted.Data p') = length (Paletted.Data p)
  /\ Paletted.bounds p' = Paletted.bounds p
  /\ Paletted.Palette p' = Paletted.Palette p
  /\ Paletted.Transformer p' = Paletted.Transformer p
  /\ Paletted.Get (fst (fst t)) (snd (fst t)) (snd t) p' = Some i
  /\ (forall gx gy gz q,
        Paletted.Get gx gy gz q = Paletted.index (Paletted.Data q) (Paletted.Offset q gx gy gz)).
Proof.
  intros HSet t off. subst off t.
  unfold Paletted.Set_ in HSet.
  destruct (Paletted.Transformer p x y z) as [[tx ty] tz]. cbn [fst snd].
  destruct (Paletted.store (Paletted.Data p) (Paletted.Offset p tx ty tz) i)
    as [data|] eqn:Hst; [|discriminate].
  injection HSet as <-. cbn [Paletted.Data Paletted.bounds Paletted.Palette Paletted.Transformer].
  repeat split.
  - eapply index_store_eq; eassumption.
  - intros j Hj. eapply index_store_ne; eassumption.
  - eapply length_store; eassumption.
  - unfold Paletted.Get. cbn [Paletted.Data].
    change (Paletted.Offset (Paletted.mk (Paletted.bounds p) (Paletted.Transformer p)
              (Paletted.Palette p) data) tx ty tz)
      with (Paletted.Offset p tx ty tz).
    eapply index_store_eq; eassumption.
Qed.

Lemma Set_transforms_Get_reads_raw_witness :
  exists p p',
    swapped_image = Some p
    /\ Paletted.Set_ 1 0 0 x07 p = Some p'
    /\ Paletted.Get 0 1 0 p' = Some x07
    /\ Paletted.index (Paletted.Data p') 2 = Some x07.
Proof.
  eexists. eexists.
  split; [reflexivity |].
  assert (HSet : Paletted.Set_ 1 0 0 x07
                   (Paletted.mk (Box.mk ZP (Pt 2 2 1)) swapXY [] [x00; x00; x00; x00])
                 = Some (Paletted.mk (Box.mk ZP (Pt 2 2 1)) swapXY [] [x00; x00; x07; x00]))
    by reflexivity.
  split; [exact HSet |].
  pose proof (Set_transforms_Get_reads_raw _ _ 1 0 0 x07 HSet) as H.
  cbv zeta in H. destruct H as (H1 & _ & _ & _ & _ & _ & H7 & _).
  split; [exact H7 | exact H1].
Defined.

(** C3 as the specification words it does not hold: with the axis swap
    installed, [Set(1,0,0,7)] writes at [Offset(T(1,0,0)) = Offset(0,1,0) = 2],
    while [Get(1,0,0)] reads the cell at [Offset(1,0,0) = 1], which still
    holds 0. *)
Lemma Get_applies_no_transform :
  exists p p',
    swapped_image = Some p
    /\ Paletted.Set_ 1 0 0 x07 p = Some p'
    /\ Paletted.Get 1 0 0 p' = Some x00
    /\ Paletted.Get 1 0 0 p' <>
         (let t := Paletted.Transformer p' 1 0 0 in
          Paletted.index (Paletted.Data p')
            (Paletted.Offset p' (fst (fst t)) (snd (fst t)) (snd t))).
Proof.
  eexists. eexists.
  split; [reflexivity |].
  split; [reflexivity |].
  split; [reflexivity |].
  discriminate.
Qed.

(** ** [Blit]: clipping *)

(** What [Intersect] returns always has [Min <= Max] on every axis. *)
Lemma Intersect_canonical (b s : Box.t) :
  Point.X (Box.Min (Box.Intersect b s)) <= Point.X (Box.Max (Box.Intersect b s))
  /\ Point.Y (Box.Min (Box.Intersect b s)) <= Point.Y (Box.Max (Box.Intersect b s))
  /\ Point.Z (Box.Min (Box.Intersect b s)) <= Point.Z (Box.Max (Box.Intersect b s)).
Proof.
  rewrite Intersect_eq; cbv zeta.
  match goal with |- context [if ?c then Box.ZB else _] => destruct c eqn:Hc end;
    cbn [Box.Min Box.Max Box.ZB ZP Point.X Point.Y Point.Z]; [lia |].
  bool_to_Z. lia.
Qed.

(** A non-empty intersection is the clamped box itself. *)
Lemma Intersect_nonempty (b s : Box.t) :
  Box.Empty (Box.Intersect b s) = false ->
  Box.Intersect b s =
    Box.mk
      (Point.mk (Z.max (Point.X (Box.Min b)) (Point.X (Box.Min s)))
                (Z.max (Point.Y (Box.Min b)) (Point.Y (Box.Min s)))
                (Z.max (Point.Z (Box.Min b)) (Point.Z (Box.Min s))))
      (Point.mk (Z.min (Point.X (Box.Max b)) (Point.X (Box.Max s)))
                (Z.min (Point.Y (Box.Max b)) (Point.Y (Box.Max s)))
                (Z.min (Point.Z (Box.Max b)) (Point.Z (Box.Max s)))).
Proof.
  rewrite Intersect_eq; cbv zeta.
  match goal with |- context [if ?c then Box.ZB else _] => destruct c eqn:Hc end;
    [discriminate | reflexivity].
Qed.

(** Clipping a region given in range stays in range. *)
Lemma Intersect_in_range (b s : Box.t) :
  Box.in_range b -> Box.in_range (Box.Intersect b s).
Proof.
  pose proof (Intersect_canonical b s) as Hc. revert Hc.
  rewrite Intersect_eq; cbv zeta.
  unfold Box.in_range, Point.in_range, GoInt.in_range.
  match goal with |- context [if ?c then Box.ZB else _] => destruct c eqn:Hc end;
    cbn [Box.Min Box.Max Box.ZB ZP Point.X Point.Y Point.Z]; lia.
Qed.

Lemma wrap_sub_add (hi lo d : Z) :
  GoInt.add (GoInt.sub hi lo) d = GoInt.wrap (hi - lo + d).
Proof. unfold GoInt.add, GoInt.sub. apply wrap_add_l. Qed.

(** A footprint built from an empty clipped source is empty. *)
Lemma footprint_empty {W : Type} (src : Image W) (dp : Point.t) (sr : Box.t) (w : W) :
  Point.in_range dp ->
  Box.Empty (clip_sr src sr w) = true ->
  Box.Empty (footprint src dp sr w) = true.
Proof.
  intros (Hx & Hy & Hz) He. unfold footprint.
  pose proof (Intersect_canonical sr (Bounds src w)) as (Cx & Cy & Cz).
  fold (clip_sr src sr w) in Cx, Cy, Cz.
  unfold Box.Empty in *. unfold Point.Add, Box.Size.
  cbn [Box.Min Box.Max Point.X Point.Y Point.Z].
  rewrite !wrap_sub_add.
  bool_to_Z.
  destruct He as [[He|He]|He]; [left; left | left; right | right];
    (match goal with
     | |- GoInt.wrap (?a - ?b + ?c) <= _ => replace (a - b + c) with c by lia
     end); rewrite wrap_id by assumption; lia.
Qed.

Section BlitClip.

Context {W : Type}.

Lemma blit_loops_empty (op : Point.t -> Point.t -> W -> option W) (b sr : Box.t) (w : W) :
  Box.Empty b = true -> blit_loops op b sr w = Some w.
Proof.
  unfold Box.Empty, blit_loops, trip. bool_to_Z. intros He.
  destruct (Z.le_gt_cases (Point.Z (Box.Max b)) (Point.Z (Box.Min b))) as [Hz|Hz].
  { rewrite (Z2Nat.nonpos (_ - _)) by lia. reflexivity. }
  apply for_lt_skip. intros z sz w1.
  destruct (Z.le_gt_cases (Point.Y (Box.Max b)) (Point.Y (Box.Min b))) as [Hy|Hy].
  { rewrite (Z2Nat.nonpos (_ - _)) by lia. reflexivity. }
  apply for_lt_skip. intros y sy w2.
  rewrite (Z2Nat.nonpos (_ - _)) by lia. reflexivity.
Qed.

Lemma flat_map_all_nil {A B : Type} (f : A -> list B) (l : list A) :
  (forall a, f a = []) -> flat_map f l = [].
Proof. intros Hf. induction l as [|a l IH]; simpl; [|rewrite Hf, IH]; reflexivity. Qed.

Lemma Blit_cells_empty (b sr : Box.t) :
  Box.Empty b = true -> Blit_cells b sr = [].
Proof.
  unfold Box.Empty, Blit_cells, trip. bool_to_Z. intros He.
  destruct (Z.le_gt_cases (Point.Z (Box.Max b)) (Point.Z (Box.Min b))) as [Hz|Hz].
  { rewrite (Z2Nat.nonpos (Point.Z _ - _)) by lia. reflexivity. }
  apply flat_map_all_nil. intros k.
  destruct (Z.le_gt_cases (Point.Y (Box.Max b)) (Point.Y (Box.Min b))) as [Hy|Hy].
  { rewrite (Z2Nat.nonpos (Point.Y _ - _)) by lia. reflexivity. }
  apply flat_map_all_nil. intros j.
  rewrite (Z2Nat.nonpos (Point.X _ - _)) by lia. reflexivity.
Qed.

(** C5: if the clipped source region is empty, or the clipped destination
    region is empty -- in particular if the footprint [Box{dp, dp+size(sr)}]
    does not overlap [dst.Bounds()] -- then [Blit] returns normally with the
    store exactly as it was, whatever [dst] and [src] are: even for images
    whose [Set] and [Get] panic on every call, so neither is called.  The
    walk has no cell. *)
Theorem Blit_empty_clip_touches_nothing (dst src : Image W) (dp : Point.t) (sr : Box.t) (w : W) :
  Point.in_range dp ->
  Box.Empty (clip_sr src sr w) = true
  \/ Box.Empty (clip_dr dst src dp sr w) = true
  \/ Box.Overlaps (Bounds dst w) (footprint src dp sr w) = false ->
  Blit dst src dp sr w = Some w
  /\ Blit (mkImage W (Bounds dst) (fun _ _ _ _ _ => None) (fun _ _ _ _ => None))
          (mkImage W (Bounds src) (fun _ _ _ _ _ => None) (fun _ _ _ _ => None))
          dp sr w = Some w
  /\ Blit_cells (clip_dr dst src dp sr w) (clip_sr src sr w) = [].
Proof.
  intros Hdp H.
  assert (He : Box.Empty (clip_dr dst src dp sr w) = true).
  { unfold clip_dr in *. rewrite Intersect_Empty_Overlaps in *.
    destruct H as [H|[H|H]].
    - apply footprint_empty with (dp := dp) in H; [|exact Hdp].
      unfold Box.Overlaps. rewrite H. simpl. rewrite andb_false_r. reflexivity.
    - exact H.
    - rewrite H. reflexivity. }
  split; [|split].
  - unfold Blit. apply blit_loops_empty. exact He.
  - unfold Blit. apply blit_loops_empty. exact He.
  - apply Blit_cells_empty. exact He.
Qed.

End BlitClip.

(** ** [Blit]: the walk over a non-empty iteration box *)

(** One axis of the clipping: the iteration interval [lo, hi) is within the
    64-bit range and no longer than the clipped source interval
    [slo, shi]. *)
Lemma clip_axis (dlo dhi p slo shi : Z) :
  GoInt.in_range p -> GoInt.in_range slo -> GoInt.in_range shi -> slo <= shi ->
  0 < Z.min dhi (GoInt.wrap (shi - slo + p)) - Z.max dlo p ->
  GoInt.in_range (Z.max dlo p)
  /\ Z.min dhi (GoInt.wrap (shi - slo + p)) < 2 ^ 63
  /\ slo + (Z.min dhi (GoInt.wrap (shi - slo + p)) - Z.max dlo p) <= shi.
Proof.
  unfold GoInt.in_range. intros Hp Hlo Hhi Hle.
  pose proof (wrap_in_range (shi - slo + p)) as Hw. revert Hw.
  unfold GoInt.in_range, GoInt.wrap.
  change (2 ^ 63) with 9223372036854775808 in *.
  change (2 ^ 64) with 18446744073709551616.
  intros Hw Hlt.
  Z.div_mod_to_equations. lia.
Qed.

Definition axis_ok (lo hi slo : Z) : Prop :=
  GoInt.in_range lo /\ lo <= hi /\ hi < 2 ^ 63
  /\ GoInt.in_range slo /\ slo + (hi - lo) <= 2 ^ 63.

Lemma StronglySorted_seq (a n : nat) : StronglySorted lt (seq a n).
Proof.
  revert a. induction n as [|n IH]; intros a; simpl; constructor; [apply IH |].
  apply List.Forall_forall. intros x Hx. apply in_seq in Hx. lia.
Qed.

Lemma StronglySorted_app_intro {A : Type} (R : A -> A -> Prop) (l1 l2 : list A) :
  StronglySorted R l1 -> StronglySorted R l2 ->
  (forall x y, In x l1 -> In y l2 -> R x y) ->
  StronglySorted R (l1 ++ l2).
Proof.
  intros H1 H2 H12. induction H1 as [|a l1 Hs IH Hall]; simpl; [exact H2 |].
  constructor.
  - apply IH. intros x y Hx Hy. apply H12; [right; exact Hx | exact Hy].
  - apply List.Forall_forall. intros y Hy. apply in_app_or in Hy. destruct Hy as [Hy|Hy].
    + rewrite List.Forall_forall in Hall. apply Hall. exact Hy.
    + apply H12; [left; reflexivity | exact Hy].
Qed.

Lemma StronglySorted_flat_map {A B : Type} (Q : A -> A -> Prop) (R : B -> B -> Prop)
    (f : A -> list B) (l : list A) :
  StronglySorted Q l ->
  (forall a, In a l -> StronglySorted R (f a)) ->
  (forall a a' x y, Q a a' -> In x (f a) -> In y (f a') -> R x y) ->
  StronglySorted R (flat_map f l).
Proof.
  intros HQ Hin Hout. induction HQ as [|a l Hs IH Hall]; simpl; [constructor |].
  apply StronglySorted_app_intro.
  - apply Hin. left; reflexivity.
  - apply IH. intros a' Ha'. apply Hin. right; exact Ha'.
  - intros x y Hx Hy. apply in_flat_map in Hy. destruct Hy as (a' & Ha' & Hy).
    rewrite List.Forall_forall in Hall. eapply Hout; [apply Hall; exact Ha' | exact Hx | exact Hy].
Qed.

Lemma StronglySorted_map_intro {A B : Type} (Q : A -> A -> Prop) (R : B -> B -> Prop)
    (g : A -> B) (l : list A) :
  StronglySorted Q l -> (forall a a', Q a a' -> R (g a) (g a')) ->
  StronglySorted R (map g l).
Proof.
  intros HQ Hg. induction HQ as [|a l Hs IH Hall]; simpl; constructor; [exact IH |].
  apply List.Forall_forall. intros y Hy. apply in_map_iff in Hy. destruct Hy as (a' & <- & Ha').
  rewrite List.Forall_forall in Hall. apply Hg, Hall, Ha'.
Qed.

Lemma StronglySorted_irrefl_NoDup {A : Type} (R : A -> A -> Prop) (l : list A) :
  (forall x, ~ R x x) -> StronglySorted R l -> List.NoDup l.
Proof.
  intros Hirr Hs. induction Hs as [|a l Hs IH Hall]; constructor; [|exact IH].
  intros Ha. rewrite List.Forall_forall in Hall. exact (Hirr a (Hall a Ha)).
Qed.

Lemma length_flat_map_const {A B : Type} (f : A -> list B) (l : list A) (c : nat) :
  (forall a, length (f a) = c) -> length (flat_map f l) = (length l * c)%nat.
Proof.
  intros Hf. induction l as [|a l IH]; simpl; [reflexivity |].
  rewrite length_app, Hf, IH. reflexivity.
Qed.

Lemma zyx_lt_irrefl (p : Point.t) : ~ zyx_lt p p.
Proof. unfold zyx_lt. lia. Qed.

Section BlitWalk.

Context {W : Type}.

(** The nested loops perform the action on the cells of [Blit_cells], in
    that order. *)
Lemma blit_loops_visits (op : Point.t -> Point.t -> W -> option W) (b sr : Box.t) (w : W) :
  axis_ok (Point.X (Box.Min b)) (Point.X (Box.Max b)) (Point.X (Box.Min sr)) ->
  axis_ok (Point.Y (Box.Min b)) (Point.Y (Box.Max b)) (Point.Y (Box.Min sr)) ->
  axis_ok (Point.Z (Box.Min b)) (Point.Z (Box.Max b)) (Point.Z (Box.Min sr)) ->
  blit_loops op b sr w = visit_all op (Blit_cells b sr) w.
Proof.
  unfold axis_ok, trip. intros (Xi & Xle & Xhi & Xs & Xsn) (Yi & Yle & Yhi & Ys & Ysn)
    (Zi & Zle & Zhi & Zs & Zsn).
  unfold blit_loops, Blit_cells, trip.
  rewrite visit_all_flat_map.
  rewrite for_lt_run by (try assumption; lia).
  apply run_all_ext. intros k w1 _.
  rewrite visit_all_flat_map.
  rewrite for_lt_run by (try assumption; lia).
  apply run_all_ext. intros j w2 _.
  rewrite for_lt_run by (try assumption; lia).
  symmetry.
  apply (visit_all_map op
           (fun i => Pt (Point.X (Box.Min b) + Z.of_nat i) (Point.Y (Box.Min b) + Z.of_nat j)
                        (Point.Z (Box.Min b) + Z.of_nat k))
           (fun i => Pt (Point.X (Box.Min sr) + Z.of_nat i) (Point.Y (Box.Min sr) + Z.of_nat j)
                        (Point.Z (Box.Min sr) + Z.of_nat k))).
Qed.

End BlitWalk.

(** The cells of the walk: how many, in which order, and which. *)
Lemma Blit_cells_length (b sr : Box.t) :
  length (Blit_cells b sr) =
    (trip (Point.Z (Box.Min b)) (Point.Z (Box.Max b))
     * (trip (Point.Y (Box.Min b)) (Point.Y (Box.Max b))
        * trip (Point.X (Box.Min b)) (Point.X (Box.Max b))))%nat.
Proof.
  unfold Blit_cells.
  rewrite length_flat_map_const with (c := (trip (Point.Y (Box.Min b)) (Point.Y (Box.Max b))
        * trip (Point.X (Box.Min b)) (Point.X (Box.Max b)))%nat).
  - rewrite length_seq. reflexivity.
  - intros k.
    rewrite length_flat_map_const with (c := trip (Point.X (Box.Min b)) (Point.X (Box.Max b))).
    + rewrite length_seq. reflexivity.
    + intros j. rewrite length_map, length_seq. reflexivity.
Qed.

Lemma Blit_cells_sorted (b sr : Box.t) :
  StronglySorted zyx_lt (map fst (Blit_cells b sr)).
Proof.
  apply StronglySorted_map_intro with (Q := fun c c' => zyx_lt (fst c) (fst c'));
    [|intros; assumption].
  unfold Blit_cells.
  apply StronglySorted_flat_map with (Q := lt).
  - apply StronglySorted_seq.
  - intros k _. apply StronglySorted_flat_map with (Q := lt).
    + apply StronglySorted_seq.
    + intros j _. apply StronglySorted_map_intro with (Q := lt); [apply StronglySorted_seq |].
      intros i i' Hi. unfold zyx_lt. cbn. lia.
    + intros j j' x y Hj Hx Hy.
      apply in_map_iff in Hx, Hy. destruct Hx as (i & <- & _), Hy as (i' & <- & _).
      unfold zyx_lt. cbn. lia.
  - intros k k' x y Hk Hx Hy.
    apply in_flat_map in Hx, Hy. destruct Hx as (j & _ & Hx), Hy as (j' & _ & Hy).
    apply in_map_iff in Hx, Hy. destruct Hx as (i & <- & _), Hy as (i' & <- & _).
    unfold zyx_lt. cbn. lia.
Qed.

Lemma Blit_cells_In (b sr : Box.t) (d s : Point.t) :
  In (d, s) (Blit_cells b sr) <->
    Point_In d b = true
    /\ s = Pt (Point.X (Box.Min sr) + (Point.X d - Point.X (Box.Min b)))
              (Point.Y (Box.Min sr) + (Point.Y d - Point.Y (Box.Min b)))
              (Point.Z (Box.Min sr) + (Point.Z d - Point.Z (Box.Min b))).
Proof.
  unfold Blit_cells, Point_In, trip. split.
  - intros H. apply in_flat_map in H. destruct H as (k & Hk & H).
    apply in_flat_map in H. destruct H as (j & Hj & H).
    apply in_map_iff in H. destruct H as (i & [= <- <-] & Hi).
    apply in_seq in Hk, Hj, Hi. cbn. bool_to_Z.
    split; [lia |]. unfold Pt. f_equal; lia.
  - bool_to_Z. intros (Hin & ->). destruct d as [dx dy dz]. cbn in *.
    apply in_flat_map. exists (Z.to_nat (dz - Point.Z (Box.Min b))).
    split; [apply in_seq; lia |].
    apply in_flat_map. exists (Z.to_nat (dy - Point.Y (Box.Min b))).
    split; [apply in_seq; lia |].
    apply in_map_iff. exists (Z.to_nat (dx - Point.X (Box.Min b))).
    split; [|apply in_seq; lia].
    unfold Pt. rewrite !Z2Nat.id by lia. f_equal; f_equal; lia.
Qed.

Section BlitTheorems.

Context {W : Type}.

(** With [dp] and [sr] in the 64-bit range and a non-empty iteration box, all
    three axes of the walk are free of wrap-around, and the walk is no longer
    than the clipped source region on any axis. *)
Lemma clip_dr_axes (dst src : Image W) (dp : Point.t) (sr : Box.t) (w : W) :
  Point.in_range dp -> Box.in_range sr ->
  0 < Point.X (Box.Max (clip_dr dst src dp sr w)) - Point.X (Box.Min (clip_dr dst src dp sr w)) ->
  0 < Point.Y (Box.Max (clip_dr dst src dp sr w)) - Point.Y (Box.Min (clip_dr dst src dp sr w)) ->
  0 < Point.Z (Box.Max (clip_dr dst src dp sr w)) - Point.Z (Box.Min (clip_dr dst src dp sr w)) ->
  let b := clip_dr dst src dp sr w in
  let s := clip_sr src sr w in
  (axis_ok (Point.X (Box.Min b)) (Point.X (Box.Max b)) (Point.X (Box.Min s))
   /\ Point.X (Box.Min s) + (Point.X (Box.Max b) - Point.X (Box.Min b)) <= Point.X (Box.Max s))
  /\ (axis_ok (Point.Y (Box.Min b)) (Point.Y (Box.Max b)) (Point.Y (Box.Min s))
      /\ Point.Y (Box.Min s) + (Point.Y (Box.Max b) - Point.Y (Box.Min b)) <= Point.Y (Box.Max s))
  /\ (axis_ok (Point.Z (Box.Min b)) (Point.Z (Box.Max b)) (Point.Z (Box.Min s))
      /\ Point.Z (Box.Min s) + (Point.Z (Box.Max b) - Point.Z (Box.Min b)) <= Point.Z (Box.Max s)).
Proof.
  intros (Px & Py & Pz) Hsr HX HY HZ b s.
  assert (Hne : Box.Empty b = false).
  { unfold Box.Empty. apply Bool.not_true_iff_false. bool_to_Z. subst b. lia. }
  pose proof (Intersect_in_range sr (Bounds src w) Hsr) as ((Sx0 & Sy0 & Sz0) & (Sx1 & Sy1 & Sz1)).
  pose proof (Intersect_canonical sr (Bounds src w)) as (Cx & Cy & Cz).
  fold (clip_sr src sr w) in Sx0, Sy0, Sz0, Sx1, Sy1, Sz1, Cx, Cy, Cz. fold s in Sx0, Sy0, Sz0, Sx1, Sy1, Sz1, Cx, Cy, Cz.
  subst b. unfold clip_dr in *.
  rewrite (Intersect_nonempty _ _ Hne) in *.
  unfold footprint in *. fold s in HX, HY, HZ |- *.
  cbn [Box.Min Box.Max Point.X Point.Y Point.Z Point.Add Box.Size] in *.
  rewrite !wrap_sub_add in *.
  unfold axis_ok.
  pose proof (clip_axis _ _ _ _ _ Px Sx0 Sx1 Cx HX) as (? & ? & ?).
  pose proof (clip_axis _ _ _ _ _ Py Sy0 Sy1 Cy HY) as (? & ? & ?).
  pose proof (clip_axis _ _ _ _ _ Pz Sz0 Sz1 Cz HZ) as (? & ? & ?).
  unfold GoInt.in_range in *.
  repeat split; try assumption; lia.
Qed.

(** C4: when the clipped iteration box [b] has positive extents N x M x K,
    [Blit] performs [dst.Set(d, src.Get(s))] on the cells of
    [Blit_cells], one after the other (stopping only if a method panics):
    there are exactly N*M*K of them, their destinations are pairwise distinct
    and in ascending Z-major, then Y, then X order, they are exactly the
    cells of [b], the first source cell is [sr.Min] of the clipped source
    region, and every source cell is displaced from it as its destination is
    from [b.Min], staying inside the clipped source region. *)
Theorem Blit_visits_each_cell_once_in_order
    (dst src : Image W) (dp : Point.t) (sr : Box.t) (w : W) :
  Point.in_range dp -> Box.in_range sr ->
  0 < Point.X (Box.Max (clip_dr dst src dp sr w)) - Point.X (Box.Min (clip_dr dst src dp sr w)) ->
  0 < Point.Y (Box.Max (clip_dr dst src dp sr w)) - Point.Y (Box.Min (clip_dr dst src dp sr w)) ->
  0 < Point.Z (Box.Max (clip_dr dst src dp sr w)) - Point.Z (Box.Min (clip_dr dst src dp sr w)) ->
  let b := clip_dr dst src dp sr w in
  let s := clip_sr src sr w in
  let N := Point.X (Box.Max b) - Point.X (Box.Min b) in
  let M := Point.Y (Box.Max b) - Point.Y (Box.Min b) in
  let K := Point.Z (Box.Max b) - Point.Z (Box.Min b) in
  Blit dst src dp sr w = visit_all (copy_voxel dst src) (Blit_cells b s) w
  /\ Z.of_nat (length (Blit_cells b s)) = N * M * K
  /\ List.NoDup (map fst (Blit_cells b s))
  /\ StronglySorted zyx_lt (map fst (Blit_cells b s))
  /\ (forall d, In d (map fst (Blit_cells b s)) <-> Point_In d b = true)
  /\ hd_error (Blit_cells b s) = Some (Box.Min b, Box.Min s)
  /\ (forall d c, In (d, c) (Blit_cells b s) ->
        c = Pt (Point.X (Box.Min s) + (Point.X d - Point.X (Box.Min b)))
               (Point.Y (Box.Min s) + (Point.Y d - Point.Y (Box.Min b)))
               (Point.Z (Box.Min s) + (Point.Z d - Point.Z (Box.Min b)))
        /\ Point_In c s = true).
Proof.
  intros Hdp Hsr HX HY HZ b s N M K.
  destruct (clip_dr_axes dst src dp sr w Hdp Hsr HX HY HZ)
    as ((AX & SX) & (AY & SY) & (AZ & SZ)).
  fold b in AX, AY, AZ, SX, SY, SZ, HX, HY, HZ. fold s in AX, AY, AZ, SX, SY, SZ.
  split; [|split; [|split; [|split; [|split; [|split]]]]].
  - unfold Blit. fold s. unfold clip_dr, footprint in b. fold s in b. fold b.
    apply blit_loops_visits; assumption.
  - rewrite Blit_cells_length. unfold trip. subst N M K.
    rewrite !Nat2Z.inj_mul, !Z2Nat.id by lia. ring.
  - apply StronglySorted_irrefl_NoDup with (R := zyx_lt);
      [apply zyx_lt_irrefl | apply Blit_cells_sorted].
  - apply Blit_cells_sorted.
  - intros d. rewrite in_map_iff. split.
    + intros ([d' c] & <- & Hin). apply Blit_cells_In in Hin. apply Hin.
    + intros Hin. eexists (d, _). split; [reflexivity |].
      apply Blit_cells_In. split; [exact Hin | reflexivity].
  - unfold Blit_cells, trip.
    destruct (Z.to_nat (Point.Z (Box.Max b) - Point.Z (Box.Min b))) as [|k] eqn:Ek; [lia |].
    destruct (Z.to_nat (Point.Y (Box.Max b) - Point.Y (Box.Min b))) as [|j] eqn:Ej; [lia |].
    destruct (Z.to_nat (Point.X (Box.Max b) - Point.X (Box.Min b))) as [|i] eqn:Ei; [lia |].
    cbn. rewrite !Z.add_0_r. destruct (Box.Min b), (Box.Min s). reflexivity.
  - intros d c Hin. apply Blit_cells_In in Hin. destruct Hin as (Hin & ->).
    split; [reflexivity |].
    unfold Point_In in *. cbn. bool_to_Z. lia.
Qed.

End BlitTheorems.

Lemma Blit_visits_each_cell_once_in_order_witness :
  Blit (PalettedAt 0) (PalettedAt 1) (Pt 1 0 0) (Bx 0 0 0 2 2 2) two_images
    = visit_all (copy_voxel (PalettedAt 0) (PalettedAt 1))
        [(Pt 1 0 0, Pt 0 0 0); (Pt 1 1 0, Pt 0 1 0); (Pt 1 0 1, Pt 0 0 1); (Pt 1 1 1, Pt 0 1 1)]
        two_images
  /\ Blit (PalettedAt 0) (PalettedAt 1) (Pt 1 0 0) (Bx 0 0 0 2 2 2) two_images
     = Some [Paletted.mk (Box.mk ZP (Pt 2 2 2)) Paletted.noTransform []
               [x00; x01; x00; x03; x00; x05; x00; x07];
             counted_222].
Proof.
  split; [|reflexivity].
  refine (proj1 (Blit_visits_each_cell_once_in_order
                   (PalettedAt 0) (PalettedAt 1) (Pt 1 0 0) (Bx 0 0 0 2 2 2) two_images
                   _ _ _ _ _)).
  - unfold Point.in_range, GoInt.in_range; cbn; lia.
  - unfold Box.in_range, Point.in_range, GoInt.in_range; cbn; lia.
  - cbv; reflexivity.
  - cbv; reflexivity.
  - cbv; reflexivity.
Defined.

Lemma Blit_empty_clip_touches_nothing_witness :
  Box.Overlaps (Bounds (PalettedAt 0) two_images)
    (footprint (PalettedAt 1) (Pt 10 10 10) (Bx 0 0 0 2 2 2) two_images) = false
  /\ Blit (PalettedAt 0) (PalettedAt 1) (Pt 10 10 10) (Bx 0 0 0 2 2 2) two_images
     = Some two_images.
Proof.
  split; [reflexivity |].
  refine (proj1 (Blit_empty_clip_touches_nothing
                   (PalettedAt 0) (PalettedAt 1) (Pt 10 10 10) (Bx 0 0 0 2 2 2) two_images
                   _ _)).
  - unfold Point.in_range, GoInt.in_range; cbn; lia.
  - right; right; reflexivity.
Defined.

(** ** The decoder: reading, and termination *)

Section DecoderFacts.

Context {S : Type} (sink : vox.Image S).

Lemma binary_Read_or_enough (n : nat) (e : vox.Error) (st : vox.State (S := S)) :
  (n <= length (vox.reader st))%nat ->
  vox.binary_Read_or n e st =
    vox.Val (take n (vox.reader st)) (vox.mkState (drop n (vox.reader st)) (vox.img st)).
Proof.
  intros Hn. unfold vox.binary_Read_or, vox.bind, vox.binary_Read.
  destruct (Nat.leb_spec n (length (vox.reader st))); [reflexivity | lia].
Qed.

Lemma binary_Read_or_short (n : nat) (e : vox.Error) (st : vox.State (S := S)) :
  (length (vox.reader st) < n)%nat ->
  vox.binary_Read_or n e st =
    vox.Return
      (vox.with_ e (match vox.reader st with [] => vox.EOF | _ => vox.ErrUnexpectedEOF end))
      (vox.mkState [] (vox.img st)).
Proof.
  intros Hn. unfold vox.binary_Read_or, vox.bind, vox.binary_Read.
  destruct (Nat.leb_spec n (length (vox.reader st))); [lia | reflexivity].
Qed.

(** Reading a value off the front of the stream. *)
Lemma binary_Read_or_app (n : nat) (e : vox.Error) (bs rest : list byte) (i : S) :
  length bs = n ->
  vox.binary_Read_or n e (vox.mkState (bs ++ rest) i) = vox.Val bs (vox.mkState rest i).
Proof.
  intros <-. rewrite binary_Read_or_enough by (cbn; rewrite length_app; lia).
  cbn. rewrite take_app_length, drop_app_length. reflexivity.
Qed.

Lemma binary_Read_or_Val (n : nat) (e : vox.Error) (st st' : vox.State (S := S)) (bs : list byte) :
  vox.binary_Read_or n e st = vox.Val bs st' ->
  (n <= length (vox.reader st))%nat
  /\ bs = take n (vox.reader st)
  /\ st' = vox.mkState (drop n (vox.reader st)) (vox.img st).
Proof.
  destruct (Nat.le_gt_cases n (length (vox.reader st))) as [H|H].
  - rewrite binary_Read_or_enough by exact H. intros [= <- <-]. auto.
  - rewrite binary_Read_or_short by exact H. discriminate.
Qed.

(** A result that is not a used-up budget and, when the decoder goes on,
    leaves at most [n] bytes in the stream. *)
Definition within {A : Type} (n : nat) (res : vox.Res (S := S) A) : Prop :=
  match res with
  | vox.Val _ st' => (length (vox.reader st') <= n)%nat
  | vox.Return _ _ => True
  | vox.Panic => True
  | vox.OutOfFuel => False
  end.

Lemma within_mono {A : Type} (n n' : nat) (res : vox.Res A) :
  (n <= n')%nat -> within n res -> within n' res.
Proof. destruct res; cbn; auto; lia. Qed.

Lemma within_bind {A B : Type} (m : vox.M A) (k : A -> vox.M B) (st : vox.State) (n n' : nat) :
  within n (m st) ->
  (forall a st', m st = vox.Val a st' -> (length (vox.reader st') <= n)%nat ->
                 within n' (k a st')) ->
  within n' (vox.bind m k st).
Proof.
  unfold vox.bind. intros Hm Hk.
  destruct (m st) as [a st'| | |]; cbn in *; auto.
Qed.

Lemma bind_ext {A B : Type} (m m' : vox.M A) (k k' : A -> vox.M B) (st : vox.State (S := S)) :
  m st = m' st ->
  (forall a st', m st = vox.Val a st' -> k a st' = k' a st') ->
  vox.bind m k st = vox.bind m' k' st.
Proof.
  unfold vox.bind. intros <- Hk.
  destruct (m st) as [a st'| | |]; auto.
Qed.

Lemma binary_Read_or_within (n : nat) (e : vox.Error) (st : vox.State (S := S)) :
  within (length (vox.reader st) - n) (vox.binary_Read_or n e st).
Proof.
  destruct (Nat.le_gt_cases n (length (vox.reader st))) as [H|H].
  - rewrite binary_Read_or_enough by exact H. cbn. rewrite length_drop. lia.
  - rewrite binary_Read_or_short by exact H. exact I.
Qed.

Lemma call_within (f : S -> option S) (st : vox.State) :
  within (length (vox.reader st)) (vox.call f st).
Proof. unfold vox.call. destruct (f (vox.img st)); cbn; auto. Qed.

Lemma call_reader (f : S -> option S) (st st' : vox.State) (u : unit) :
  vox.call f st = vox.Val u st' -> vox.reader st' = vox.reader st.
Proof. unfold vox.call. destruct (f (vox.img st)); [|discriminate]. intros [= _ <-]. reflexivity. Qed.

Lemma read_palette_within (n : nat) (acc : color.Palette) (st : vox.State (S := S)) :
  within (length (vox.reader st)) (vox.read_palette n acc st).
Proof.
  revert acc st. induction n as [|n IH]; intros acc st; cbn [vox.read_palette].
  - cbn. lia.
  - eapply within_bind; [apply binary_Read_or_within |].
    intros bs st' _ Hle. eapply within_mono; [|apply IH]. lia.
Qed.

Lemma read_voxels_within (fuel : nat) (i nv : Z) (st : vox.State) :
  (length (vox.reader st) < fuel)%nat ->
  within (length (vox.reader st)) (vox.read_voxels sink fuel i nv st).
Proof.
  revert i st. induction fuel as [|fuel IH]; intros i st Hlen; [lia |].
  cbn [vox.read_voxels]. destruct (i <? nv); [|cbn; lia].
  destruct (Nat.le_gt_cases 4 (length (vox.reader st))) as [H4|H4].
  - unfold vox.bind at 1. rewrite binary_Read_or_enough by exact H4.
    eapply within_bind; [apply call_within |].
    intros u st' Hcall _. apply call_reader in Hcall. cbn in Hcall.
    eapply within_mono; [|apply IH]; rewrite Hcall, length_drop; lia.
  - unfold vox.bind at 1. rewrite binary_Read_or_short by exact H4. exact I.
Qed.

Lemma read_voxels_fuel (f1 f2 : nat) (i nv : Z) (st : vox.State) :
  (length (vox.reader st) < f1)%nat -> (length (vox.reader st) < f2)%nat ->
  vox.read_voxels sink f1 i nv st = vox.read_voxels sink f2 i nv st.
Proof.
  revert f2 i st. induction f1 as [|f1 IH]; intros f2 i st H1 H2; [lia |].
  destruct f2 as [|f2]; [lia |].
  cbn [vox.read_voxels]. destruct (i <? nv); [|reflexivity].
  apply bind_ext; [reflexivity |]. intros bs st1 Hread.
  apply bind_ext; [reflexivity |]. intros u st2 Hcall.
  apply call_reader in Hcall.
  destruct (Nat.le_gt_cases 4 (length (vox.reader st))) as [H4|H4].
  - rewrite binary_Read_or_enough in Hread by exact H4. injection Hread as _ <-.
    cbn in Hcall. apply IH; rewrite Hcall, length_drop; lia.
  - rewrite binary_Read_or_short in Hread by exact H4. discriminate.
Qed.

Lemma reader_Read_within (sz : Z) (st : vox.State (S := S)) :
  within (length (vox.reader st)) (vox.reader_Read sz st).
Proof.
  unfold vox.reader_Read. destruct (vox.reader st) as [|b r] eqn:Er; cbn.
  - rewrite Er. cbn. lia.
  - destruct (Z.of_nat (Datatypes.S (length r)) <=? sz); cbn; [lia |].
    rewrite length_drop. cbn. lia.
Qed.

(** Every turn of the loop returns an error, panics, or goes on with at
    least the 12 bytes of a child header taken from the stream. *)
Lemma child_within (fuel : nat) (nb : Z) (hp : bool) (st : vox.State) :
  (length (vox.reader st) <= fuel)%nat ->
  within (length (vox.reader st) - 12) (vox.child sink fuel nb hp st).
Proof.
  intros Hlen. unfold vox.child.
  eapply within_bind; [apply binary_Read_or_within |].
  intros bs st1 Hhdr H1. apply binary_Read_or_Val in Hhdr. destruct Hhdr as (H12 & _ & _).
  repeat match goal with |- context [if ?c then _ else _] => destruct c end.
  - eapply within_bind; [apply binary_Read_or_within |]. intros size st2 _ H2.
    eapply within_bind; [apply call_within |]. intros u st3 _ H3.
    cbn. lia.
  - eapply within_bind; [apply read_palette_within |]. intros pal st2 _ H2.
    eapply within_bind; [apply call_within |]. intros u st3 _ H3.
    cbn. lia.
  - eapply within_bind; [apply binary_Read_or_within |]. intros cnt st2 _ H2.
    eapply within_bind; [apply read_voxels_within; lia |]. intros u st3 _ H3.
    cbn. lia.
  - eapply within_bind; [apply reader_Read_within |]. intros r st2 _ H2.
    destruct r; cbn; [exact I | lia].
Qed.

Lemma child_fuel (f1 f2 : nat) (nb : Z) (hp : bool) (st : vox.State) :
  (length (vox.reader st) <= f1)%nat -> (length (vox.reader st) <= f2)%nat ->
  vox.child sink f1 nb hp st = vox.child sink f2 nb hp st.
Proof.
  intros H1 H2. unfold vox.child.
  apply bind_ext; [reflexivity |]. intros bs st1 Hread.
  assert (Hst1 : (length (vox.reader st1) + 12 <= length (vox.reader st))%nat).
  { destruct (Nat.le_gt_cases 12 (length (vox.reader st))) as [H|H].
    - rewrite binary_Read_or_enough in Hread by exact H. injection Hread as _ <-.
      cbn. rewrite length_drop. lia.
    - rewrite binary_Read_or_short in Hread by exact H. discriminate. }
  repeat match goal with |- context [if ?c then _ else _] => destruct c end;
    try reflexivity.
  apply bind_ext; [reflexivity |]. intros cnt st2 Hcnt.
  pose proof (binary_Read_or_within 4 vox.ErrInvalidChunk st1) as Hw.
  rewrite Hcnt in Hw. cbn in Hw.
  apply bind_ext; [|reflexivity].
  apply read_voxels_fuel; lia.
Qed.

Lemma ConsumingChildren_within (fuel : nat) (cs nb : Z) (hp : bool) (st : vox.State) :
  (length (vox.reader st) < fuel)%nat ->
  within (length (vox.reader st)) (vox.ConsumingChildren sink fuel cs nb hp st).
Proof.
  revert nb hp st. induction fuel as [|fuel IH]; intros nb hp st Hlen; [lia |].
  cbn [vox.ConsumingChildren]. destruct (nb <? cs); [|cbn; lia].
  eapply within_bind; [apply child_within; lia |].
  intros nh st' Hchild Hle.
  pose proof (child_within fuel nb hp st ltac:(lia)) as Hw. rewrite Hchild in Hw. cbn in Hw.
  destruct (Nat.eq_dec (length (vox.reader st)) 0%nat) as [E0|E0].
  - (* an empty stream cannot yield a header *)
    exfalso. unfold vox.child in Hchild. unfold vox.bind at 1 in Hchild.
    rewrite binary_Read_or_short in Hchild by lia. discriminate.
  - eapply within_mono; [|apply IH]; lia.
Qed.

Lemma ConsumingChildren_fuel (f1 f2 : nat) (cs nb : Z) (hp : bool) (st : vox.State) :
  (length (vox.reader st) < f1)%nat -> (length (vox.reader st) < f2)%nat ->
  vox.ConsumingChildren sink f1 cs nb hp st = vox.ConsumingChildren sink f2 cs nb hp st.
Proof.
  revert f2 nb hp st. induction f1 as [|f1 IH]; intros f2 nb hp st H1 H2; [lia |].
  destruct f2 as [|f2]; [lia |].
  cbn [vox.ConsumingChildren]. destruct (nb <? cs); [|reflexivity].
  apply bind_ext; [apply child_fuel; lia |].
  intros nh st' Hchild.
  pose proof (child_within f1 nb hp st ltac:(lia)) as Hw. rewrite Hchild in Hw. cbn in Hw.
  destruct (Nat.eq_dec (length (vox.reader st)) 0%nat) as [E0|E0].
  - exfalso. unfold vox.child in Hchild. unfold vox.bind at 1 in Hchild.
    rewrite binary_Read_or_short in Hchild by lia. discriminate.
  - apply IH; lia.
Qed.

Lemma Decode_fuel_within (fuel : nat) (st : vox.State) :
  (length (vox.reader st) < fuel)%nat ->
  within (length (vox.reader st)) (vox.Decode_fuel sink fuel st).
Proof.
  intros Hlen. unfold vox.Decode_fuel.
  eapply within_bind; [apply binary_Read_or_within |]. intros bs st1 _ H1.
  repeat match goal with |- context [if negb ?c then _ else _] => destruct c; cbn [negb] end;
    try exact I.
  eapply within_bind; [apply binary_Read_or_within |]. intros bs2 st2 _ H2.
  match goal with |- context [if negb ?c then _ else _] => destruct c; cbn [negb] end;
    try exact I.
  eapply within_bind; [apply ConsumingChildren_within; lia |]. intros hp st3 _ H3.
  eapply within_bind.
  - destruct hp; cbn [negb]; [cbn; apply Nat.le_refl | apply call_within].
  - intros u st4 _ H4. cbn. lia.
Qed.

Lemma Decode_fuel_indep (f1 f2 : nat) (st : vox.State) :
  (length (vox.reader st) < f1)%nat -> (length (vox.reader st) < f2)%nat ->
  vox.Decode_fuel sink f1 st = vox.Decode_fuel sink f2 st.
Proof.
  intros H1 H2. unfold vox.Decode_fuel.
  apply bind_ext; [reflexivity |]. intros bs st1 Hr1.
  pose proof (binary_Read_or_within 8 vox.ErrInvalidFile st) as Hw1.
  rewrite Hr1 in Hw1. cbn in Hw1.
  repeat match goal with |- context [if negb ?c then _ else _] => destruct c; cbn [negb] end;
    try reflexivity.
  apply bind_ext; [reflexivity |]. intros bs2 st2 Hr2.
  pose proof (binary_Read_or_within 12 vox.ErrInvalidMainChunk st1) as Hw2.
  rewrite Hr2 in Hw2. cbn in Hw2.
  match goal with |- context [if negb ?c then _ else _] => destruct c; cbn [negb] end;
    try reflexivity.
  apply bind_ext; [|reflexivity].
  apply ConsumingChildren_fuel; lia.
Qed.

(** C10: for every finite input stream (and every sink) [Decode]
    terminates: the loop budget of the embedding is never used up, and any
    larger budget gives the same outcome; the reason is that every turn of
    the [for numBytes < childrenSize] loop either ends [Decode] (an error
    return, or a panic of the sink) or goes on with at least the 12 bytes of
    a child header taken from the stream. *)
Theorem Decode_terminates (r : list byte) (i : S) :
  vox.Decode sink r i <> vox.OutOfFuel
  /\ (forall fuel, (length r < fuel)%nat ->
        vox.Decode_fuel sink fuel (vox.mkState r i) = vox.Decode sink r i)
  /\ (forall fuel nb hp st,
        (length (vox.reader st) <= fuel)%nat ->
        match vox.child sink fuel nb hp st with
        | vox.Val _ st' => (length (vox.reader st') + 12 <= length (vox.reader st))%nat
        | vox.Return e _ => True
        | vox.Panic => True
        | vox.OutOfFuel => False
        end).
Proof.
  split; [|split].
  - unfold vox.Decode.
    pose proof (Decode_fuel_within (Datatypes.S (length r)) (vox.mkState r i)) as H.
    cbn [vox.reader] in H. specialize (H ltac:(lia)).
    intros E. rewrite E in H. exact H.
  - intros fuel Hfuel. unfold vox.Decode. apply Decode_fuel_indep; cbn; lia.
  - intros fuel nb hp st Hlen.
    pose proof (child_within fuel nb hp st Hlen) as Hw.
    destruct (vox.child sink fuel nb hp st) as [nh st'| | |] eqn:Hchild; cbn in Hw; auto.
    destruct (Nat.le_gt_cases 12 (length (vox.reader st))) as [H|H]; [lia |].
    exfalso. unfold vox.child in Hchild. unfold vox.bind at 1 in Hchild.
    rewrite binary_Read_or_short in Hchild by exact H. discriminate.
Qed.

End DecoderFacts.

(** ** The decoder: the file header *)

Section DecoderHeader.

Context {S : Type} (sink : vox.Image S).

Lemma tag_is_true (id : list byte) (tag : string) :
  vox.tag_is id tag = true <-> id = list_byte_of_string tag.
Proof.
  unfold vox.tag_is. rewrite String.eqb_eq. split.
  - intros <-. symmetry. apply list_byte_of_string_of_list_byte.
  - intros ->. apply string_of_list_byte_of_string.
Qed.

Lemma Decode_short_header (r : list byte) (i : S) :
  (length r < 8)%nat ->
  vox.Decode sink r i =
    vox.Return
      (vox.with_ vox.ErrInvalidFile (match r with [] => vox.EOF | _ => vox.ErrUnexpectedEOF end))
      (vox.mkState [] i).
Proof.
  intros H. unfold vox.Decode, vox.Decode_fuel. unfold vox.bind at 1.
  rewrite binary_Read_or_short by exact H. reflexivity.
Qed.

Lemma Decode_bad_magic (r : list byte) (i : S) :
  (8 <= length r)%nat -> take 4 r <> list_byte_of_string vox.voxMagic ->
  vox.Decode sink r i = vox.Return vox.ErrInvalidFile (vox.mkState (drop 8 r) i).
Proof.
  intros H Hmagic. unfold vox.Decode, vox.Decode_fuel. unfold vox.bind at 1.
  rewrite binary_Read_or_enough by exact H.
  cbn [vox.reader vox.img vox.decode_voxHeader vox.Magic].
  rewrite take_take. change (4 `min` 8)%nat with 4%nat.
  destruct (vox.tag_is (take 4 r) vox.voxMagic) eqn:Htag; [|reflexivity].
  apply tag_is_true in Htag. contradiction.
Qed.

End DecoderHeader.

(** C6: for every input stream that is too short to hold the 8-byte file
    header, or whose first four bytes are not the magic tag, and for every
    sink, [Decode] returns the InvalidFile error (bare, or wrapping the I/O
    error of the short read) with the sink exactly as it was; run against the
    recording sink, the log of calls stays empty. *)
Theorem Decode_bad_header_InvalidFile {S : Type} (sink : vox.Image S) (r : list byte) (i : S) :
  (length r < 8)%nat \/ take 4 r <> list_byte_of_string vox.voxMagic ->
  exists e r',
    vox.Decode sink r i = vox.Return e (vox.mkState r' i)
    /\ (e = vox.ErrInvalidFile \/ exists io, e = vox.with_ vox.ErrInvalidFile io)
    /\ vox.err e = vox.err vox.ErrInvalidFile
    /\ vox.Decode vox.Recorder r [] = vox.Return e (vox.mkState r' []).
Proof.
  intros H.
  destruct (Nat.le_gt_cases 8 (length r)) as [H8|H8].
  - destruct H as [H|H]; [lia |].
    exists vox.ErrInvalidFile, (drop 8 r).
    rewrite !Decode_bad_magic by assumption. auto.
  - eexists _, []. rewrite !Decode_short_header by assumption.
    split; [reflexivity |]. split; [right; eexists; reflexivity |]. split; reflexivity.
Qed.

(** A stream whose magic reads "XOV ". *)
Lemma Decode_bad_header_InvalidFile_witness :
  take 4 (list_byte_of_string "XOV " ++ vox.le32 150 ++ vox.chunk_header vox.mainChunkID 0 0)
    <> list_byte_of_string vox.voxMagic
  /\ exists e r',
       vox.Decode vox.Recorder
         (list_byte_of_string "XOV " ++ vox.le32 150 ++ vox.chunk_header vox.mainChunkID 0 0) []
       = vox.Return e (vox.mkState r' [])
       /\ (e = vox.ErrInvalidFile \/ exists io, e = vox.with_ vox.ErrInvalidFile io)
       /\ vox.err e = vox.err vox.ErrInvalidFile
       /\ vox.Decode vox.Recorder
            (list_byte_of_string "XOV " ++ vox.le32 150 ++ vox.chunk_header vox.mainChunkID 0 0) []
          = vox.Return e (vox.mkState r' []).
Proof.
  split; [discriminate |].
  apply (Decode_bad_header_InvalidFile vox.Recorder
           (list_byte_of_string "XOV " ++ vox.le32 150 ++ vox.chunk_header vox.mainChunkID 0 0) []).
  right. discriminate.
Defined.

(** ** The decoder: one chunk at a time *)

Lemma uint8_of_N (m : Z) :
  0 <= m < 256 -> vox.uint8 (vox.byte_of_N (Z.to_N m)) = m.
Proof.
  intros Hm. unfold vox.uint8, vox.byte_of_N.
  destruct (Byte.of_N (Z.to_N m)) as [b|] eqn:E.
  - apply Byte.to_of_N in E. rewrite E. lia.
  - apply Byte.of_N_None_iff in E. lia.
Qed.

Lemma uint32_le_le32 (n : Z) : 0 <= n < 2 ^ 32 -> vox.uint32_le (vox.le32 n) = n.
Proof.
  intros Hn. unfold vox.uint32_le, vox.le32. cbn [foldr].
  rewrite !uint8_of_N by (apply Z.mod_pos_bound; lia).
  change (256 ^ 0) with 1. change (256 ^ 1) with 256.
  change (256 ^ 2) with 65536. change (256 ^ 3) with 16777216.
  change (2 ^ 32) with 4294967296 in Hn.
  Z.div_mod_to_equations. lia.
Qed.

Lemma length_le32 (n : Z) : length (vox.le32 n) = 4%nat.
Proof. reflexivity. Qed.


Lemma decode_chunk_header (tag : string) (d c : Z) :
  length (list_byte_of_string tag) = 4%nat ->
  0 <= d < 2 ^ 32 -> 0 <= c < 2 ^ 32 ->
  vox.decode_chunkHeader (vox.chunk_header tag d c)
  = vox.mkChunkHeader (list_byte_of_string tag) d c.
Proof.
  intros Htag Hd Hc. unfold vox.decode_chunkHeader, vox.chunk_header.
  destruct (list_byte_of_string tag) as [|b0 [|b1 [|b2 [|b3 [|b4 t]]]]]; try discriminate.
  change (take 4 ([b0; b1; b2; b3] ++ vox.le32 d ++ vox.le32 c)) with [b0; b1; b2; b3].
  change (take 4 (drop 4 ([b0; b1; b2; b3] ++ vox.le32 d ++ vox.le32 c))) with (vox.le32 d).
  change (take 4 (drop 8 ([b0; b1; b2; b3] ++ vox.le32 d ++ vox.le32 c))) with (vox.le32 c).
  rewrite !uint32_le_le32 by assumption. reflexivity.
Qed.

Lemma decode_encode_RGBA (c : color.RGBA) : vox.decode_RGBA (vox.encode_RGBA c) = c.
Proof. destruct c. reflexivity. Qed.

Section DecoderChunks.

Context {S : Type} (sink : vox.Image S).

Lemma read_palette_table (table acc : color.Palette) (rest : list byte) (i : S) :
  vox.read_palette (length table) acc (vox.mkState (flat_map vox.encode_RGBA table ++ rest) i)
  = vox.Val (acc ++ table) (vox.mkState rest i).
Proof.
  revert acc. induction table as [|c table IH]; intros acc.
  - cbn. rewrite app_nil_r. reflexivity.
  - cbn [length vox.read_palette flat_map]. rewrite <- app_assoc.
    unfold vox.bind at 1. rewrite binary_Read_or_app by reflexivity.
    rewrite decode_encode_RGBA, IH, <- app_assoc. reflexivity.
Qed.

Lemma read_voxels_records (voxels : list (byte * byte * byte * byte)) (fuel : nat) (k : Z)
    (rest : list byte) (i : S) :
  (length voxels <= fuel)%nat ->
  vox.read_voxels sink fuel k (k + Z.of_nat (length voxels))
    (vox.mkState
       (flat_map (fun v => match v with (x, y, z, idx) => [x; y; z; idx] end) voxels ++ rest) i)
  = match vox.set_voxels sink voxels i with
    | Some i' => vox.Val tt (vox.mkState rest i')
    | None => vox.Panic
    end.
Proof.
  revert fuel k i. induction voxels as [|[[[x y] z] idx] voxels IH]; intros fuel k i Hfuel.
  - cbn [length flat_map vox.set_voxels]. rewrite Z.add_0_r.
    destruct fuel; cbn [vox.read_voxels]; rewrite Z.ltb_irrefl; reflexivity.
  - destruct fuel as [|fuel]; [cbn in Hfuel; lia |].
    cbn [length flat_map vox.set_voxels vox.read_voxels].
    destruct (Z.ltb_spec k (k + Z.of_nat (Datatypes.S (length voxels)))) as [_|Hge]; [|lia].
    rewrite <- app_assoc.
    unfold vox.bind at 1. rewrite binary_Read_or_app by reflexivity.
    unfold vox.bind at 1. unfold vox.call. cbn [vox.img vox.reader nth].
    destruct (vox.Set_ sink (vox.uint8 x) (vox.uint8 y) (vox.uint8 z) idx i) as [i'|];
      [|reflexivity].
    replace (k + Z.of_nat (Datatypes.S (length voxels)))
      with (k + 1 + Z.of_nat (length voxels)) by lia.
    apply IH. cbn in Hfuel. lia.
Qed.

(** A [SIZE] chunk: 24 bytes read, 24 added, one [SetBounds]. *)
Lemma child_SIZE (fuel : nat) (nb : Z) (hp : bool) (x y z : Z) (rest : list byte) (i i' : S) :
  0 <= x < 2 ^ 32 -> 0 <= y < 2 ^ 32 -> 0 <= z < 2 ^ 32 ->
  vox.SetBounds sink (Bx 0 0 0 x y z) i = Some i' ->
  vox.child sink fuel nb hp (vox.mkState (vox.SIZE_chunk x y z ++ rest) i)
  = vox.Val (GoInt.u32 (GoInt.u32 (nb + 12) + 12), hp) (vox.mkState rest i').
Proof.
  intros Hx Hy Hz Hset. unfold vox.child, vox.SIZE_chunk.
  rewrite <- app_assoc.
  unfold vox.bind at 1. rewrite binary_Read_or_app by reflexivity.
  rewrite decode_chunk_header by (try reflexivity; lia).
  cbn [vox.Id]. change (vox.tag_is _ vox.sizeShunkID) with true. cbv iota.
  rewrite <- !app_assoc, (app_assoc (vox.le32 x)), (app_assoc (vox.le32 x ++ vox.le32 y)).
  unfold vox.bind at 1. rewrite binary_Read_or_app by reflexivity.
  change (take 4 ((vox.le32 x ++ vox.le32 y) ++ vox.le32 z)) with (vox.le32 x).
  change (take 4 (drop 4 ((vox.le32 x ++ vox.le32 y) ++ vox.le32 z))) with (vox.le32 y).
  change (take 4 (drop 8 ((vox.le32 x ++ vox.le32 y) ++ vox.le32 z))) with (vox.le32 z).
  rewrite !uint32_le_le32 by assumption.
  unfold vox.bind, vox.call. cbn [vox.img vox.reader]. rewrite Hset. reflexivity.
Qed.

(** An [RGBA] chunk: 12 + 1024 bytes read, but 12 + 16*256 added. *)
Lemma child_RGBA (fuel : nat) (nb : Z) (hp : bool) (table : color.Palette)
    (rest : list byte) (i i' : S) :
  length table = 256%nat ->
  vox.SetPalette sink table i = Some i' ->
  vox.child sink fuel nb hp (vox.mkState (vox.RGBA_chunk table ++ rest) i)
  = vox.Val (GoInt.u32 (GoInt.u32 (nb + 12) + 4096), true) (vox.mkState rest i').
Proof.
  intros Hlen Hset. unfold vox.child, vox.RGBA_chunk.
  rewrite <- app_assoc.
  unfold vox.bind at 1. rewrite binary_Read_or_app by reflexivity.
  rewrite decode_chunk_header by (try reflexivity; lia).
  cbn [vox.Id]. change (vox.tag_is _ vox.sizeShunkID) with false.
  change (vox.tag_is _ vox.paletteChunkID) with true. cbv iota.
  unfold vox.bind at 1. rewrite <- Hlen at 1. rewrite read_palette_table.
  unfold vox.bind, vox.call. cbn [vox.img vox.reader app]. rewrite Hset. reflexivity.
Qed.

(** An [XYZI] chunk: 16 + 4n bytes read, 16 + 4n added, one [Set] per
    record in file order. *)
Lemma child_XYZI (fuel : nat) (nb : Z) (hp : bool) (voxels : list (byte * byte * byte * byte))
    (rest : list byte) (i : S) :
  (length voxels <= fuel)%nat -> 4 + 4 * Z.of_nat (length voxels) < 2 ^ 32 ->
  vox.child sink fuel nb hp (vox.mkState (vox.XYZI_chunk voxels ++ rest) i)
  = match vox.set_voxels sink voxels i with
    | Some i' =>
        vox.Val (GoInt.u32 (GoInt.u32 (GoInt.u32 (nb + 12) + 4)
                            + GoInt.u32 (4 * Z.of_nat (length voxels))), hp)
          (vox.mkState rest i')
    | None => vox.Panic
    end.
Proof.
  intros Hfuel Hn. unfold vox.child, vox.XYZI_chunk.
  rewrite <- app_assoc.
  unfold vox.bind at 1. rewrite binary_Read_or_app by reflexivity.
  rewrite decode_chunk_header by (try reflexivity; lia).
  cbn [vox.Id]. change (vox.tag_is _ vox.sizeShunkID) with false.
  change (vox.tag_is _ vox.paletteChunkID) with false.
  change (vox.tag_is _ vox.voxelChunkID) with true. cbv iota.
  rewrite <- app_assoc.
  unfold vox.bind at 1. rewrite binary_Read_or_app by reflexivity.
  rewrite uint32_le_le32 by lia.
  unfold vox.bind at 1.
  pose proof (read_voxels_records voxels fuel 0 rest i Hfuel) as Hrv.
  rewrite Z.add_0_l in Hrv. rewrite Hrv.
  destruct (vox.set_voxels sink voxels i); reflexivity.
Qed.

Lemma ConsumingChildren_step (fuel : nat) (cs nb : Z) (hp : bool) (st : vox.State) :
  nb < cs ->
  vox.ConsumingChildren sink (Datatypes.S fuel) cs nb hp st
  = vox.bind (vox.child sink fuel nb hp)
      (fun nh => vox.ConsumingChildren sink fuel cs (fst nh) (snd nh)) st.
Proof.
  intros H. cbn [vox.ConsumingChildren].
  destruct (Z.ltb_spec nb cs); [reflexivity | lia].
Qed.

Lemma ConsumingChildren_done (fuel : nat) (cs nb : Z) (hp : bool) (st : vox.State) :
  cs <= nb -> vox.ConsumingChildren sink fuel cs nb hp st = vox.Val hp st.
Proof.
  intros H. destruct fuel; cbn [vox.ConsumingChildren];
    destruct (Z.ltb_spec nb cs); try reflexivity; lia.
Qed.

(** The two headers of a well-formed file. *)
Lemma Decode_fuel_vox_file (fuel : nat) (children : list (list byte)) (i : S) :
  Z.of_nat (length (concat children)) < 2 ^ 32 ->
  vox.Decode_fuel sink fuel (vox.mkState (vox.vox_file children) i)
  = vox.bind
      (vox.ConsumingChildren sink fuel (Z.of_nat (length (concat children))) 0 false)
      (fun hasPalette =>
         vox.bind
           (if negb hasPalette then vox.call (vox.SetPalette sink vox.defaultPalette)
            else vox.ret tt)
           (fun _ => vox.ret tt))
      (vox.mkState (concat children) i).
Proof.
  intros Hlen. unfold vox.Decode_fuel, vox.vox_file.
  unfold vox.bind at 1. rewrite binary_Read_or_app by reflexivity.
  change (negb (vox.tag_is (vox.Magic (vox.decode_voxHeader vox.file_header)) vox.voxMagic))
    with false.
  change (negb (vox.uint8 (nth 0 (vox.Version (vox.decode_voxHeader vox.file_header)) x00)
                =? vox.voxVersion)) with false.
  cbv iota.
  unfold vox.bind at 1. rewrite binary_Read_or_app by reflexivity.
  rewrite decode_chunk_header by (try reflexivity; lia).
  cbn [vox.Id vox.ChildrenSize].
  change (negb (vox.tag_is (list_byte_of_string vox.mainChunkID) vox.mainChunkID)) with false.
  cbv iota. reflexivity.
Qed.

End DecoderChunks.

(** ** The decoder: the [RGBA] accounting and the round trip *)

Ltac compute_u32 :=
  repeat match goal with
    | |- context [GoInt.u32 ?x] =>
        let v := eval vm_compute in (GoInt.u32 x) in change (GoInt.u32 x) with v
    end.

Lemma length_RGBA_chunk (table : color.Palette) :
  length (vox.RGBA_chunk table) = (12 + 4 * length table)%nat.
Proof.
  unfold vox.RGBA_chunk. rewrite length_app.
  rewrite length_flat_map_const with (c := 4%nat) by (intros []; reflexivity).
  change (length (vox.chunk_header vox.paletteChunkID 1024 0)) with 12%nat. lia.
Qed.

(** C1 (the code at an [RGBA] chunk): the chunk is 12 + 1024 = 1036 bytes
    long and the decoder reads all of it and nothing more, but the counter
    goes from 0 to 12 + 16*256 = 4108, not to 1036.  In a file that carries
    a [SIZE], an [RGBA] and an [XYZI] chunk in this order (1084 bytes of
    children) the loop therefore stops after the [RGBA] chunk: the [XYZI]
    chunk is left unread in the stream and cell (0,0,0) keeps index 0. *)
Theorem RGBA_chunk_adds_4096 :
  length (vox.RGBA_chunk vox.defaultPalette) = 1036%nat
  /\ vox.child vox.Recorder 0 0 false (vox.mkState (vox.RGBA_chunk vox.defaultPalette) [])
     = vox.Val (4108, true) (vox.mkState [] [vox.CallSetPalette vox.defaultPalette])
  /\ vox.Decode vox.PalettedSink
       (vox.vox_file [vox.SIZE_chunk 2 2 2; vox.RGBA_chunk vox.defaultPalette;
                      vox.XYZI_chunk two_voxels])
       blank_222
     = vox.Val tt
         (vox.mkState (vox.XYZI_chunk two_voxels)
            (Paletted.mk (Box.mk ZP (Pt 2 2 2)) Paletted.noTransform vox.defaultPalette
               [x00; x00; x00; x00; x00; x00; x00; x00])).
Proof.
  split; [reflexivity |]. split; vm_compute; reflexivity.
Qed.

(** C2 as the specification words it ("in any order") does not hold: with
    the [XYZI] chunk ahead of the [SIZE] chunk the voxels are written first
    and [SetBounds] then replaces the buffer, so [Get(0,0,0)] is 0; on an
    image that has no cells yet the early [Set] panics. *)
Lemma Decode_XYZI_before_SIZE :
  (exists p,
     vox.Decode vox.PalettedSink
       (vox.vox_file [vox.XYZI_chunk two_voxels; vox.SIZE_chunk 2 2 2;
                      vox.RGBA_chunk vox.defaultPalette])
       blank_222
     = vox.Val tt (vox.mkState [] p)
     /\ Paletted.Get 0 0 0 p = Some x00
     /\ ~ decoded_as_promised vox.defaultPalette p)
  /\ vox.Decode vox.PalettedSink
       (vox.vox_file [vox.XYZI_chunk two_voxels; vox.SIZE_chunk 2 2 2;
                      vox.RGBA_chunk vox.defaultPalette])
       (Paletted.mk Box.ZB Paletted.noTransform [] [])
     = vox.Panic.
Proof.
  split.
  - eexists. split; [vm_compute; reflexivity |].
    split; [reflexivity |].
    intros (_ & _ & H & _). discriminate H.
  - vm_compute. reflexivity.
Qed.

(** C2 (as the code has it): for every 256-entry table, decoding the file
    whose children are [SIZE] 2x2x2, then [XYZI] with the voxels (0,0,0,5)
    and (1,1,1,9), then [RGBA] with the table as the last chunk -- the [MAIN]
    header declaring their total encoded size -- into a [Paletted] image with
    the identity transform succeeds with the whole stream read, and leaves
    bounds [Bx(0,0,0,2,2,2)], the supplied table as palette, index 5 at
    (0,0,0), index 9 at (1,1,1) and 0 in every other cell within the
    bounds. *)
Theorem Decode_SIZE_XYZI_RGBA_round_trip (table : color.Palette) (p0 : Paletted.t) :
  length table = 256%nat ->
  Paletted.Transformer p0 = Paletted.noTransform ->
  vox.Decode vox.PalettedSink
    (vox.vox_file [vox.SIZE_chunk 2 2 2; vox.XYZI_chunk two_voxels; vox.RGBA_chunk table]) p0
  = vox.Val tt (vox.mkState [] (decoded_222 table))
  /\ decoded_as_promised table (decoded_222 table).
Proof.
  intros Hlen HT. split.
  - assert (Hbody : length (concat [vox.SIZE_chunk 2 2 2; vox.XYZI_chunk two_voxels;
                                     vox.RGBA_chunk table]) = 1084%nat).
    { cbn [concat]. rewrite !length_app, length_RGBA_chunk, Hlen. reflexivity. }
    assert (Hfile : length (vox.vox_file [vox.SIZE_chunk 2 2 2; vox.XYZI_chunk two_voxels;
                                           vox.RGBA_chunk table]) = 1104%nat).
    { unfold vox.vox_file. rewrite !length_app, Hbody. reflexivity. }
    unfold vox.Decode. rewrite Hfile.
    rewrite Decode_fuel_vox_file by (rewrite Hbody; lia).
    rewrite Hbody. cbn [concat]. change (Z.of_nat 1084) with 1084.
    unfold vox.bind at 1.
    rewrite ConsumingChildren_step by lia.
    unfold vox.bind at 1.
    rewrite (child_SIZE vox.PalettedSink _ _ _ 2 2 2 _ p0
               (Paletted.mk (Box.mk ZP (Pt 2 2 2)) Paletted.noTransform (Paletted.Palette p0)
                  [x00; x00; x00; x00; x00; x00; x00; x00]));
      [| lia | lia | lia | cbn; unfold Paletted.SetBounds; rewrite HT; reflexivity].
    cbn [fst snd]. compute_u32.
    rewrite ConsumingChildren_step by lia.
    unfold vox.bind at 1.
    rewrite (child_XYZI vox.PalettedSink) by (cbn; lia).
    change (vox.set_voxels vox.PalettedSink two_voxels _)
      with (Some (Paletted.mk (Box.mk ZP (Pt 2 2 2)) Paletted.noTransform (Paletted.Palette p0)
                    [x05; x00; x00; x00; x00; x00; x00; x09])).
    cbn [fst snd length two_voxels]. compute_u32.
    rewrite ConsumingChildren_step by lia.
    unfold vox.bind at 1.
    rewrite (child_RGBA vox.PalettedSink _ _ _ table [] _ (decoded_222 table) Hlen)
      by reflexivity.
    cbn [fst snd]. compute_u32.
    rewrite ConsumingChildren_done by lia.
    reflexivity.
  - unfold decoded_as_promised, decoded_222.
    split; [reflexivity |]. split; [reflexivity |].
    split; [reflexivity |]. split; [reflexivity |].
    intros x y z Hin H0 H1. unfold Point_In in Hin. cbn in Hin. bool_to_Z.
    assert (Hx : x = 0 \/ x = 1) by lia.
    assert (Hy : y = 0 \/ y = 1) by lia.
    assert (Hz : z = 0 \/ z = 1) by lia.
    destruct Hx as [-> | ->], Hy as [-> | ->], Hz as [-> | ->];
      first [ reflexivity
            | exfalso; apply H0; reflexivity
            | exfalso; apply H1; reflexivity ].
Qed.

Lemma Decode_SIZE_XYZI_RGBA_round_trip_witness :
  vox.Decode vox.PalettedSink
    (vox.vox_file [vox.SIZE_chunk 2 2 2; vox.XYZI_chunk two_voxels;
                   vox.RGBA_chunk vox.defaultPalette])
    blank_222
  = vox.Val tt (vox.mkState [] (decoded_222 vox.defaultPalette))
  /\ decoded_as_promised vox.defaultPalette (decoded_222 vox.defaultPalette).
Proof.
  apply (Decode_SIZE_XYZI_RGBA_round_trip vox.defaultPalette blank_222); reflexivity.
Defined.

(** ** The decoder: the default palette *)

Lemma no_SetPalette_app (l1 l2 : list vox.Call) :
  no_SetPalette l1 -> no_SetPalette l2 -> no_SetPalette (l1 ++ l2).
Proof. unfold no_SetPalette. intros H1 H2. apply List.Forall_app. split; assumption. Qed.

(** In the recording sink the voxel loop only ever logs [Set] calls. *)
Lemma read_voxels_Recorder (fuel : nat) (i nv : Z) (st st' : vox.State) (u : unit) :
  vox.read_voxels vox.Recorder fuel i nv st = vox.Val u st' ->
  exists calls, vox.img st' = vox.img st ++ calls /\ no_SetPalette calls.
Proof.
  revert i st. induction fuel as [|fuel IH]; intros i st; cbn [vox.read_voxels].
  - destruct (i <? nv); [discriminate |]. intros [= _ <-].
    exists []. rewrite app_nil_r. split; [reflexivity | constructor].
  - destruct (i <? nv).
    + unfold vox.bind at 1.
      destruct (vox.binary_Read_or 4 vox.ErrInvalidChunk st) as [bs st1| | |] eqn:Hread;
        try discriminate.
      apply binary_Read_or_Val in Hread. destruct Hread as (_ & _ & ->).
      unfold vox.bind at 1. cbn [vox.call vox.Recorder vox.Set_ vox.img vox.reader].
      intros H. apply IH in H. destruct H as (calls & Himg & Hq). cbn [vox.img] in Himg.
      eexists (_ :: calls). rewrite Himg, <- app_assoc. split; [reflexivity |].
      constructor; [reflexivity | exact Hq].
    + intros [= _ <-]. exists []. rewrite app_nil_r. split; [reflexivity | constructor].
Qed.

(** A turn of the loop on a child whose tag is not [RGBA] leaves
    [hasPalette] alone and logs no [SetPalette]. *)
Lemma child_Recorder_other (fuel : nat) (nb : Z) (hp : bool) (st st' : vox.State)
    (nh : Z * bool) :
  vox.child vox.Recorder fuel nb hp st = vox.Val nh st' ->
  string_of_list_byte (vox.Id (vox.decode_chunkHeader (take 12 (vox.reader st))))
    <> vox.paletteChunkID ->
  snd nh = hp /\ exists calls, vox.img st' = vox.img st ++ calls /\ no_SetPalette calls.
Proof.
  unfold vox.child. unfold vox.bind at 1.
  destruct (vox.binary_Read_or 12 vox.ErrInvalidFile st) as [bs st1| | |] eqn:Hread;
    try discriminate.
  apply binary_Read_or_Val in Hread. destruct Hread as (_ & -> & ->).
  intros H Htag.
  assert (Hne : vox.tag_is (vox.Id (vox.decode_chunkHeader (take 12 (vox.reader st))))
                  vox.paletteChunkID = false).
  { unfold vox.tag_is. apply String.eqb_neq. exact Htag. }
  rewrite Hne in H.
  destruct (vox.tag_is _ vox.sizeShunkID).
  - unfold vox.bind at 1 in H.
    destruct (vox.binary_Read_or 12 vox.ErrInvalidChunk _) as [size st2| | |] eqn:Hsz;
      try discriminate.
    apply binary_Read_or_Val in Hsz. destruct Hsz as (_ & _ & ->).
    cbn in H. injection H as <- <-. cbn.
    split; [reflexivity |]. eexists [_]. split; [reflexivity |].
    constructor; [reflexivity | constructor].
  - destruct (vox.tag_is _ vox.voxelChunkID).
    + unfold vox.bind at 1 in H.
      destruct (vox.binary_Read_or 4 vox.ErrInvalidChunk _) as [cnt st2| | |] eqn:Hcnt;
        try discriminate.
      apply binary_Read_or_Val in Hcnt. destruct Hcnt as (_ & _ & ->).
      unfold vox.bind at 1 in H.
      destruct (vox.read_voxels vox.Recorder fuel 0 _ _) as [u st3| | |] eqn:Hvox;
        try discriminate.
      apply read_voxels_Recorder in Hvox. cbn [vox.img] in Hvox.
      cbn in H. injection H as <- <-. cbn [snd]. split; [reflexivity | exact Hvox].
    + unfold vox.bind at 1 in H. unfold vox.reader_Read in H. cbn [vox.reader vox.img] in H.
      destruct (drop 12 (vox.reader st)) as [|b r'] eqn:Hd; cbn in H; [discriminate |].
      injection H as <- <-. cbn [snd vox.img]. split; [reflexivity |].
      exists []. rewrite app_nil_r. split; [reflexivity | constructor].
Qed.

Lemma ConsumingChildren_Recorder_no_RGBA (fuel : nat) (cs nb : Z) (hp hp' : bool)
    (st st' : vox.State) :
  vox.ConsumingChildren vox.Recorder fuel cs nb hp st = vox.Val hp' st' ->
  ~ In vox.paletteChunkID (vox.tags_seen vox.Recorder fuel cs nb hp st) ->
  hp' = hp /\ exists calls, vox.img st' = vox.img st ++ calls /\ no_SetPalette calls.
Proof.
  revert nb hp st. induction fuel as [|fuel IH]; intros nb hp st;
    cbn [vox.ConsumingChildren vox.tags_seen].
  - destruct (nb <? cs); [discriminate |]. intros [= <- <-] _.
    split; [reflexivity |]. exists []. rewrite app_nil_r. split; [reflexivity | constructor].
  - destruct (nb <? cs).
    + unfold vox.bind at 1.
      destruct (vox.child vox.Recorder fuel nb hp st) as [nh st1| | |] eqn:Hchild;
        try discriminate.
      intros Hloop Htags.
      assert (H12 : (12 <= length (vox.reader st))%nat).
      { unfold vox.child in Hchild. unfold vox.bind at 1 in Hchild.
        destruct (vox.binary_Read_or 12 vox.ErrInvalidFile st) as [bs st2| | |] eqn:Hread;
          try discriminate.
        apply binary_Read_or_Val in Hread. apply Hread. }
      unfold vox.binary_Read in Htags.
      destruct (Nat.leb_spec 12 (length (vox.reader st))) as [_|Hlt]; [|lia].
      cbn [In] in Htags.
      apply child_Recorder_other in Hchild; [|intros E; apply Htags; left; exact E].
      destruct Hchild as (Hhp & calls1 & Himg1 & Hq1).
      apply IH in Hloop; [|intros Hin; apply Htags; right; exact Hin].
      destruct Hloop as (-> & calls2 & Himg2 & Hq2).
      split; [exact Hhp |].
      exists (calls1 ++ calls2). rewrite Himg2, Himg1, <- app_assoc.
      split; [reflexivity | apply no_SetPalette_app; assumption].
    + intros [= <- <-] _.
      split; [reflexivity |]. exists []. rewrite app_nil_r. split; [reflexivity | constructor].
Qed.

(** C7: whenever [Decode] accepts a stream on which it met no [RGBA] chunk,
    the calls it made on the sink end with [SetPalette] of the built-in
    default palette -- made after the loop over the children and just before
    the successful return -- and that is the only [SetPalette] call. *)
Theorem Decode_default_palette_once (r : list byte) (st' : vox.State) :
  vox.Decode vox.Recorder r [] = vox.Val tt st' ->
  ~ In vox.paletteChunkID (vox.chunks_encountered vox.Recorder r []) ->
  length vox.defaultPalette = 256%nat
  /\ exists loop_calls,
       vox.img st' = loop_calls ++ [vox.CallSetPalette vox.defaultPalette]
       /\ no_SetPalette loop_calls.
Proof.
  intros HDecode Htags. split; [reflexivity |].
  unfold vox.Decode, vox.Decode_fuel in HDecode. unfold vox.chunks_encountered in Htags.
  unfold vox.bind at 1 in HDecode.
  destruct (vox.binary_Read_or 8 vox.ErrInvalidFile _) as [bs st1| | |] eqn:Hr1;
    try discriminate.
  apply binary_Read_or_Val in Hr1. cbn [vox.reader vox.img] in Hr1.
  destruct Hr1 as (_ & -> & ->).
  destruct (negb (vox.tag_is _ vox.voxMagic)); [discriminate |].
  destruct (negb (_ =? vox.voxVersion)); [discriminate |].
  unfold vox.bind at 1 in HDecode.
  destruct (vox.binary_Read_or 12 vox.ErrInvalidMainChunk _) as [bs2 st2| | |] eqn:Hr2;
    try discriminate.
  apply binary_Read_or_Val in Hr2. cbn [vox.reader vox.img] in Hr2.
  destruct Hr2 as (_ & -> & ->).
  destruct (negb (vox.tag_is _ vox.mainChunkID)); [discriminate |].
  rewrite drop_drop in HDecode. change (8 + 12)%nat with 20%nat in HDecode.
  unfold vox.bind at 1 in HDecode.
  destruct (vox.ConsumingChildren vox.Recorder _ _ 0 false _) as [hp st3| | |] eqn:Hloop;
    try discriminate.
  apply ConsumingChildren_Recorder_no_RGBA in Hloop; [|exact Htags].
  destruct Hloop as (-> & calls & Himg & Hq). cbn [vox.img app] in Himg.
  cbn in HDecode. injection HDecode as <-. cbn [vox.img].
  exists calls. rewrite Himg. split; [reflexivity | exact Hq].
Qed.

Lemma Decode_default_palette_once_witness :
  exists loop_calls,
    [vox.CallSetBounds (Bx 0 0 0 2 2 2); vox.CallSet 0 0 0 x05; vox.CallSet 1 1 1 x09;
     vox.CallSetPalette vox.defaultPalette]
    = loop_calls ++ [vox.CallSetPalette vox.defaultPalette]
    /\ no_SetPalette loop_calls.
Proof.
  refine (proj2 (Decode_default_palette_once
                   (vox.vox_file [vox.SIZE_chunk 2 2 2; vox.XYZI_chunk two_voxels])
                   (vox.mkState []
                      [vox.CallSetBounds (Bx 0 0 0 2 2 2); vox.CallSet 0 0 0 x05;
                       vox.CallSet 1 1 1 x09; vox.CallSetPalette vox.defaultPalette])
                   _ _)).
  - vm_compute. reflexivity.
  - vm_compute. intros [H|[H|[]]]; discriminate H.
Defined.

(** * Further properties of the geometry (geom.go) *)

Lemma wrap_sub_l (a b : Z) : GoInt.wrap (GoInt.wrap a - b) = GoInt.wrap (a - b).
Proof. unfold Z.sub. apply wrap_add_l. Qed.

Lemma add_sub_cancel (a b : Z) : GoInt.in_range a -> GoInt.sub (GoInt.add a b) b = a.
Proof.
  intros Ha. unfold GoInt.sub, GoInt.add. rewrite wrap_sub_l.
  replace (a + b - b) with a by lia. apply wrap_id, Ha.
Qed.

Lemma sub_add_cancel (a b : Z) : GoInt.in_range a -> GoInt.add (GoInt.sub a b) b = a.
Proof.
  intros Ha. unfold GoInt.sub, GoInt.add. rewrite wrap_add_l.
  replace (a - b + b) with a by lia. apply wrap_id, Ha.
Qed.

(** [p.Add(q).Sub(q) == p] and [p.Sub(q).Add(q) == p] for every point [p]
    of 64-bit coordinates and every [q], also when the intermediate sum or
    difference overflows. *)
Theorem Point_Add_Sub_cancel (p q : Point.t) :
  Point.in_range p ->
  Point.Sub (Point.Add p q) q = p /\ Point.Add (Point.Sub p q) q = p.
Proof.
  destruct p as [x y z]. intros (Hx & Hy & Hz). cbn in Hx, Hy, Hz.
  unfold Point.Sub, Point.Add. cbn [Point.X Point.Y Point.Z].
  rewrite !add_sub_cancel, !sub_add_cancel by assumption. split; reflexivity.
Qed.

Lemma Point_Add_Sub_cancel_witness :
  Point.Sub (Point.Add (Pt 9223372036854775807 (-5) 0) (Pt 1 2 3)) (Pt 1 2 3)
    = Pt 9223372036854775807 (-5) 0
  /\ Point.Add (Point.Sub (Pt 9223372036854775807 (-5) 0) (Pt 1 2 3)) (Pt 1 2 3)
     = Pt 9223372036854775807 (-5) 0.
Proof.
  apply (Point_Add_Sub_cancel (Pt 9223372036854775807 (-5) 0) (Pt 1 2 3)).
  unfold Point.in_range, GoInt.in_range; cbn; lia.
Defined.

Lemma mul_quo_cancel (a k : Z) :
  k <> 0 -> GoInt.in_range a -> GoInt.in_range (a * k) ->
  GoInt.quo (GoInt.mul a k) k = a.
Proof.
  intros Hk Ha Hak. unfold GoInt.quo, GoInt.mul.
  rewrite (wrap_id (a * k)) by exact Hak.
  rewrite Z.quot_mul by exact Hk. apply wrap_id, Ha.
Qed.

(** [p.Mul(k).Div(k) == p] for [k != 0] whenever no product overflows;
    [Div] by zero panics. *)
Theorem Point_Mul_Div_cancel (p : Point.t) (k : int) :
  k <> 0 -> Point.in_range p ->
  GoInt.in_range (Point.X p * k) -> GoInt.in_range (Point.Y p * k) ->
  GoInt.in_range (Point.Z p * k) ->
  Point.Div (Point.Mul p k) k = Some p /\ Point.Div p 0 = None.
Proof.
  destruct p as [x y z]. intros Hk (Hx & Hy & Hz) Hxk Hyk Hzk. cbn in *.
  split; [|reflexivity].
  unfold Point.Div, Point.Mul. cbn [Point.X Point.Y Point.Z].
  destruct (Z.eqb_spec k 0) as [E|_]; [contradiction |].
  rewrite !mul_quo_cancel by assumption. reflexivity.
Qed.

Lemma Point_Mul_Div_cancel_witness :
  Point.Div (Point.Mul (Pt 7 (-3) 0) (-4)) (-4) = Some (Pt 7 (-3) 0)
  /\ Point.Div (Pt 7 (-3) 0) 0 = None.
Proof.
  apply (Point_Mul_Div_cancel (Pt 7 (-3) 0) (-4));
    unfold Point.in_range, GoInt.in_range; cbn; lia.
Defined.

(** *** [Point.Mod] *)

Definition small (z : Z) : Prop := - 2 ^ 61 <= z < 2 ^ 61.

Lemma mod_axis_floor (v lo hi : Z) :
  small v -> small lo -> small hi -> lo < hi ->
  GoInt.add (mod_axis v lo (GoInt.sub hi lo)) lo = lo + (v - lo) mod (hi - lo).
Proof.
  unfold small. intros Hv Hlo Hhi Hlt.
  change (2 ^ 61) with 2305843009213693952 in *.
  assert (R : forall z, -9223372036854775808 <= z < 9223372036854775808 -> GoInt.wrap z = z).
  { intros z Hz. apply wrap_id. unfold GoInt.in_range.
    change (2 ^ 63) with 9223372036854775808. exact Hz. }
  unfold mod_axis, GoInt.rem, GoInt.sub, GoInt.add.
  rewrite (R (hi - lo)), (R (v - lo)) by lia.
  pose proof (Z.rem_bound_abs (v - lo) (hi - lo) ltac:(lia)) as Hb.
  pose proof (Z.quot_rem' (v - lo) (hi - lo)) as Hqr.
  pose proof (Z.rem_sign_nz (v - lo) (hi - lo)) as _.
  assert (Hsign : 0 <= v - lo -> 0 <= Z.rem (v - lo) (hi - lo)).
  { intros H. apply Z.rem_nonneg; lia. }
  assert (Hsign' : v - lo <= 0 -> Z.rem (v - lo) (hi - lo) <= 0).
  { intros H. apply Z.rem_nonpos; lia. }
  set (r := Z.rem (v - lo) (hi - lo)) in *.
  set (q := Z.quot (v - lo) (hi - lo)) in *.
  destruct (Z.ltb_spec r 0) as [Hneg|Hpos].
  - assert (M : (v - lo) mod (hi - lo) = r + (hi - lo)).
    { symmetry. apply (Z.mod_unique_pos _ _ (q - 1)); lia. }
    rewrite (R (r + (hi - lo))) by lia. rewrite R by lia. lia.
  - assert (M : (v - lo) mod (hi - lo) = r).
    { symmetry. apply (Z.mod_unique_pos _ _ q); lia. }
    rewrite R by lia. lia.
Qed.

(** For a non-empty box and coordinates far from the ends of the 64-bit
    range, [p.Mod(b)] does not panic and is the point of [b] congruent to [p]
    modulo the extents of [b] (floored modulo on each axis); in particular it
    lies in [b], and it is [p] itself when [p] already lies in [b]. *)
Theorem Point_Mod_wraps_into_box (p : Point.t) (b : Box.t) :
  Box.Empty b = false ->
  small (Point.X p) -> small (Point.Y p) -> small (Point.Z p) ->
  small (Point.X (Box.Min b)) -> small (Point.Y (Box.Min b)) -> small (Point.Z (Box.Min b)) ->
  small (Point.X (Box.Max b)) -> small (Point.Y (Box.Max b)) -> small (Point.Z (Box.Max b)) ->
  exists q,
    Point_Mod p b = Some q
    /\ Point.X q = Point.X (Box.Min b)
                   + (Point.X p - Point.X (Box.Min b))
                       mod (Point.X (Box.Max b) - Point.X (Box.Min b))
    /\ Point.Y q = Point.Y (Box.Min b)
                   + (Point.Y p - Point.Y (Box.Min b))
                       mod (Point.Y (Box.Max b) - Point.Y (Box.Min b))
    /\ Point.Z q = Point.Z (Box.Min b)
                   + (Point.Z p - Point.Z (Box.Min b))
                       mod (Point.Z (Box.Max b) - Point.Z (Box.Min b))
    /\ Point_In q b = true
    /\ (Point_In p b = true -> q = p).
Proof.
  destruct p as [px py pz], b as [[x0 y0 z0] [x1 y1 z1]].
  unfold Box.Empty. cbn [Box.Min Box.Max Point.X Point.Y Point.Z].
  intros He Hpx Hpy Hpz Hx0 Hy0 Hz0 Hx1 Hy1 Hz1.
  apply Bool.not_true_iff_false in He. bool_to_Z.
  assert (Hx : x0 < x1) by lia. assert (Hy : y0 < y1) by lia. assert (Hz : z0 < z1) by lia.
  assert (R : forall lo hi, small lo -> small hi -> GoInt.sub hi lo = hi - lo).
  { intros lo hi Hl Hh. unfold small in *. apply wrap_id. unfold GoInt.in_range.
    change (2 ^ 61) with 2305843009213693952 in *.
    change (2 ^ 63) with 9223372036854775808. lia. }
  unfold Point_Mod, Box.Dx, Box.Dy, Box.Dz. cbn [Box.Min Box.Max Point.X Point.Y Point.Z].
  destruct (Z.eqb_spec (GoInt.sub x1 x0) 0) as [E|_]; [rewrite R in E by assumption; lia |].
  destruct (Z.eqb_spec (GoInt.sub y1 y0) 0) as [E|_]; [rewrite R in E by assumption; lia |].
  destruct (Z.eqb_spec (GoInt.sub z1 z0) 0) as [E|_]; [rewrite R in E by assumption; lia |].
  cbn [orb]. eexists. split; [reflexivity |].
  unfold Point.Add. cbn [Point.X Point.Y Point.Z].
  rewrite !mod_axis_floor by assumption.
  pose proof (Z.mod_pos_bound (px - x0) (x1 - x0) ltac:(lia)).
  pose proof (Z.mod_pos_bound (py - y0) (y1 - y0) ltac:(lia)).
  pose proof (Z.mod_pos_bound (pz - z0) (z1 - z0) ltac:(lia)).
  split; [reflexivity |]. split; [reflexivity |]. split; [reflexivity |].
  unfold Point_In. cbn [Box.Min Box.Max Point.X Point.Y Point.Z].
  split.
  - bool_to_Z. lia.
  - bool_to_Z. intros Hin.
    rewrite !Z.mod_small by lia. f_equal; lia.
Qed.

Lemma Point_Mod_wraps_into_box_witness :
  exists q,
    Point_Mod (Pt (-1) 7 3) (Bx 0 0 0 4 4 4) = Some q
    /\ Point.X q = 0 + (-1 - 0) mod (4 - 0)
    /\ Point.Y q = 0 + (7 - 0) mod (4 - 0)
    /\ Point.Z q = 0 + (3 - 0) mod (4 - 0)
    /\ Point_In q (Bx 0 0 0 4 4 4) = true
    /\ (Point_In (Pt (-1) 7 3) (Bx 0 0 0 4 4 4) = true -> q = Pt (-1) 7 3).
Proof.
  apply (Point_Mod_wraps_into_box (Pt (-1) 7 3) (Bx 0 0 0 4 4 4));
    first [reflexivity | unfold small; cbn; lia].
Defined.

(** *** Boxes: intersection and overlap *)

(** [b.Intersect(s) == s.Intersect(b)]. *)
Theorem Intersect_comm (b s : Box.t) : Box.Intersect b s = Box.Intersect s b.
Proof.
  rewrite !Intersect_eq. cbv zeta.
  rewrite (Z.max_comm (Point.X (Box.Min b))), (Z.max_comm (Point.Y (Box.Min b))),
    (Z.max_comm (Point.Z (Box.Min b))), (Z.min_comm (Point.X (Box.Max b))),
    (Z.min_comm (Point.Y (Box.Max b))), (Z.min_comm (Point.Z (Box.Max b))).
  reflexivity.
Qed.

(** A point lies in [b.Intersect(s)] exactly when it lies in both [b] and
    [s] -- also when the intersection collapses to [ZB]. *)
Theorem Point_In_Intersect (p : Point.t) (b s : Box.t) :
  Point_In p (Box.Intersect b s) = Point_In p b && Point_In p s.
Proof.
  rewrite Intersect_eq; cbv zeta.
  destruct p as [px py pz], b as [[bx0 by0 bz0] [bx1 by1 bz1]],
    s as [[sx0 sy0 sz0] [sx1 sy1 sz1]].
  cbn [Box.Min Box.Max Point.X Point.Y Point.Z].
  match goal with |- context [if ?c then Box.ZB else _] => destruct c eqn:Hc end;
    unfold Point_In; cbn [Box.Min Box.Max Box.ZB ZP Point.X Point.Y Point.Z];
    apply Bool.eq_iff_eq_true; bool_to_Z; lia.
Qed.

(** [Overlaps] is symmetric. *)
Theorem Overlaps_sym (b s : Box.t) : Box.Overlaps b s = Box.Overlaps s b.
Proof.
  unfold Box.Overlaps. apply Bool.eq_iff_eq_true.
  rewrite !andb_true_iff. tauto.
Qed.

(** Two boxes overlap exactly when some point lies in both, and exactly
    when their intersection is not empty. *)
Theorem Overlaps_common_point (b s : Box.t) :
  (Box.Overlaps b s = true <-> exists p, Point_In p b = true /\ Point_In p s = true)
  /\ Box.Overlaps b s = negb (Box.Empty (Box.Intersect b s)).
Proof.
  split; [|rewrite Intersect_Empty_Overlaps, negb_involutive; reflexivity].
  destruct b as [[bx0 by0 bz0] [bx1 by1 bz1]], s as [[sx0 sy0 sz0] [sx1 sy1 sz1]].
  unfold Box.Overlaps, Box.Empty, Point_In.
  cbn [Box.Min Box.Max Point.X Point.Y Point.Z]. split.
  - intros H. exists (Pt (Z.max bx0 sx0) (Z.max by0 sy0) (Z.max bz0 sz0)).
    cbn [Pt Point.X Point.Y Point.Z]. bool_to_Z. lia.
  - intros ([px py pz] & H1 & H2). cbn [Point.X Point.Y Point.Z] in *.
    bool_to_Z. lia.
Qed.

(** *** Boxes: union *)

Lemma ite_min' (a b : Z) : (if a >? b then b else a) = Z.min a b.
Proof. destruct (Z.gtb_spec a b); lia. Qed.

Lemma ite_max' (a b : Z) : (if a <? b then b else a) = Z.max a b.
Proof. destruct (Z.ltb_spec a b); lia. Qed.

(** [ZB.Union(s) == s] for every [s]; [s.Union(ZB)] is [s] itself when [s]
    is not empty, and otherwise it is [ZB], which [Eq] does not tell from
    [s]: so [s.Union(ZB).Eq(s)] always holds. *)
Theorem Union_ZB_identity (s : Box.t) :
  Box.Union Box.ZB s = s
  /\ Box.Eq (Box.Union s Box.ZB) s = true
  /\ (Box.Empty s = false -> Box.Union s Box.ZB = s)
  /\ (Box.Empty s = true -> Box.Union s Box.ZB = Box.ZB).
Proof.
  split; [reflexivity |].
  unfold Box.Union, Box.Eq.
  destruct (Box.Empty s) eqn:He.
  - split; [|split; [discriminate | reflexivity]].
    change (Box.Empty Box.ZB) with true. apply orb_true_r.
  - change (Box.Empty Box.ZB) with true. cbv iota.
    split; [|split; [reflexivity | discriminate]].
    unfold Point.Eq. rewrite !Z.eqb_refl. reflexivity.
Qed.

(** The union contains both operands: [b.In(b.Union(s))] and
    [s.In(b.Union(s))], and every point of [b] or of [s] is a point of the
    union. *)
Theorem Union_contains_operands (b s : Box.t) :
  Box.In b (Box.Union b s) = true
  /\ Box.In s (Box.Union b s) = true
  /\ (forall p, Point_In p b || Point_In p s = true -> Point_In p (Box.Union b s) = true).
Proof.
  unfold Box.Union.
  destruct (Box.Empty b) eqn:Hb; [|destruct (Box.Empty s) eqn:Hs].
  - split; [unfold Box.In; rewrite Hb; reflexivity |].
    split.
    + unfold Box.In. destruct (Box.Empty s); [reflexivity |]. bool_to_Z. lia.
    + intros p Hp. apply orb_true_iff in Hp. destruct Hp as [Hp|Hp]; [|exact Hp].
      exfalso. unfold Box.Empty, Point_In in *. bool_to_Z. lia.
  - split; [unfold Box.In; rewrite Hb; bool_to_Z; lia |].
    split; [unfold Box.In; rewrite Hs; reflexivity |].
    intros p Hp. apply orb_true_iff in Hp. destruct Hp as [Hp|Hp]; [exact Hp |].
    exfalso. unfold Box.Empty, Point_In in *. bool_to_Z. lia.
  - rewrite !ite_min', !ite_max'.
    unfold Box.In. rewrite Hb, Hs.
    cbn [Box.Min Box.Max Point.X Point.Y Point.Z].
    split; [bool_to_Z; lia |]. split; [bool_to_Z; lia |].
    intros p. unfold Point_In. cbn [Box.Min Box.Max Point.X Point.Y Point.Z].
    bool_to_Z. lia.
Qed.

(** *** Boxes: [Eq], [Canon], translation *)

Lemma Point_Eq_true (p q : Point.t) : Point.Eq p q = true <-> p = q.
Proof.
  destruct p, q. unfold Point.Eq. cbn. bool_to_Z. rewrite !Z.eqb_eq. split.
  - intros ((-> & ->) & ->). reflexivity.
  - intros [= -> -> ->]. auto.
Qed.

(** [Eq] is an equivalence relation on boxes: it holds between equal boxes
    and between any two empty boxes, and never between an empty and a
    non-empty box. *)
Theorem Box_Eq_equivalence (a b c : Box.t) :
  Box.Eq a a = true
  /\ Box.Eq a b = Box.Eq b a
  /\ (Box.Eq a b = true -> Box.Eq b c = true -> Box.Eq a c = true)
  /\ (Box.Eq a b = true <-> a = b \/ (Box.Empty a = true /\ Box.Empty b = true))
  /\ (Box.Eq a b = true -> Box.Empty a = Box.Empty b).
Proof.
  assert (Hiff : forall x y, Box.Eq x y = true <->
                              x = y \/ (Box.Empty x = true /\ Box.Empty y = true)).
  { intros [x0 x1] [y0 y1]. unfold Box.Eq. cbn [Box.Min Box.Max].
    rewrite orb_true_iff, !andb_true_iff, !Point_Eq_true. split.
    - intros [(-> & ->) | H]; [left; reflexivity | right; exact H].
    - intros [[= -> ->] | H]; [left; auto | right; exact H]. }
  split; [apply Hiff; left; reflexivity |].
  split.
  { apply Bool.eq_iff_eq_true. rewrite !Hiff. intuition congruence. }
  split.
  { rewrite !Hiff. intros [-> | (Ha & Hb)] [-> | (Hb' & Hc)]; auto; congruence. }
  split; [apply Hiff |].
  rewrite Hiff. intros [-> | (-> & ->)]; reflexivity.
Qed.

(** [Canon] returns a box with [Min <= Max] on every axis, changes nothing
    in a box that already is so, and the result is empty exactly when the
    box has a zero-width axis; [Bx] is [Canon] of the box of its
    arguments. *)
Theorem Canon_canonical (b : Box.t) :
  (Point.X (Box.Min (Box.Canon b)) <= Point.X (Box.Max (Box.Canon b))
   /\ Point.Y (Box.Min (Box.Canon b)) <= Point.Y (Box.Max (Box.Canon b))
   /\ Point.Z (Box.Min (Box.Canon b)) <= Point.Z (Box.Max (Box.Canon b)))
  /\ Box.Canon (Box.Canon b) = Box.Canon b
  /\ (Box.Empty (Box.Canon b) = true <->
        Point.X (Box.Min b) = Point.X (Box.Max b)
        \/ Point.Y (Box.Min b) = Point.Y (Box.Max b)
        \/ Point.Z (Box.Min b) = Point.Z (Box.Max b))
  /\ Bx (Point.X (Box.Min b)) (Point.Y (Box.Min b)) (Point.Z (Box.Min b))
        (Point.X (Box.Max b)) (Point.Y (Box.Max b)) (Point.Z (Box.Max b))
     = Box.Canon b.
Proof.
  destruct b as [[x0 y0 z0] [x1 y1 z1]].
  unfold Box.Canon, Bx, Box.Empty. cbn [Box.Min Box.Max Point.X Point.Y Point.Z].
  rewrite !Z.gtb_ltb.
  destruct (Z.ltb_spec x1 x0), (Z.ltb_spec y1 y0), (Z.ltb_spec z1 z0);
    cbn [Box.Min Box.Max Point.X Point.Y Point.Z];
    repeat match goal with
      | |- context [?a <? ?b] => destruct (Z.ltb_spec a b); try lia
      end;
    cbn [Box.Min Box.Max Point.X Point.Y Point.Z];
    (split; [lia |]); (split; [reflexivity |]); (split; [|reflexivity]);
    bool_to_Z; lia.
Qed.

(** Translating a box forth and back gives the box again, and translation
    does not change its size -- whatever overflows on the way. *)
Theorem Box_Add_Sub_cancel (b : Box.t) (p : Point.t) :
  Box.in_range b ->
  Box.Sub (Box.Add b p) p = b
  /\ Box.Add (Box.Sub b p) p = b
  /\ Box.Size (Box.Add b p) = Box.Size b.
Proof.
  destruct b as [[x0 y0 z0] [x1 y1 z1]].
  intros ((Hx0 & Hy0 & Hz0) & (Hx1 & Hy1 & Hz1)). cbn in Hx0, Hy0, Hz0, Hx1, Hy1, Hz1.
  unfold Box.Sub, Box.Add, Box.Size. cbn [Box.Min Box.Max Point.X Point.Y Point.Z].
  rewrite !add_sub_cancel, !sub_add_cancel by assumption.
  split; [reflexivity |]. split; [reflexivity |].
  unfold GoInt.sub, GoInt.add.
  f_equal; rewrite wrap_sub_l; apply wrap_congr;
    rewrite Zminus_mod, wrap_eqm, <- Zminus_mod; f_equal; lia.
Qed.

Lemma Box_Add_Sub_cancel_witness :
  Box.Sub (Box.Add (Bx 0 0 0 4 5 6) (Pt 1 (-2) 3)) (Pt 1 (-2) 3) = Bx 0 0 0 4 5 6
  /\ Box.Add (Box.Sub (Bx 0 0 0 4 5 6) (Pt 1 (-2) 3)) (Pt 1 (-2) 3) = Bx 0 0 0 4 5 6
  /\ Box.Size (Box.Add (Bx 0 0 0 4 5 6) (Pt 1 (-2) 3)) = Box.Size (Bx 0 0 0 4 5 6).
Proof.
  apply (Box_Add_Sub_cancel (Bx 0 0 0 4 5 6) (Pt 1 (-2) 3)).
  unfold Box.in_range, Point.in_range, GoInt.in_range; cbn; lia.
Defined.

(** *** Boxes: [Inset] *)

Lemma inset_axis_spec (lo hi n : Z) :
  small lo -> small hi -> small n ->
  snd (Box.inset_axis lo hi n) - fst (Box.inset_axis lo hi n) = Z.max 0 (hi - lo - 2 * n)
  /\ (0 <= n -> lo <= hi ->
      lo <= fst (Box.inset_axis lo hi n) /\ snd (Box.inset_axis lo hi n) <= hi).
Proof.
  unfold small. intros Hlo Hhi Hn.
  change (2 ^ 61) with 2305843009213693952 in *.
  assert (R : forall z, -9223372036854775808 <= z < 9223372036854775808 -> GoInt.wrap z = z).
  { intros z Hz. apply wrap_id. unfold GoInt.in_range.
    change (2 ^ 63) with 9223372036854775808. exact Hz. }
  unfold Box.inset_axis, GoInt.sub, GoInt.mul, GoInt.add, GoInt.quo.
  rewrite (R (hi - lo)), (R (2 * n)), (R (lo + hi)), (R (lo + n)), (R (hi - n)) by lia.
  pose proof (Z.quot_rem' (lo + hi) 2) as Hqr.
  pose proof (Z.rem_bound_abs (lo + hi) 2 ltac:(lia)) as Hb.
  assert (Hs1 : 0 <= lo + hi -> 0 <= Z.rem (lo + hi) 2) by (intros; apply Z.rem_nonneg; lia).
  assert (Hs2 : lo + hi <= 0 -> Z.rem (lo + hi) 2 <= 0) by (intros; apply Z.rem_nonpos; lia).
  set (q := Z.quot (lo + hi) 2) in *. set (r := Z.rem (lo + hi) 2) in *.
  rewrite (R q) by lia.
  destruct (Z.ltb_spec (hi - lo) (2 * n)); cbn [fst snd]; split; lia.
Qed.

(** Away from the ends of the 64-bit range, [Inset(n)] never inverts a box:
    on each axis the result has [Min <= Max], its extent is the old extent
    less [2n] or 0 if that would be negative, and for [n >= 0] it lies within
    the interval of a box that had [Min <= Max] on that axis. *)
Theorem Inset_never_inverts (b : Box.t) (n : int) :
  small (Point.X (Box.Min b)) -> small (Point.Y (Box.Min b)) -> small (Point.Z (Box.Min b)) ->
  small (Point.X (Box.Max b)) -> small (Point.Y (Box.Max b)) -> small (Point.Z (Box.Max b)) ->
  small n ->
  (Point.X (Box.Max (Box.Inset b n)) - Point.X (Box.Min (Box.Inset b n))
     = Z.max 0 (Point.X (Box.Max b) - Point.X (Box.Min b) - 2 * n)
   /\ Point.Y (Box.Max (Box.Inset b n)) - Point.Y (Box.Min (Box.Inset b n))
      = Z.max 0 (Point.Y (Box.Max b) - Point.Y (Box.Min b) - 2 * n)
   /\ Point.Z (Box.Max (Box.Inset b n)) - Point.Z (Box.Min (Box.Inset b n))
      = Z.max 0 (Point.Z (Box.Max b) - Point.Z (Box.Min b) - 2 * n))
  /\ (0 <= n ->
      Point.X (Box.Min b) <= Point.X (Box.Max b) ->
      Point.Y (Box.Min b) <= Point.Y (Box.Max b) ->
      Point.Z (Box.Min b) <= Point.Z (Box.Max b) ->
      Box.In (Box.Inset b n) b = true).
Proof.
  destruct b as [[x0 y0 z0] [x1 y1 z1]]. cbn [Box.Min Box.Max Point.X Point.Y Point.Z].
  intros Hx0 Hy0 Hz0 Hx1 Hy1 Hz1 Hn.
  destruct (inset_axis_spec x0 x1 n Hx0 Hx1 Hn) as (Ex & Ix).
  destruct (inset_axis_spec y0 y1 n Hy0 Hy1 Hn) as (Ey & Iy).
  destruct (inset_axis_spec z0 z1 n Hz0 Hz1 Hn) as (Ez & Iz).
  unfold Box.Inset. cbn [Box.Min Box.Max Point.X Point.Y Point.Z].
  destruct (Box.inset_axis x0 x1 n) as [x0' x1'], (Box.inset_axis y0 y1 n) as [y0' y1'],
    (Box.inset_axis z0 z1 n) as [z0' z1'].
  cbn [fst snd Box.Min Box.Max Point.X Point.Y Point.Z] in *.
  split; [auto |].
  intros Hn0 Cx Cy Cz. unfold Box.In.
  destruct (Box.Empty _); [reflexivity |].
  cbn [Box.Min Box.Max Point.X Point.Y Point.Z]. bool_to_Z. lia.
Qed.

Lemma Inset_never_inverts_witness :
  (Point.X (Box.Max (Box.Inset (Bx 0 0 0 10 3 8) 2))
     - Point.X (Box.Min (Box.Inset (Bx 0 0 0 10 3 8) 2)) = Z.max 0 (10 - 0 - 2 * 2)
   /\ Point.Y (Box.Max (Box.Inset (Bx 0 0 0 10 3 8) 2))
      - Point.Y (Box.Min (Box.Inset (Bx 0 0 0 10 3 8) 2)) = Z.max 0 (3 - 0 - 2 * 2)
   /\ Point.Z (Box.Max (Box.Inset (Bx 0 0 0 10 3 8) 2))
      - Point.Z (Box.Min (Box.Inset (Bx 0 0 0 10 3 8) 2)) = Z.max 0 (8 - 0 - 2 * 2))
  /\ Box.Inset (Bx 0 0 0 10 3 8) 2 = Box.mk (Pt 2 1 2) (Pt 8 1 6).
Proof.
  split; [|reflexivity].
  apply (Inset_never_inverts (Bx 0 0 0 10 3 8) 2); unfold small; cbn; lia.
Defined.

(** * Further properties of [Paletted] *)

Lemma wrap_small (z : Z) : - 2 ^ 63 <= z < 2 ^ 63 -> GoInt.wrap z = z.
Proof. intros H. apply wrap_id. exact H. Qed.

(** Within the extents the flat offset is [z*W*H + y*W + x], computed
    without wrap-around, and it indexes the buffer. *)
Lemma Offset_in_extents (p : Paletted.t) (W H D x y z : Z) :
  Paletted_wf p W H D -> in_extents W H D x y z ->
  Paletted.Offset p x y z = z * W * H + y * W + x
  /\ 0 <= z * W * H + y * W + x < W * H * D.
Proof.
  intros (Hb & _ & HW & HH & HD & Hsz & _) ((Hx0 & Hx1) & (Hy0 & Hy1) & (Hz0 & Hz1)).
  assert (B1 : 0 <= z * W <= (D - 1) * W) by nia.
  assert (B2 : 0 <= z * W * H <= (D - 1) * W * H) by nia.
  assert (B3 : 0 <= y * W <= (H - 1) * W) by nia.
  assert (B4 : W * H * D = (D - 1) * W * H + (H - 1) * W + W) by ring.
  assert (B5 : (D - 1) * W <= (D - 1) * W * H) by nia.
  split; [|lia].
  unfold Paletted.Offset. rewrite Hb. cbn [Box.Max Pt Point.X Point.Y].
  unfold GoInt.add, GoInt.mul.
  rewrite (wrap_small (z * W)) by lia.
  rewrite (wrap_small (z * W * H)) by lia.
  rewrite (wrap_small (y * W)) by lia.
  rewrite (wrap_small (z * W * H + y * W)) by lia.
  apply wrap_small. lia.
Qed.

Lemma mixed_radix_unique (W a b a' b' : Z) :
  0 <= b < W -> 0 <= b' < W -> a * W + b = a' * W + b' -> a = a' /\ b = b'.
Proof.
  intros Hb Hb' E.
  assert (a = a'); [|subst; lia].
  destruct (Z.lt_trichotomy a a') as [L | [L | L]]; [| exact L |]; exfalso; nia.
Qed.

Lemma Offset_distinct (W H D x y z x' y' z' : Z) :
  in_extents W H D x y z -> in_extents W H D x' y' z' ->
  (x, y, z) <> (x', y', z') ->
  z * W * H + y * W + x <> z' * W * H + y' * W + x'.
Proof.
  intros (Hx & Hy & Hz) (Hx' & Hy' & Hz') Hne E. apply Hne.
  destruct (mixed_radix_unique W (z * H + y) x (z' * H + y') x' Hx Hx' ltac:(lia)) as (E1 & ->).
  destruct (mixed_radix_unique H z y z' y' Hy Hy' E1) as (-> & ->).
  reflexivity.
Qed.

(** Within the extents of a well-formed image every cell has a slot of
    its own in the buffer: the offset is in range, and distinct cells have
    distinct offsets. *)
Theorem Offset_in_bounds_injective (p : Paletted.t) (W H D x y z x' y' z' : Z) :
  Paletted_wf p W H D -> in_extents W H D x y z -> in_extents W H D x' y' z' ->
  (x, y, z) <> (x', y', z') ->
  0 <= Paletted.Offset p x y z < Z.of_nat (length (Paletted.Data p))
  /\ Paletted.Offset p x y z <> Paletted.Offset p x' y' z'.
Proof.
  intros Hwf Hc Hc' Hne.
  destruct (Offset_in_extents p W H D x y z Hwf Hc) as (-> & Hr).
  destruct (Offset_in_extents p W H D x' y' z' Hwf Hc') as (-> & _).
  destruct Hwf as (_ & _ & _ & _ & _ & _ & ->).
  split; [exact Hr |].
  apply Offset_distinct with (D := D); assumption.
Qed.

Lemma Offset_in_bounds_injective_witness :
  0 <= Paletted.Offset blank_222 1 0 1 < Z.of_nat (length (Paletted.Data blank_222))
  /\ Paletted.Offset blank_222 1 0 1 <> Paletted.Offset blank_222 0 1 1.
Proof.
  apply (Offset_in_bounds_injective blank_222 2 2 2 1 0 1 0 1 1);
    [ unfold Paletted_wf; cbn; repeat split; lia
    | unfold in_extents; lia
    | unfold in_extents; lia
    | discriminate ].
Defined.

Lemma Get_in_extents (p : Paletted.t) (W H D x y z : Z) :
  Paletted_wf p W H D -> in_extents W H D x y z ->
  Paletted.Get x y z p = Paletted.Data p !! Z.to_nat (z * W * H + y * W + x)
  /\ (Z.to_nat (z * W * H + y * W + x) < length (Paletted.Data p))%nat.
Proof.
  intros Hwf Hc.
  destruct (Offset_in_extents p W H D x y z Hwf Hc) as (Ho & Hr).
  destruct Hwf as (_ & _ & _ & _ & _ & _ & Hlen).
  unfold Paletted.Get, Paletted.index. rewrite Ho.
  destruct (Z.ltb_spec (z * W * H + y * W + x) 0); [lia |].
  split; [reflexivity | lia].
Qed.

Lemma Set_in_extents (p : Paletted.t) (W H D x y z : Z) (i : byte) :
  Paletted_wf p W H D -> in_extents W H D x y z ->
  exists p',
    Paletted.Set_ x y z i p = Some p'
    /\ Paletted_wf p' W H D
    /\ Paletted.Palette p' = Paletted.Palette p
    /\ Paletted.Get x y z p' = Some i
    /\ (forall x' y' z',
          in_extents W H D x' y' z' -> (x', y', z') <> (x, y, z) ->
          Paletted.Get x' y' z' p' = Paletted.Get x' y' z' p).
Proof.
  intros Hwf Hc.
  destruct (Offset_in_extents p W H D x y z Hwf Hc) as (Ho & Hr).
  pose proof Hwf as (Hb & HT & HW & HH & HD & Hsz & Hlen).
  exists (Paletted.mk (Paletted.bounds p) Paletted.noTransform (Paletted.Palette p)
            (<[Z.to_nat (z * W * H + y * W + x) := i]> (Paletted.Data p))).
  split.
  { unfold Paletted.Set_. rewrite HT.
    change (Paletted.noTransform x y z) with (x, y, z). cbv iota.
    unfold Paletted.store. rewrite Ho, Hlen.
    destruct (Z.leb_spec 0 (z * W * H + y * W + x)); [|lia].
    destruct (Z.ltb_spec (z * W * H + y * W + x) (W * H * D)); [|lia].
    reflexivity. }
  assert (Hwf' : Paletted_wf
                   (Paletted.mk (Paletted.bounds p) Paletted.noTransform (Paletted.Palette p)
                      (<[Z.to_nat (z * W * H + y * W + x) := i]> (Paletted.Data p))) W H D).
  { unfold Paletted_wf. cbn [Paletted.bounds Paletted.Transformer Paletted.Data].
    rewrite length_insert. auto 10. }
  split; [exact Hwf' |]. split; [reflexivity |].
  split.
  - destruct (Get_in_extents _ W H D x y z Hwf' Hc) as (-> & _).
    cbn [Paletted.Data]. apply list_lookup_insert_eq. lia.
  - intros x' y' z' Hc' Hne.
    destruct (Get_in_extents _ W H D x' y' z' Hwf' Hc') as (-> & _).
    destruct (Get_in_extents _ W H D x' y' z' Hwf Hc') as (-> & _).
    cbn [Paletted.Data]. apply list_lookup_insert_ne.
    pose proof (Offset_distinct W H D x y z x' y' z' Hc Hc' ltac:(congruence)) as Hoff.
    destruct (Offset_in_extents p W H D x' y' z' Hwf Hc') as (Ho' & Hr').
    lia.
Qed.

Lemma Get_in_extents_Some (p : Paletted.t) (W H D x y z : Z) :
  Paletted_wf p W H D -> in_extents W H D x y z ->
  exists v, Paletted.Get x y z p = Some v.
Proof.
  intros Hwf Hc. destruct (Get_in_extents p W H D x y z Hwf Hc) as (-> & Hlt).
  apply lookup_lt_is_Some_2 in Hlt. exact Hlt.
Qed.

(** On a well-formed image neither [Get] nor [Set] panics at a cell within
    the extents.  [Set] keeps the image well-formed; [Get] at that cell then
    returns the index written, and every other cell within the extents, and
    the palette, are as before. *)
Theorem Paletted_Set_then_Get (p : Paletted.t) (W H D x y z : Z) (i : byte) :
  Paletted_wf p W H D -> in_extents W H D x y z ->
  (exists v, Paletted.Get x y z p = Some v)
  /\ exists p',
       Paletted.Set_ x y z i p = Some p'
       /\ Paletted_wf p' W H D
       /\ Paletted.Palette p' = Paletted.Palette p
       /\ Paletted.Get x y z p' = Some i
       /\ (forall x' y' z',
             in_extents W H D x' y' z' -> (x', y', z') <> (x, y, z) ->
             Paletted.Get x' y' z' p' = Paletted.Get x' y' z' p).
Proof.
  intros Hwf Hc. split.
  - eapply Get_in_extents_Some; eassumption.
  - apply Set_in_extents; assumption.
Qed.

Lemma Paletted_Set_then_Get_witness :
  (exists v, Paletted.Get 1 0 1 blank_222 = Some v)
  /\ exists p',
    Paletted.Set_ 1 0 1 x07 blank_222 = Some p'
    /\ Paletted_wf p' 2 2 2
    /\ Paletted.Palette p' = Paletted.Palette blank_222
    /\ Paletted.Get 1 0 1 p' = Some x07
    /\ (forall x' y' z',
          in_extents 2 2 2 x' y' z' -> (x', y', z') <> (1, 0, 1) ->
          Paletted.Get x' y' z' p' = Paletted.Get x' y' z' blank_222).
Proof.
  apply (Paletted_Set_then_Get blank_222 2 2 2 1 0 1 x07);
    [ unfold Paletted_wf; cbn; repeat split; lia | unfold in_extents; lia ].
Defined.




(** With a palette of 256 entries, [GetColor] at a cell within the extents
    of a well-formed image never panics: it returns the palette entry at the
    index stored in the cell. *)
Theorem GetColor_full_palette (p : Paletted.t) (W H D x y z : Z) :
  Paletted_wf p W H D -> in_extents W H D x y z ->
  length (Paletted.Palette p) = 256%nat ->
  exists i c,
    Paletted.Get x y z p = Some i
    /\ Paletted.Palette p !! N.to_nat (Byte.to_N i) = Some c
    /\ Paletted.GetColor x y z p = Some c.
Proof.
  intros Hwf Hc Hpal.
  destruct (Get_in_extents p W H D x y z Hwf Hc) as (HG & Hlt).
  apply lookup_lt_is_Some_2 in Hlt. destruct Hlt as (i & Hi).
  rewrite Hi in HG.
  pose proof (Byte.to_N_bounded i) as Hb.
  assert (Hidx : (N.to_nat (Byte.to_N i) < length (Paletted.Palette p))%nat) by lia.
  apply lookup_lt_is_Some_2 in Hidx. destruct Hidx as (c & Hc').
  exists i, c. unfold Paletted.GetColor. rewrite HG. auto.
Qed.

Lemma GetColor_full_palette_witness :
  exists i c,
    Paletted.Get 1 1 1 (decoded_222 vox.defaultPalette) = Some i
    /\ Paletted.Palette (decoded_222 vox.defaultPalette) !! N.to_nat (Byte.to_N i) = Some c
    /\ Paletted.GetColor 1 1 1 (decoded_222 vox.defaultPalette) = Some c.
Proof.
  apply (GetColor_full_palette (decoded_222 vox.defaultPalette) 2 2 2 1 1 1);
    [ unfold Paletted_wf; cbn; repeat split; lia | unfold in_extents; lia | reflexivity ].
Defined.

(** * Further properties of [Blit] and [BlitOp] *)

Section BlitOpFacts.

Context {W : Type}.

Lemma clip_dr_positive (dst src : Image W) (dp : Point.t) (sr : Box.t) (w : W) :
  Box.Empty (clip_dr dst src dp sr w) = false ->
  0 < Point.X (Box.Max (clip_dr dst src dp sr w)) - Point.X (Box.Min (clip_dr dst src dp sr w))
  /\ 0 < Point.Y (Box.Max (clip_dr dst src dp sr w)) - Point.Y (Box.Min (clip_dr dst src dp sr w))
  /\ 0 < Point.Z (Box.Max (clip_dr dst src dp sr w)) - Point.Z (Box.Min (clip_dr dst src dp sr w)).
Proof.
  unfold Box.Empty. intros He. apply Bool.not_true_iff_false in He. bool_to_Z. lia.
Qed.

Lemma In_nonempty_within (b s : Box.t) :
  Box.Empty b = false -> Box.In b s = true ->
  Point.X (Box.Min s) <= Point.X (Box.Min b) /\ Point.X (Box.Max b) <= Point.X (Box.Max s)
  /\ Point.Y (Box.Min s) <= Point.Y (Box.Min b) /\ Point.Y (Box.Max b) <= Point.Y (Box.Max s)
  /\ Point.Z (Box.Min s) <= Point.Z (Box.Min b) /\ Point.Z (Box.Max b) <= Point.Z (Box.Max s).
Proof.
  unfold Box.In. intros -> H. bool_to_Z. tauto.
Qed.

(** The loops of [Blit] and [BlitOp] on the cells of [Blit_cells], for any
    action, empty iteration box or not. *)
Lemma blit_loops_cells (dst src : Image W) (dp : Point.t) (sr : Box.t) (w : W)
    (op : Point.t -> Point.t -> W -> option W) :
  Point.in_range dp -> Box.in_range sr ->
  blit_loops op (clip_dr dst src dp sr w) (clip_sr src sr w) w
  = visit_all op (Blit_cells (clip_dr dst src dp sr w) (clip_sr src sr w)) w.
Proof.
  intros Hdp Hsr.
  destruct (Box.Empty (clip_dr dst src dp sr w)) eqn:He.
  - rewrite blit_loops_empty, Blit_cells_empty by exact He. reflexivity.
  - destruct (clip_dr_positive dst src dp sr w He) as (HX & HY & HZ).
    destruct (clip_dr_axes dst src dp sr w Hdp Hsr HX HY HZ)
      as ((AX & _) & (AY & _) & (AZ & _)).
    apply blit_loops_visits; assumption.
Qed.

(** [BlitOp] clips exactly as [Blit] does and calls [op] on the cells [Blit]
    copies, in the same order, with the destination and source coordinates
    [Blit] would use; with an empty clip it never calls [op].  [Blit] is
    [BlitOp] with the copying action. *)
Theorem BlitOp_runs_op_over_Blit_cells (dst src : Image W) (dp : Point.t) (sr : Box.t)
    (op : Image W -> Image W -> Point.t -> Point.t -> W -> option W) (w : W) :
  Point.in_range dp -> Box.in_range sr ->
  BlitOp dst src dp sr op w
  = visit_all (op dst src) (Blit_cells (clip_dr dst src dp sr w) (clip_sr src sr w)) w
  /\ (Box.Empty (clip_dr dst src dp sr w) = true -> BlitOp dst src dp sr op w = Some w)
  /\ BlitOp dst src dp sr copy_voxel w = Blit dst src dp sr w.
Proof.
  intros Hdp Hsr. split; [|split].
  - unfold BlitOp. apply (blit_loops_cells dst src dp sr w (op dst src) Hdp Hsr).
  - intros He. unfold BlitOp. apply blit_loops_empty. exact He.
  - reflexivity.
Qed.

End BlitOpFacts.

Lemma BlitOp_runs_op_over_Blit_cells_witness :
  BlitOp (PalettedAt 0) (PalettedAt 1) (Pt 1 0 0) (Bx 0 0 0 2 2 2)
    (fun _ _ _ _ _ => None) two_images
  = visit_all (fun _ _ _ => None)
      [(Pt 1 0 0, Pt 0 0 0); (Pt 1 1 0, Pt 0 1 0); (Pt 1 0 1, Pt 0 0 1); (Pt 1 1 1, Pt 0 1 1)]
      two_images.
Proof.
  refine (proj1 (BlitOp_runs_op_over_Blit_cells (PalettedAt 0) (PalettedAt 1) (Pt 1 0 0)
                   (Bx 0 0 0 2 2 2) (fun _ _ _ _ _ => None) two_images _ _)).
  - unfold Point.in_range, GoInt.in_range; cbn; lia.
  - unfold Box.in_range, Point.in_range, GoInt.in_range; cbn; lia.
Defined.

(** *** [Blit] between two [Paletted] images *)

Definition point_in_extents (W H D : Z) (p : Point.t) : Prop :=
  in_extents W H D (Point.X p) (Point.Y p) (Point.Z p).

Lemma visit_all_copy_Paletted (a b : nat) (W H D W' H' D' : Z) (ps : Paletted.t)
    (cells : list (Point.t * Point.t)) :
  a <> b -> Paletted_wf ps W' H' D' ->
  forall (w : list Paletted.t) (pd : Paletted.t),
    w !! a = Some pd -> w !! b = Some ps -> Paletted_wf pd W H D ->
    (forall d s, In (d, s) cells -> point_in_extents W H D d /\ point_in_extents W' H' D' s) ->
    List.NoDup (map fst cells) ->
    exists pd',
      visit_all (copy_voxel (PalettedAt a) (PalettedAt b)) cells w = Some (<[a := pd']> w)
      /\ Paletted_wf pd' W H D
      /\ Paletted.Palette pd' = Paletted.Palette pd
      /\ (forall d s, In (d, s) cells ->
            Paletted.Get (Point.X d) (Point.Y d) (Point.Z d) pd'
            = Paletted.Get (Point.X s) (Point.Y s) (Point.Z s) ps)
      /\ (forall x y z, in_extents W H D x y z -> ~ In (Pt x y z) (map fst cells) ->
            Paletted.Get x y z pd' = Paletted.Get x y z pd).
Proof.
  intros Hab Hps. induction cells as [|[d s] cells IH]; intros w pd Ha Hb Hpd Hin Hnd.
  - exists pd. cbn [visit_all]. rewrite list_insert_id by exact Ha.
    split; [reflexivity |]. split; [exact Hpd |]. split; [reflexivity |].
    split; [intros d s [] | intros; reflexivity].
  - destruct (Hin d s (or_introl eq_refl)) as (Hd & Hs).
    destruct (Get_in_extents_Some ps W' H' D' _ _ _ Hps Hs) as (v & Hv).
    destruct (Set_in_extents pd W H D _ _ _ v Hpd Hd) as (pd1 & HSet & Hpd1 & Hpal1 & Hget1 & Hoth1).
    assert (Hlen : (a < length w)%nat) by (eapply lookup_lt_Some; exact Ha).
    specialize (IH (<[a := pd1]> w) pd1).
    destruct IH as (pd' & Hvis & Hpd' & Hpal' & Hval & Hoth).
    { apply list_lookup_insert_eq. exact Hlen. }
    { rewrite list_lookup_insert_ne by exact Hab. exact Hb. }
    { exact Hpd1. }
    { intros d' s' Hin'. apply Hin. right. exact Hin'. }
    { inversion Hnd; assumption. }
    exists pd'. split.
    { cbn [visit_all]. unfold copy_voxel at 1. cbn [Get Set_ PalettedAt].
      rewrite Hb, Hv, Ha, HSet. rewrite Hvis, list_insert_insert_eq. reflexivity. }
    split; [exact Hpd' |]. split; [congruence |].
    assert (Hfresh : ~ In d (map fst cells)) by (inversion Hnd; assumption).
    split.
    + intros d' s' [[= <- <-] | Hin'].
      * destruct d as [dx dy dz]. cbn [Point.X Point.Y Point.Z] in *.
        rewrite (Hoth dx dy dz Hd Hfresh), Hget1, Hv. reflexivity.
      * apply Hval. exact Hin'.
    + intros x y z Hc Hnot. cbn [map fst In] in Hnot.
      rewrite (Hoth x y z Hc) by tauto.
      apply Hoth1; [exact Hc |].
      intros [= -> -> ->]. apply Hnot. left. destruct d; reflexivity.
Qed.

(** [Blit] from one well-formed [Paletted] image into another, different
    one never panics.  The source image and every other object of the store
    are untouched; the destination stays well-formed, and each of its cells
    within the clipped destination region holds what the source holds at the
    cell displaced by the same amount from the min corner of the clipped
    source region, while every other cell is as before. *)
Theorem Blit_Paletted_copies_region (a b : nat) (w : list Paletted.t) (pd ps : Paletted.t)
    (W H D W' H' D' : Z) (dp : Point.t) (sr : Box.t) :
  a <> b -> w !! a = Some pd -> w !! b = Some ps ->
  Paletted_wf pd W H D -> Paletted_wf ps W' H' D' ->
  Point.in_range dp -> Box.in_range sr ->
  exists pd',
    Blit (PalettedAt a) (PalettedAt b) dp sr w = Some (<[a := pd']> w)
    /\ Paletted_wf pd' W H D
    /\ Paletted.Palette pd' = Paletted.Palette pd
    /\ (forall x y z,
          in_extents W H D x y z ->
          Paletted.Get x y z pd' =
            if Point_In (Pt x y z) (clip_dr (PalettedAt a) (PalettedAt b) dp sr w)
            then
              Paletted.Get
                (Point.X (Box.Min (clip_sr (PalettedAt b) sr w))
                 + (x - Point.X (Box.Min (clip_dr (PalettedAt a) (PalettedAt b) dp sr w))))
                (Point.Y (Box.Min (clip_sr (PalettedAt b) sr w))
                 + (y - Point.Y (Box.Min (clip_dr (PalettedAt a) (PalettedAt b) dp sr w))))
                (Point.Z (Box.Min (clip_sr (PalettedAt b) sr w))
                 + (z - Point.Z (Box.Min (clip_dr (PalettedAt a) (PalettedAt b) dp sr w))))
                ps
            else Paletted.Get x y z pd).
Proof.
  intros Hab Ha Hb Hpd Hps Hdp Hsr.
  set (B := clip_dr (PalettedAt a) (PalettedAt b) dp sr w).
  set (Sr := clip_sr (PalettedAt b) sr w).
  assert (HBd : Bounds (PalettedAt a) w = Box.mk ZP (Pt W H D)).
  { cbn [Bounds PalettedAt]. rewrite Ha. apply Hpd. }
  assert (HBs : Bounds (PalettedAt b) w = Box.mk ZP (Pt W' H' D')).
  { cbn [Bounds PalettedAt]. rewrite Hb. apply Hps. }
  assert (HBlit : Blit (PalettedAt a) (PalettedAt b) dp sr w
                  = visit_all (copy_voxel (PalettedAt a) (PalettedAt b)) (Blit_cells B Sr) w).
  { unfold Blit. apply (blit_loops_cells (PalettedAt a) (PalettedAt b) dp sr w _ Hdp Hsr). }
  assert (Hcells : forall d s, In (d, s) (Blit_cells B Sr) ->
                     point_in_extents W H D d /\ point_in_extents W' H' D' s).
  { intros d s Hin.
    destruct (Box.Empty B) eqn:He; [rewrite Blit_cells_empty in Hin by exact He; destruct Hin |].
    destruct (clip_dr_positive _ _ dp sr w He) as (HX & HY & HZ).
    destruct (clip_dr_axes _ _ dp sr w Hdp Hsr HX HY HZ) as ((_ & SX) & (_ & SY) & (_ & SZ)).
    fold B Sr in SX, SY, SZ.
    apply Blit_cells_In in Hin. destruct Hin as (Hin & ->).
    assert (HeS : Box.Empty Sr = false).
    { unfold Box.Empty. apply Bool.not_true_iff_false. fold B in HX, HY, HZ.
      bool_to_Z. lia. }
    destruct (In_nonempty_within _ _ He (proj1 (Intersect_In_both _ _)))
      as (b1 & b2 & b3 & b4 & b5 & b6).
    destruct (In_nonempty_within _ _ HeS (proj2 (Intersect_In_both _ _)))
      as (s1 & s2 & s3 & s4 & s5 & s6).
    fold (clip_dr (PalettedAt a) (PalettedAt b) dp sr w) in b1, b2, b3, b4, b5, b6.
    fold (clip_sr (PalettedAt b) sr w) in s1, s2, s3, s4, s5, s6.
    fold B in b1, b2, b3, b4, b5, b6. fold Sr in s1, s2, s3, s4, s5, s6.
    rewrite HBd in b1, b2, b3, b4, b5, b6. rewrite HBs in s1, s2, s3, s4, s5, s6.
    cbn [Box.Min Box.Max Point.X Point.Y Point.Z ZP Pt] in b1, b2, b3, b4, b5, b6,
      s1, s2, s3, s4, s5, s6.
    unfold Point_In in Hin. apply andb_true_iff in Hin. destruct Hin as (Hin & i6).
    apply andb_true_iff in Hin. destruct Hin as (Hin & i5).
    apply andb_true_iff in Hin. destruct Hin as (Hin & i4).
    apply andb_true_iff in Hin. destruct Hin as (Hin & i3).
    apply andb_true_iff in Hin. destruct Hin as (i1 & i2).
    apply Z.leb_le in i1, i3, i5. apply Z.ltb_lt in i2, i4, i6.
    unfold point_in_extents, in_extents. cbn [Point.X Point.Y Point.Z Pt].
    clear - b1 b2 b3 b4 b5 b6 s1 s2 s3 s4 s5 s6 i1 i2 i3 i4 i5 i6 SX SY SZ.
    lia. }
  assert (Hnd : List.NoDup (map fst (Blit_cells B Sr))).
  { apply StronglySorted_irrefl_NoDup with (R := zyx_lt);
      [apply zyx_lt_irrefl | apply Blit_cells_sorted]. }
  destruct (visit_all_copy_Paletted a b W H D W' H' D' ps (Blit_cells B Sr) Hab Hps
              w pd Ha Hb Hpd Hcells Hnd) as (pd' & Hvis & Hpd' & Hpal & Hval & Hoth).
  exists pd'. rewrite HBlit. split; [exact Hvis |]. split; [exact Hpd' |].
  split; [exact Hpal |].
  intros x y z Hc.
  destruct (Point_In (Pt x y z) B) eqn:Hin.
  - apply (Hval (Pt x y z)
             (Pt (Point.X (Box.Min Sr) + (x - Point.X (Box.Min B)))
                 (Point.Y (Box.Min Sr) + (y - Point.Y (Box.Min B)))
                 (Point.Z (Box.Min Sr) + (z - Point.Z (Box.Min B))))).
    apply Blit_cells_In. split; [exact Hin | reflexivity].
  - apply Hoth; [exact Hc |].
    intros Hmem. apply in_map_iff in Hmem. destruct Hmem as ([d s] & Hd & Hmem).
    cbn [fst] in Hd. subst d. apply Blit_cells_In in Hmem. destruct Hmem as (Hin' & _).
    congruence.
Qed.

Lemma Blit_Paletted_copies_region_witness :
  exists pd',
    Blit (PalettedAt 0) (PalettedAt 1) (Pt 1 0 0) (Bx 0 0 0 2 2 2) two_images
      = Some (<[0%nat := pd']> two_images)
    /\ Paletted_wf pd' 2 2 2
    /\ Paletted.Palette pd' = Paletted.Palette blank_222
    /\ (forall x y z,
          in_extents 2 2 2 x y z ->
          Paletted.Get x y z pd' =
            if Point_In (Pt x y z)
                 (clip_dr (PalettedAt 0) (PalettedAt 1) (Pt 1 0 0) (Bx 0 0 0 2 2 2) two_images)
            then
              Paletted.Get
                (Point.X (Box.Min (clip_sr (PalettedAt 1) (Bx 0 0 0 2 2 2) two_images))
                 + (x - Point.X (Box.Min (clip_dr (PalettedAt 0) (PalettedAt 1) (Pt 1 0 0)
                                            (Bx 0 0 0 2 2 2) two_images))))
                (Point.Y (Box.Min (clip_sr (PalettedAt 1) (Bx 0 0 0 2 2 2) two_images))
                 + (y - Point.Y (Box.Min (clip_dr (PalettedAt 0) (PalettedAt 1) (Pt 1 0 0)
                                            (Bx 0 0 0 2 2 2) two_images))))
                (Point.Z (Box.Min (clip_sr (PalettedAt 1) (Bx 0 0 0 2 2 2) two_images))
                 + (z - Point.Z (Box.Min (clip_dr (PalettedAt 0) (PalettedAt 1) (Pt 1 0 0)
                                            (Bx 0 0 0 2 2 2) two_images))))
                counted_222
            else Paletted.Get x y z blank_222).
Proof.
  apply (Blit_Paletted_copies_region 0 1 two_images blank_222 counted_222 2 2 2 2 2 2
           (Pt 1 0 0) (Bx 0 0 0 2 2 2));
    first [ discriminate | reflexivity
          | unfold Paletted_wf; cbn; repeat split; lia
          | unfold Point.in_range, GoInt.in_range; cbn; lia
          | unfold Box.in_range, Point.in_range, GoInt.in_range; cbn; lia ].
Defined.

(** * Further properties of the decoder (vox.go) *)

Section DecoderEdges.

Context {S : Type} (sink : vox.Image S).

(** Only the first byte of the version field is looked at: whatever the
    other three are, the outcome is that of the file with version 150,0,0,0;
    and a first byte other than 150 gives InvalidVersion with eight bytes
    read and the sink untouched. *)
Theorem Decode_version_first_byte (v0 v1 v2 v3 : byte) (rest : list byte) (i : S) :
  (v0 = x96 ->
   vox.Decode sink (list_byte_of_string vox.voxMagic ++ [v0; v1; v2; v3] ++ rest) i
   = vox.Decode sink (vox.file_header ++ rest) i)
  /\ (v0 <> x96 ->
      vox.Decode sink (list_byte_of_string vox.voxMagic ++ [v0; v1; v2; v3] ++ rest) i
      = vox.Return vox.ErrInvalidVersion (vox.mkState rest i)).
Proof.
  split.
  - intros ->. unfold vox.Decode.
    replace (length (vox.file_header ++ rest))
      with (length (list_byte_of_string vox.voxMagic ++ [x96; v1; v2; v3] ++ rest))
      by (rewrite !length_app; reflexivity).
    generalize (Datatypes.S (length (list_byte_of_string vox.voxMagic ++ [x96; v1; v2; v3] ++ rest))).
    intros fuel. unfold vox.Decode_fuel.
    unfold vox.bind at 1. symmetry. unfold vox.bind at 1. symmetry.
    rewrite (binary_Read_or_app 8 _ (list_byte_of_string vox.voxMagic ++ [x96; v1; v2; v3]) rest)
      by reflexivity.
    rewrite (binary_Read_or_app 8 _ vox.file_header rest) by reflexivity.
    reflexivity.
  - intros Hv. unfold vox.Decode, vox.Decode_fuel. unfold vox.bind at 1.
    rewrite (binary_Read_or_app 8 _ (list_byte_of_string vox.voxMagic ++ [v0; v1; v2; v3]) rest)
      by reflexivity.
    change (negb (vox.tag_is _ vox.voxMagic)) with false. cbv iota.
    change (nth 0 (vox.Version _) x00) with v0.
    destruct (Z.eqb_spec (vox.uint8 v0) vox.voxVersion) as [E|_]; [|reflexivity].
    exfalso. apply Hv. unfold vox.uint8, vox.voxVersion in E.
    assert (E' : Byte.to_N v0 = Byte.to_N x96) by (cbn; lia).
    pose proof (Byte.of_to_N v0) as H1. rewrite E' in H1. cbn in H1. congruence.
Qed.

(** After a good file header, a stream that ends before the 12 bytes of the
    [MAIN] header, or whose next chunk is not tagged [MAIN], gives
    InvalidMainChunk (wrapping the I/O error of the short read) with the sink
    untouched. *)
Theorem Decode_bad_main_chunk (rest : list byte) (i : S) :
  (length rest < 12)%nat \/ take 4 rest <> list_byte_of_string vox.mainChunkID ->
  exists e r',
    vox.Decode sink (vox.file_header ++ rest) i = vox.Return e (vox.mkState r' i)
    /\ vox.err e = vox.err vox.ErrInvalidMainChunk
    /\ ((length rest < 12)%nat ->
        e = vox.with_ vox.ErrInvalidMainChunk
              (match rest with [] => vox.EOF | _ => vox.ErrUnexpectedEOF end))
    /\ ((12 <= length rest)%nat -> e = vox.ErrInvalidMainChunk /\ r' = drop 12 rest).
Proof.
  intros H. unfold vox.Decode, vox.Decode_fuel. unfold vox.bind at 1.
  rewrite (binary_Read_or_app 8 _ vox.file_header rest) by reflexivity.
  change (negb (vox.tag_is (vox.Magic (vox.decode_voxHeader vox.file_header)) vox.voxMagic))
    with false.
  change (negb (vox.uint8 (nth 0 (vox.Version (vox.decode_voxHeader vox.file_header)) x00)
                =? vox.voxVersion)) with false.
  cbv iota. unfold vox.bind at 1.
  destruct (Nat.le_gt_cases 12 (length rest)) as [H12|H12].
  - destruct H as [H|H]; [lia |].
    rewrite binary_Read_or_enough by exact H12. cbn [vox.reader vox.img].
    cbn [vox.decode_chunkHeader vox.Id]. rewrite take_take. change (4 `min` 12)%nat with 4%nat.
    destruct (vox.tag_is (take 4 rest) vox.mainChunkID) eqn:Htag.
    + apply tag_is_true in Htag. contradiction.
    + cbn [negb]. eexists _, _. split; [reflexivity |]. split; [reflexivity |].
      split; [lia | auto].
  - rewrite binary_Read_or_short by exact H12. cbn [vox.reader vox.img].
    eexists _, _. split; [reflexivity |]. split; [reflexivity |].
    split; [reflexivity | lia].
Qed.

(** A [MAIN] header that declares no children ends the decoding at once:
    whatever follows it is left unread and the only call on the sink is
    [SetPalette] with the default palette. *)
Theorem Decode_no_children (dataSize : Z) (rest : list byte) (i : S) :
  0 <= dataSize < 2 ^ 32 ->
  vox.Decode sink (vox.file_header ++ vox.chunk_header vox.mainChunkID dataSize 0 ++ rest) i
  = match vox.SetPalette sink vox.defaultPalette i with
    | Some i' => vox.Val tt (vox.mkState rest i')
    | None => vox.Panic
    end.
Proof.
  intros Hd. unfold vox.Decode, vox.Decode_fuel. unfold vox.bind at 1.
  rewrite binary_Read_or_app by reflexivity.
  change (negb (vox.tag_is (vox.Magic (vox.decode_voxHeader vox.file_header)) vox.voxMagic))
    with false.
  change (negb (vox.uint8 (nth 0 (vox.Version (vox.decode_voxHeader vox.file_header)) x00)
                =? vox.voxVersion)) with false.
  cbv iota. unfold vox.bind at 1.
  rewrite binary_Read_or_app by reflexivity.
  rewrite decode_chunk_header by (try reflexivity; lia).
  cbn [vox.Id vox.ChildrenSize].
  change (negb (vox.tag_is (list_byte_of_string vox.mainChunkID) vox.mainChunkID)) with false.
  cbv iota. unfold vox.bind at 1.
  rewrite ConsumingChildren_done by lia.
  cbn [negb]. unfold vox.bind, vox.call. cbn [vox.img vox.reader].
  destruct (vox.SetPalette sink vox.defaultPalette i); reflexivity.
Qed.

Lemma read_palette_short (n : nat) (acc : color.Palette) (r : list byte) (i : S) :
  (length r < 4 * n)%nat ->
  exists io,
    vox.read_palette n acc (vox.mkState r i)
    = vox.Return (vox.with_ vox.ErrInvalidChunk io) (vox.mkState [] i).
Proof.
  revert acc r. induction n as [|n IH]; intros acc r Hlen; [lia |].
  cbn [vox.read_palette]. unfold vox.bind at 1.
  destruct (Nat.le_gt_cases 4 (length r)) as [H4|H4].
  - rewrite binary_Read_or_enough by exact H4. cbn [vox.reader vox.img].
    apply IH. rewrite length_drop. lia.
  - rewrite binary_Read_or_short by exact H4. eexists. reflexivity.
Qed.

(** A [SIZE] chunk whose payload is cut short of its 12 bytes, or an [RGBA]
    chunk cut short of its 1024 bytes, gives InvalidChunk wrapping the I/O
    error, and the sink is not called: no bounds and no partly read palette
    reach it. *)
Theorem child_truncated_SIZE_or_RGBA (fuel : nat) (nb d c : Z) (hp : bool)
    (payload : list byte) (i : S) :
  0 <= d < 2 ^ 32 -> 0 <= c < 2 ^ 32 ->
  ((length payload < 12)%nat ->
   exists io,
     vox.child sink fuel nb hp
       (vox.mkState (vox.chunk_header vox.sizeShunkID d c ++ payload) i)
     = vox.Return (vox.with_ vox.ErrInvalidChunk io) (vox.mkState [] i))
  /\ ((length payload < 1024)%nat ->
      exists io,
        vox.child sink fuel nb hp
          (vox.mkState (vox.chunk_header vox.paletteChunkID d c ++ payload) i)
        = vox.Return (vox.with_ vox.ErrInvalidChunk io) (vox.mkState [] i)).
Proof.
  intros Hd Hc. split; intros Hlen; unfold vox.child; unfold vox.bind at 1;
    rewrite binary_Read_or_app by reflexivity;
    rewrite decode_chunk_header by (try reflexivity; lia); cbn [vox.Id].
  - change (vox.tag_is _ vox.sizeShunkID) with true. cbv iota. unfold vox.bind at 1.
    rewrite binary_Read_or_short by exact Hlen. eexists. reflexivity.
  - change (vox.tag_is _ vox.sizeShunkID) with false.
    change (vox.tag_is _ vox.paletteChunkID) with true. cbv iota. unfold vox.bind at 1.
    destruct (read_palette_short 256 [] payload i ltac:(lia)) as (io & ->).
    eexists. reflexivity.
Qed.

Lemma read_voxels_truncated (voxels : list (byte * byte * byte * byte)) (fuel : nat) (k nv : Z)
    (tail : list byte) (i : S) :
  (length voxels < fuel)%nat -> k + Z.of_nat (length voxels) < nv -> (length tail < 4)%nat ->
  vox.read_voxels sink fuel k nv (vox.mkState (flat_map voxel_bytes voxels ++ tail) i)
  = match vox.set_voxels sink voxels i with
    | Some i' =>
        vox.Return
          (vox.with_ vox.ErrInvalidChunk
             (match tail with [] => vox.EOF | _ => vox.ErrUnexpectedEOF end))
          (vox.mkState [] i')
    | None => vox.Panic
    end.
Proof.
  revert fuel k i. induction voxels as [|[[[x y] z] idx] voxels IH]; intros fuel k i Hfuel Hk Ht.
  - destruct fuel as [|fuel]; [cbn in Hfuel; lia |].
    cbn [flat_map app vox.set_voxels vox.read_voxels length] in *.
    destruct (Z.ltb_spec k nv) as [_|Hge]; [|lia].
    unfold vox.bind at 1. rewrite binary_Read_or_short by exact Ht. reflexivity.
  - destruct fuel as [|fuel]; [cbn in Hfuel; lia |].
    cbn [length flat_map vox.set_voxels vox.read_voxels voxel_bytes] in *.
    destruct (Z.ltb_spec k nv) as [_|Hge]; [|lia].
    rewrite <- app_assoc.
    unfold vox.bind at 1. rewrite binary_Read_or_app by reflexivity.
    unfold vox.bind at 1. unfold vox.call. cbn [vox.img vox.reader nth].
    destruct (vox.Set_ sink (vox.uint8 x) (vox.uint8 y) (vox.uint8 z) idx i) as [i'|];
      [|reflexivity].
    apply IH; lia.
Qed.

(** An [XYZI] chunk that announces more voxels than the stream holds gives
    InvalidChunk -- but only after every complete record before the end of
    the stream has been passed to the sink with [Set], in file order: the
    error does not undo them. *)
Theorem child_truncated_XYZI (fuel : nat) (nb d c nv : Z) (hp : bool)
    (voxels : list (byte * byte * byte * byte)) (tail : list byte) (i : S) :
  0 <= d < 2 ^ 32 -> 0 <= c < 2 ^ 32 ->
  Z.of_nat (length voxels) < nv < 2 ^ 32 -> (length tail < 4)%nat ->
  (length voxels < fuel)%nat ->
  vox.child sink fuel nb hp
    (vox.mkState (vox.chunk_header vox.voxelChunkID d c ++ vox.le32 nv
                    ++ flat_map voxel_bytes voxels ++ tail) i)
  = match vox.set_voxels sink voxels i with
    | Some i' =>
        vox.Return
          (vox.with_ vox.ErrInvalidChunk
             (match tail with [] => vox.EOF | _ => vox.ErrUnexpectedEOF end))
          (vox.mkState [] i')
    | None => vox.Panic
    end.
Proof.
  intros Hd Hc Hnv Ht Hfuel. unfold vox.child. unfold vox.bind at 1.
  rewrite binary_Read_or_app by reflexivity.
  rewrite decode_chunk_header by (try reflexivity; lia). cbn [vox.Id].
  change (vox.tag_is _ vox.sizeShunkID) with false.
  change (vox.tag_is _ vox.paletteChunkID) with false.
  change (vox.tag_is _ vox.voxelChunkID) with true. cbv iota.
  unfold vox.bind at 1. rewrite binary_Read_or_app by reflexivity.
  rewrite uint32_le_le32 by lia.
  unfold vox.bind at 1.
  rewrite (read_voxels_truncated voxels fuel 0 nv tail i) by (try assumption; lia).
  destruct (vox.set_voxels sink voxels i); reflexivity.
Qed.


End DecoderEdges.

Lemma Decode_bad_main_chunk_witness :
  exists e r',
    vox.Decode vox.Recorder (vox.file_header ++ vox.chunk_header "PACK" 0 0) []
    = vox.Return e (vox.mkState r' [])
    /\ vox.err e = vox.err vox.ErrInvalidMainChunk
    /\ ((length (vox.chunk_header "PACK" 0 0) < 12)%nat ->
        e = vox.with_ vox.ErrInvalidMainChunk
              (match vox.chunk_header "PACK" 0 0 with
               | [] => vox.EOF | _ => vox.ErrUnexpectedEOF end))
    /\ ((12 <= length (vox.chunk_header "PACK" 0 0))%nat ->
        e = vox.ErrInvalidMainChunk /\ r' = drop 12 (vox.chunk_header "PACK" 0 0)).
Proof.
  apply (Decode_bad_main_chunk vox.Recorder (vox.chunk_header "PACK" 0 0) []).
  right. discriminate.
Defined.

Lemma Decode_no_children_witness :
  vox.Decode vox.Recorder
    (vox.file_header ++ vox.chunk_header vox.mainChunkID 0 0 ++ vox.SIZE_chunk 2 2 2) []
  = vox.Val tt (vox.mkState (vox.SIZE_chunk 2 2 2) [vox.CallSetPalette vox.defaultPalette]).
Proof.
  apply (Decode_no_children vox.Recorder 0 (vox.SIZE_chunk 2 2 2) []). lia.
Defined.

Lemma child_truncated_SIZE_or_RGBA_witness :
  (exists io,
     vox.child vox.Recorder 0 0 false
       (vox.mkState (vox.chunk_header vox.sizeShunkID 12 0 ++ vox.le32 2 ++ vox.le32 2) [])
     = vox.Return (vox.with_ vox.ErrInvalidChunk io) (vox.mkState [] []))
  /\ (exists io,
        vox.child vox.Recorder 0 0 false
          (vox.mkState (vox.chunk_header vox.paletteChunkID 12 0 ++ vox.le32 2 ++ vox.le32 2) [])
        = vox.Return (vox.with_ vox.ErrInvalidChunk io) (vox.mkState [] [])).
Proof.
  destruct (child_truncated_SIZE_or_RGBA vox.Recorder 0 0 12 0 false
              (vox.le32 2 ++ vox.le32 2) [] ltac:(lia) ltac:(lia)) as (H1 & H2).
  split; [apply H1 | apply H2]; cbn; lia.
Defined.

Lemma child_truncated_XYZI_witness :
  vox.child vox.Recorder 5 0 false
    (vox.mkState (vox.chunk_header vox.voxelChunkID 16 0 ++ vox.le32 3
                    ++ flat_map voxel_bytes two_voxels ++ [x01; x02]) [])
  = vox.Return (vox.with_ vox.ErrInvalidChunk vox.ErrUnexpectedEOF)
      (vox.mkState [] [vox.CallSet 0 0 0 x05; vox.CallSet 1 1 1 x09]).
Proof.
  apply (child_truncated_XYZI vox.Recorder 5 0 16 0 3 false two_voxels [x01; x02] []);
    cbn; lia.
Defined.


(** ** The decoder's calls depend on the stream alone *)

Lemma replay_app {S : Type} (sink : vox.Image S) (l1 l2 : list vox.Call) (i : S) :
  replay sink (l1 ++ l2) i
  = match replay sink l1 i with Some i' => replay sink l2 i' | None => None end.
Proof.
  revert i. induction l1 as [|c l1 IH]; intros i; [reflexivity |].
  cbn [app replay]. destruct (apply_call sink c i); [apply IH | reflexivity].
Qed.

Section DecoderReplay.

Context {S : Type} (sink : vox.Image S).

(** The outcome [res] on the sink agrees with the outcome [resR] on the
    recording sink: same value or error, same rest of the stream, and the
    sink is what replaying the log from [i0] gives. *)
Definition agrees (i0 : S) {A : Type} (res : vox.Res (S := S) A)
    (resR : vox.Res (S := list vox.Call) A) : Prop :=
  match res with
  | vox.Val a st =>
      exists log, resR = vox.Val a (vox.mkState (vox.reader st) log)
                  /\ replay sink log i0 = Some (vox.img st)
  | vox.Return e st =>
      exists log, resR = vox.Return e (vox.mkState (vox.reader st) log)
                  /\ replay sink log i0 = Some (vox.img st)
  | vox.Panic => True
  | vox.OutOfFuel => resR = vox.OutOfFuel
  end.

Definition simulates {A : Type} (m : vox.M (S := S) A) (mR : vox.M (S := list vox.Call) A)
    : Prop :=
  forall i0 r log i,
    replay sink log i0 = Some i ->
    agrees i0 (m (vox.mkState r i)) (mR (vox.mkState r log)).

Lemma sim_ret {A : Type} (a : A) : simulates (vox.ret a) (vox.ret a).
Proof. intros i0 r log i H. cbn. eauto. Qed.

Lemma sim_return {A : Type} (e : vox.Error) :
  simulates (vox.return_ (A := A) e) (vox.return_ e).
Proof. intros i0 r log i H. cbn. eauto. Qed.

Lemma sim_bind {A B : Type} (m : vox.M A) (mR : vox.M A) (k : A -> vox.M B) (kR : A -> vox.M B) :
  simulates m mR -> (forall a, simulates (k a) (kR a)) ->
  simulates (vox.bind m k) (vox.bind mR kR).
Proof.
  intros Hm Hk i0 r log i H. specialize (Hm i0 r log i H). unfold vox.bind.
  destruct (m (vox.mkState r i)) as [a [r' i']|e [r' i']| |]; cbn in Hm |- *.
  - destruct Hm as (log' & -> & Hrep). apply Hk. exact Hrep.
  - destruct Hm as (log' & -> & Hrep). eauto.
  - exact I.
  - rewrite Hm. reflexivity.
Qed.

Lemma sim_binary_Read_or (n : nat) (e : vox.Error) :
  simulates (vox.binary_Read_or n e) (vox.binary_Read_or n e).
Proof.
  intros i0 r log i H.
  destruct (Nat.le_gt_cases n (length r)) as [Hn|Hn].
  - rewrite !binary_Read_or_enough by exact Hn. cbn. eauto.
  - rewrite !binary_Read_or_short by exact Hn. cbn. eauto.
Qed.

Lemma sim_reader_Read (sz : Z) : simulates (vox.reader_Read sz) (vox.reader_Read sz).
Proof.
  intros i0 r log i H. unfold vox.reader_Read. cbn [vox.reader vox.img].
  destruct r; cbn; eauto.
Qed.

Lemma sim_call (c : vox.Call) :
  simulates (vox.call (apply_call sink c)) (vox.call (apply_call vox.Recorder c)).
Proof.
  intros i0 r log i H. unfold vox.call. cbn [vox.img vox.reader].
  assert (HR : apply_call vox.Recorder c log = Some (log ++ [c])) by (destruct c; reflexivity).
  rewrite HR.
  destruct (apply_call sink c i) as [i'|] eqn:Hc; cbn; [|exact I].
  eexists. split; [reflexivity |].
  rewrite replay_app, H. cbn [replay]. rewrite Hc. reflexivity.
Qed.

Lemma sim_read_palette (n : nat) (acc : color.Palette) :
  simulates (vox.read_palette n acc) (vox.read_palette n acc).
Proof.
  revert acc. induction n as [|n IH]; intros acc; cbn [vox.read_palette].
  - apply sim_ret.
  - apply sim_bind; [apply sim_binary_Read_or |]. intros bs. apply IH.
Qed.

Lemma sim_read_voxels (fuel : nat) (k nv : Z) :
  simulates (vox.read_voxels sink fuel k nv) (vox.read_voxels vox.Recorder fuel k nv).
Proof.
  revert k. induction fuel as [|fuel IH]; intros k; cbn [vox.read_voxels];
    destruct (k <? nv); try apply sim_ret.
  - intros i0 r log i H. reflexivity.
  - apply sim_bind; [apply sim_binary_Read_or |]. intros bs.
    apply sim_bind; [|intros _; apply IH].
    apply (sim_call (vox.CallSet _ _ _ _)).
Qed.

Lemma sim_child (fuel : nat) (nb : Z) (hp : bool) :
  simulates (vox.child sink fuel nb hp) (vox.child vox.Recorder fuel nb hp).
Proof.
  unfold vox.child.
  apply sim_bind; [apply sim_binary_Read_or |]. intros bs.
  repeat match goal with |- context [if ?c then _ else _] => destruct c end.
  - apply sim_bind; [apply sim_binary_Read_or |]. intros size.
    apply sim_bind; [apply (sim_call (vox.CallSetBounds _)) | intros _; apply sim_ret].
  - apply sim_bind; [apply sim_read_palette |]. intros pal.
    apply sim_bind; [apply (sim_call (vox.CallSetPalette _)) | intros _; apply sim_ret].
  - apply sim_bind; [apply sim_binary_Read_or |]. intros cnt.
    apply sim_bind; [apply sim_read_voxels | intros _; apply sim_ret].
  - apply sim_bind; [apply sim_reader_Read |]. intros [io|]; [apply sim_return | apply sim_ret].
Qed.

Lemma sim_ConsumingChildren (fuel : nat) (cs nb : Z) (hp : bool) :
  simulates (vox.ConsumingChildren sink fuel cs nb hp)
    (vox.ConsumingChildren vox.Recorder fuel cs nb hp).
Proof.
  revert nb hp. induction fuel as [|fuel IH]; intros nb hp; cbn [vox.ConsumingChildren];
    destruct (nb <? cs); try apply sim_ret.
  - intros i0 r log i H. reflexivity.
  - apply sim_bind; [apply sim_child |]. intros nh. apply IH.
Qed.

Lemma sim_Decode_fuel (fuel : nat) :
  simulates (vox.Decode_fuel sink fuel) (vox.Decode_fuel vox.Recorder fuel).
Proof.
  unfold vox.Decode_fuel.
  apply sim_bind; [apply sim_binary_Read_or |]. intros bs.
  repeat match goal with |- context [if negb ?c then _ else _] => destruct c; cbn [negb] end;
    try apply sim_return.
  apply sim_bind; [apply sim_binary_Read_or |]. intros bs2.
  match goal with |- context [if negb ?c then _ else _] => destruct c; cbn [negb] end;
    try apply sim_return.
  apply sim_bind; [apply sim_ConsumingChildren |]. intros hp.
  apply sim_bind; [|intros _; apply sim_ret].
  destruct hp; cbn [negb]; [apply sim_ret | apply (sim_call (vox.CallSetPalette _))].
Qed.

(** Whatever sink [Decode] is run against, if it returns -- nil or an error
    -- then the recording sink run on the same stream returns the same, with
    the same rest of the stream, and the sink's final state is what the
    recorded calls, made in order on the initial sink, produce: the calls
    [Decode] makes depend on the stream alone. *)
Theorem Decode_is_replay_of_recorded_calls (r : list byte) (i : S) :
  (forall r' i',
     vox.Decode sink r i = vox.Val tt (vox.mkState r' i') ->
     exists calls, vox.Decode vox.Recorder r [] = vox.Val tt (vox.mkState r' calls)
                   /\ replay sink calls i = Some i')
  /\ (forall e r' i',
        vox.Decode sink r i = vox.Return e (vox.mkState r' i') ->
        exists calls, vox.Decode vox.Recorder r [] = vox.Return e (vox.mkState r' calls)
                      /\ replay sink calls i = Some i').
Proof.
  pose proof (sim_Decode_fuel (Datatypes.S (length r)) i r [] i eq_refl) as H.
  fold (vox.Decode sink r i) in H. fold (vox.Decode vox.Recorder r []) in H.
  split.
  - intros r' i' E. rewrite E in H. exact H.
  - intros e r' i' E. rewrite E in H. exact H.
Qed.

End DecoderReplay.

(** ** Round trips through the chunk layout *)

Lemma u32_small (z : Z) : 0 <= z < 2 ^ 32 -> GoInt.u32 z = z.
Proof. intros H. unfold GoInt.u32. apply Z.mod_small. exact H. Qed.

Ltac u32_simpl :=
  repeat match goal with
    | |- context [GoInt.u32 ?z] => rewrite (u32_small z) by lia
    end.

Lemma set_voxels_Recorder (voxels : list (byte * byte * byte * byte)) (log : list vox.Call) :
  vox.set_voxels vox.Recorder voxels log = Some (log ++ map voxel_call voxels).
Proof.
  revert log. induction voxels as [|[[[x y] z] idx] voxels IH]; intros log.
  - cbn. rewrite app_nil_r. reflexivity.
  - cbn [vox.set_voxels map voxel_call]. cbn [vox.Set_ vox.Recorder].
    rewrite IH, <- app_assoc. reflexivity.
Qed.

Lemma Bx_origin (x y z : Z) : 0 <= x -> 0 <= y -> 0 <= z -> Bx 0 0 0 x y z = Box.mk ZP (Pt x y z).
Proof.
  intros Hx Hy Hz. unfold Bx.
  destruct (Z.gtb_spec 0 x), (Z.gtb_spec 0 y), (Z.gtb_spec 0 z); try lia. reflexivity.
Qed.

Lemma length_SIZE_chunk (x y z : Z) : length (vox.SIZE_chunk x y z) = 24%nat.
Proof. reflexivity. Qed.

Lemma length_XYZI_chunk (voxels : list (byte * byte * byte * byte)) :
  length (vox.XYZI_chunk voxels) = (16 + 4 * length voxels)%nat.
Proof.
  unfold vox.XYZI_chunk. rewrite !length_app.
  rewrite length_flat_map_const with (c := 4%nat) by (intros [[[? ?] ?] ?]; reflexivity).
  change (length (vox.chunk_header vox.voxelChunkID _ 0)) with 12%nat.
  rewrite length_le32. lia.
Qed.

(** Round trip without a palette: for all extents below [2^32] and every
    list of voxel records, decoding the file made of a [SIZE] chunk and an
    [XYZI] chunk reads the whole stream, returns nil, and makes exactly these
    calls in this order: [SetBounds] with the box from the origin to the
    extents, one [Set] per record in file order (coordinates and index as
    written), and [SetPalette] with the default palette. *)
Theorem Decode_round_trip_default_palette (x y z : Z)
    (voxels : list (byte * byte * byte * byte)) :
  0 <= x < 2 ^ 32 -> 0 <= y < 2 ^ 32 -> 0 <= z < 2 ^ 32 ->
  40 + 4 * Z.of_nat (length voxels) < 2 ^ 32 ->
  vox.Decode vox.Recorder (vox.vox_file [vox.SIZE_chunk x y z; vox.XYZI_chunk voxels]) []
  = vox.Val tt
      (vox.mkState []
         (vox.CallSetBounds (Box.mk ZP (Pt x y z)) :: map voxel_call voxels
            ++ [vox.CallSetPalette vox.defaultPalette])).
Proof.
  intros Hx Hy Hz Hn.
  set (file := vox.vox_file [vox.SIZE_chunk x y z; vox.XYZI_chunk voxels]).
  assert (Hbody : length (concat [vox.SIZE_chunk x y z; vox.XYZI_chunk voxels])
                  = (40 + 4 * length voxels)%nat).
  { cbn [concat]. rewrite !length_app, length_SIZE_chunk, length_XYZI_chunk. cbn. lia. }
  assert (Hfile : (length voxels < length file)%nat).
  { unfold file, vox.vox_file. rewrite !length_app, Hbody. lia. }
  unfold vox.Decode.
  rewrite (Decode_fuel_indep vox.Recorder _ (Datatypes.S (Datatypes.S (Datatypes.S (length file)))))
    by (cbn [vox.reader]; lia).
  unfold file at 2. rewrite Decode_fuel_vox_file by (rewrite Hbody; lia).
  rewrite Hbody. cbn [concat]. rewrite app_nil_r.
  unfold vox.bind at 1.
  rewrite ConsumingChildren_step by lia.
  unfold vox.bind at 1.
  rewrite (child_SIZE vox.Recorder _ _ _ x y z _ [] [vox.CallSetBounds (Box.mk ZP (Pt x y z))])
    by (try assumption; cbn; rewrite Bx_origin by lia; reflexivity).
  cbn [fst snd]. u32_simpl.
  rewrite ConsumingChildren_step by lia.
  unfold vox.bind at 1.
  rewrite <- (app_nil_r (vox.XYZI_chunk voxels)).
  rewrite (child_XYZI vox.Recorder) by lia.
  rewrite set_voxels_Recorder. cbn [fst snd]. u32_simpl.
  rewrite ConsumingChildren_done by lia.
  reflexivity.
Qed.

Lemma Decode_round_trip_default_palette_witness :
  vox.Decode vox.Recorder (vox.vox_file [vox.SIZE_chunk 2 2 2; vox.XYZI_chunk two_voxels]) []
  = vox.Val tt
      (vox.mkState []
         (vox.CallSetBounds (Box.mk ZP (Pt 2 2 2)) :: map voxel_call two_voxels
            ++ [vox.CallSetPalette vox.defaultPalette])).
Proof.
  apply (Decode_round_trip_default_palette 2 2 2 two_voxels); cbn; lia.
Defined.


